(** * TinyHTML: the TML parser and the HTML generator

    A shallow embedding of [TinyHTMLParser] (parser.ts) and [HTMLGenerator]
    (generator.ts), and the properties of the specification checked
    against them; then the cache of compiled files (cache.ts) and the
    logger (logger.ts), and further properties of the four.

    Conventions of the embedding.
    - A JavaScript string is a list of UTF-16 code units ([str]); [length],
      indexing, [trim], [includes] and the regular expressions of the source
      all work on code units.
    - JavaScript numbers that the code uses as counters and indentation
      levels are integers ([Z]): [parseChildren] is entered with [-1]. A
      number that a caller chooses (the size of an indentation step, the
      capacity of the cache) is a [number]: a finite value, an infinity
      or NaN. Products of such numbers are exact, where JavaScript rounds
      them to the nearest double, and a string has no greatest length:
      [repeat] throws for a count that is negative or infinite only.
    - The parser object keeps the unread part of [this.input] (the suffix
      from [this.position] on) together with [line] and [column]: the
      position only ever grows and every read is at or after it.
    - A [throw] is the [Raise] outcome. Loops whose termination is not
      structural take a fuel argument; running out of it is the separate
      outcome [Starved], which the totality lemmas show never happens with
      the fuel the entry points supply.
    - The parser keeps nothing after a [throw], so its functions return
      an outcome only. The generator is used again after a [throw], so
      its methods return an outcome together with the fields of the
      object as the method left them. *)

From Stdlib Require Import String Ascii.
From Stdlib Require Import List ZArith NArith QArith Qround Lia Bool.
Import ListNotations.

Local Open Scope Z_scope.
Local Open Scope list_scope.

(* ================================================================== *)
(** * Strings as sequences of code units *)
(* ================================================================== *)

Module Text.

(** A UTF-16 code unit, and a string. *)
Abbreviation char := N (only parsing).
Abbreviation str := (list N) (only parsing).

(** An ASCII literal of the source as a sequence of code units. *)
Definition lit (s : string) : str := map N_of_ascii (list_ascii_of_string s).

Definition NUL : char := 0%N.
Definition TAB : char := 9%N.
Definition NL : char := 10%N.
Definition SPACE : char := 32%N.
Definition DQUOTE : char := 34%N.
Definition AMP : char := 38%N.
Definition SQUOTE : char := 39%N.
Definition MINUS : char := 45%N.
Definition DOT : char := 46%N.
Definition COLON : char := 58%N.
Definition LT : char := 60%N.
Definition EQUALS : char := 61%N.
Definition GT : char := 62%N.
Definition HASH : char := 35%N.
Definition LBRACKET : char := 91%N.
Definition BACKSLASH : char := 92%N.
Definition RBRACKET : char := 93%N.
Definition UNDERSCORE : char := 95%N.
Definition PIPE : char := 124%N.
Definition U_FFFE : char := 65534%N.
Definition U_FFFF : char := 65535%N.

(** [s.length] *)
Definition jsLength (s : str) : Z := Z.of_nat (length s).

(** [a === b] on strings *)
Fixpoint str_eqb (a b : str) : bool :=
  match a, b with
  | [], [] => true
  | x :: a', y :: b' => N.eqb x y && str_eqb a' b'
  | _, _ => false
  end.

Fixpoint takeWhile {A : Type} (p : A -> bool) (s : list A) : list A :=
  match s with
  | c :: s' => if p c then c :: takeWhile p s' else []
  | [] => []
  end.

Fixpoint dropWhile {A : Type} (p : A -> bool) (s : list A) : list A :=
  match s with
  | c :: s' => if p c then dropWhile p s' else s
  | [] => []
  end.

Definition inRange (lo hi c : char) : bool := (N.leb lo c && N.leb c hi)%bool.

(** The characters [String.prototype.trim] removes: WhiteSpace and
    LineTerminator of ECMAScript. *)
Definition isTrimSpace (c : char) : bool :=
  (inRange 9 13 c || N.eqb c 32 || N.eqb c 160 || N.eqb c 5760
   || inRange 8192 8202 c || N.eqb c 8232 || N.eqb c 8233 || N.eqb c 8239
   || N.eqb c 8287 || N.eqb c 12288 || N.eqb c 65279)%N.

Definition trimStart (s : str) : str := dropWhile isTrimSpace s.
Definition trimEnd (s : str) : str := rev (dropWhile isTrimSpace (rev s)).
(** [s.trim()] *)
Definition trim (s : str) : str := trimEnd (trimStart s).

(** [/[ \t]/] *)
Definition isBlank (c : char) : bool := N.eqb c SPACE || N.eqb c TAB.
(** [/[a-zA-Z]/] *)
Definition isLetter (c : char) : bool := (inRange 97 122 c || inRange 65 90 c)%N.
(** [/[a-zA-Z0-9_-]/] *)
Definition isIdentChar (c : char) : bool :=
  (isLetter c || inRange 48 57 c || N.eqb c UNDERSCORE || N.eqb c MINUS)%N.

(** [s.includes(c)] for a one-character needle *)
Definition includesChar (c : char) (s : str) : bool := existsb (N.eqb c) s.

(** [s.startsWith(p)] *)
Fixpoint startsWith (p s : str) : bool :=
  match p, s with
  | [], _ => true
  | x :: p', y :: s' => N.eqb x y && startsWith p' s'
  | _ :: _, [] => false
  end.

(** [s.endsWith(p)] *)
Definition endsWith (p s : str) : bool := startsWith (rev p) (rev s).

(** [s.slice(1, -1)] *)
Definition slice1m1 (s : str) : str := removelast (tl s).

(** [s.substring(n)] and [s.substr(n)] for [0 <= n] *)
Definition substring (n : nat) (s : str) : str := skipn n s.

(** [list.includes(s)] for a list of strings *)
Definition includesStr (l : list str) (s : str) : bool := existsb (str_eqb s) l.

(** [parts.join(sep)] *)
Fixpoint join (sep : str) (parts : list str) : str :=
  match parts with
  | [] => []
  | [p] => p
  | p :: rest => p ++ sep ++ join sep rest
  end.

(** [s.split('\n')]: never empty, [''.split('\n')] is [['']]. *)
Fixpoint splitLines (s : str) : list str :=
  match s with
  | [] => [[]]
  | c :: s' =>
      if N.eqb c NL then [] :: splitLines s'
      else match splitLines s' with
           | l :: ls => (c :: l) :: ls
           | [] => [[c]]
           end
  end.

(** [s.toLowerCase()] on the ASCII letters. The source applies it to a tag
    name only to compare the result with ['script'] and ['style']; no code
    unit outside ASCII lowers to one of the letters of these two words, so
    the comparison is the same with the full Unicode mapping. *)
Definition lowerChar (c : char) : char :=
  (if inRange 65 90 c then c + 32 else c)%N.
Definition toLowerCase (s : str) : str := map lowerChar s.

(** The quote stripping the parser repeats in four places:
    [if ((t.startsWith('"') && t.endsWith('"')) ||
         (t.startsWith("'") && t.endsWith("'"))) t = t.slice(1, -1)] *)
Definition stripQuotes (t : str) : str :=
  if (startsWith [DQUOTE] t && endsWith [DQUOTE] t)
     || (startsWith [SQUOTE] t && endsWith [SQUOTE] t)
  then slice1m1 t else t.

End Text.
Import Text.

(* ================================================================== *)
(** * Errors and outcomes *)
(* ================================================================== *)

(** The messages [TinyHTMLParser.throwError] is called with. *)
Inductive ParseMessage : Type :=
| ParserDisposed
| UnexpectedEndOfInput
| IdentifierTooLong (maximum : Z)
| ExpectedIdentifier
| StringTooLong (maximum : Z)
| UnexpectedEndInEscape
| UnterminatedString (quote : char)
| EmptyTagLine.

(** [new Error(...)] by the prefix of its message:
    ['Invalid input: must be a non-empty string'],
    ['Invalid input: contains null bytes or invalid Unicode characters'],
    ['Input too large: ...'],
    ['TinyHTML Parse Error at line l, column c: ...'] and
    ['HTML Generator Error: Generator has been disposed']; and the
    [RangeError] of [String.prototype.repeat] for a count that is
    negative or infinite. *)
Inductive Error : Type :=
| InvalidInput_notNonEmptyString
| InvalidInput_forbiddenCharacters
| InputTooLarge
| ParseError (line column : Z) (message : ParseMessage)
| GeneratorDisposed
| RangeError_invalidCount.

Inductive outcome (A : Type) : Type :=
| Done (a : A)
| Raise (e : Error)
| Starved.
Arguments Done {A} a.
Arguments Raise {A} e.
Arguments Starved {A}.

Definition bind {A B : Type} (m : outcome A) (k : A -> outcome B) : outcome B :=
  match m with
  | Done a => k a
  | Raise e => Raise e
  | Starved => Starved
  end.

Notation "x <- m ;; k" := (bind m (fun x => k))
  (at level 61, m at next level, right associativity).
Notation "' pat <- m ;; k" := (bind m (fun x => match x with pat => k end))
  (at level 61, pat pattern, m at next level, right associativity).

(* ================================================================== *)
(** * Numbers *)
(* ================================================================== *)

(** A JavaScript number where a caller may pass any: a finite value, an
    infinity or NaN. A finite value is a rational (every finite double is
    one); the product below is exact where JavaScript rounds it to the
    nearest double. *)
Inductive number : Type :=
| Finite (q : Q)
| PlusInfinity
| MinusInfinity
| NotANumber.

(** [size >= n] for an integer [size]; a comparison with NaN is false. *)
Definition geNumber (size : Z) (n : number) : bool :=
  match n with
  | Finite q => Qle_bool q (inject_Z size)
  | PlusInfinity => false
  | MinusInfinity => true
  | NotANumber => false
  end.

(** A number in a condition: [0] and NaN are falsy. *)
Definition truthyNumber (n : number) : bool :=
  match n with
  | Finite q => negb (Qeq_bool q 0)
  | PlusInfinity | MinusInfinity => true
  | NotANumber => false
  end.

(** [level * n] for an integer [level]; [0 * Infinity] is NaN. *)
Definition timesInteger (level : Z) (n : number) : number :=
  match n with
  | Finite q => Finite (inject_Z level * q)
  | PlusInfinity =>
      if level =? 0 then NotANumber
      else if 0 <? level then PlusInfinity else MinusInfinity
  | MinusInfinity =>
      if level =? 0 then NotANumber
      else if 0 <? level then MinusInfinity else PlusInfinity
  | NotANumber => NotANumber
  end.

(** The integer part of a finite value, towards zero. *)
Definition truncate (q : Q) : Z :=
  if Qle_bool 0 q then Qfloor q else Qceiling q.

(** [c.repeat(count)]: the count goes through ToIntegerOrInfinity (NaN
    is 0, a fraction loses its fractional part), and a count that is then
    negative or infinite raises a RangeError. *)
Definition repeatString (c : char) (count : number) : outcome str :=
  match count with
  | Finite q =>
      if truncate q <? 0 then Raise RangeError_invalidCount
      else Done (repeat c (Z.to_nat (truncate q)))
  | PlusInfinity | MinusInfinity => Raise RangeError_invalidCount
  | NotANumber => Done []
  end.
(* ================================================================== *)
(** * The parser object and its constructor *)
(* ================================================================== *)

(** [this.input.slice(this.position)], [this.line], [this.column]. The
    [disposed] flag is left out: [dispose] empties the input, and nothing
    below is about a disposed parser. *)
Record Parser : Type := mkParser {
  rest : str;
  line : Z;
  column : Z
}.

Definition maxInputLength : Z := 10 * 1024 * 1024.

(** [constructor(input: string)] *)
Definition constructor (input : str) : outcome Parser :=
  match input with
  | [] => Raise InvalidInput_notNonEmptyString
  | _ :: _ =>
      if jsLength input >? maxInputLength then Raise InputTooLarge
      else if includesChar NUL input || includesChar U_FFFE input
              || includesChar U_FFFF input
      then Raise InvalidInput_forbiddenCharacters
      else Done (mkParser (trim input) 1 1)
  end.

(* ================================================================== *)
(** * The syntax tree (types.ts) *)
(* ================================================================== *)

(** [value: string | boolean] *)
Inductive AttrValue : Type :=
| StringValue (s : str)
| BoolValue (b : bool).

(** [{ name: string; value: string | boolean }] *)
Definition Attribute : Type := (str * AttrValue)%type.

(** [DoctypeNode], [TagNode] and [TextNode]; [id] is [None] when the
    property is undefined. *)
#[warnings="-register-all"]
Inductive ASTNode : Type :=
| DoctypeNode (doctype : str)
| TagNode (name : str) (classes : list str) (id : option str)
          (attributes : list Attribute) (children : list ASTNode)
          (selfClosing : bool)
| TextNode (content : str).

(* ================================================================== *)
(** * Reading the input: peek, advance and the small loops *)
(* ================================================================== *)

(** [this.position >= this.input.length] *)
Definition atEnd (p : Parser) : bool :=
  match rest p with [] => true | _ :: _ => false end.

(** [peek()]: the character at the position; [None] is the [''] that the
    source returns at the end of the input. *)
Definition peek (p : Parser) : option char :=
  match rest p with x :: _ => Some x | [] => None end.

(** [this.peek() === c]; [''] equals no character. *)
Definition peekIs (c : char) (p : Parser) : bool :=
  match peek p with Some x => N.eqb x c | None => false end.

(** The bookkeeping of [advance] once the character [c] is read and [r]
    is left. *)
Definition moved (c : char) (r : str) (l col : Z) : Parser :=
  if N.eqb c NL then mkParser r (l + 1) 1 else mkParser r l (col + 1).

(** [advance()] *)
Definition advance (p : Parser) : outcome (char * Parser) :=
  match rest p with
  | [] => Raise (ParseError (line p) (column p) UnexpectedEndOfInput)
  | c :: r => Done (c, moved c r (line p) (column p))
  end.

(** [if (this.peek() === '\n') { this.advance(); }] *)
Definition skipNewline (p : Parser) : outcome Parser :=
  if peekIs NL p then '(_, p') <- advance p ;; Done p' else Done p.

(** [getIndentLevel()]: the number of space characters at the position. *)
Fixpoint countSpaces (r : str) : Z :=
  match r with
  | c :: r' => if N.eqb c SPACE then 1 + countSpaces r' else 0
  | [] => 0
  end.
Definition getIndentLevel (p : Parser) : Z := countSpaces (rest p).

(** [while (this.position < this.input.length && this.peek() === ' ')
      this.advance();]
    The loop test keeps [advance] away from the end of the input, and a
    space moves the column only. *)
Fixpoint skipSpacesFrom (r : str) (l col : Z) : Parser :=
  match r with
  | c :: r' =>
      if N.eqb c SPACE then skipSpacesFrom r' l (col + 1) else mkParser r l col
  | [] => mkParser [] l col
  end.
Definition skipIndentation (p : Parser) : Parser :=
  skipSpacesFrom (rest p) (line p) (column p).

(** [readLine()]: the characters up to the next ['\n'], which stays. *)
Fixpoint readLineFrom (r : str) (l col : Z) : str * Parser :=
  match r with
  | c :: r' =>
      if N.eqb c NL then ([], mkParser r l col)
      else let '(s, p) := readLineFrom r' l (col + 1) in (c :: s, p)
  | [] => ([], mkParser [] l col)
  end.
Definition readLine (p : Parser) : str * Parser :=
  readLineFrom (rest p) (line p) (column p).

(* ================================================================== *)
(** * The strict readers of the class (never called by [parse]) *)
(* ================================================================== *)

Definition maxIdentifierLength : Z := 100.
Definition maxStringLength : Z := 10000.

(** [TinyHTMLParser.readIdentifier()]: the loop stops with an error as
    soon as a 101st identifier character is in sight. *)
Fixpoint readIdentifierFrom (r : str) (l col : Z) (result : str)
  : outcome (str * Parser) :=
  match r with
  | c :: r' =>
      if isIdentChar c then
        if jsLength result >=? maxIdentifierLength
        then Raise (ParseError l col (IdentifierTooLong maxIdentifierLength))
        else readIdentifierFrom r' l (col + 1) (result ++ [c])
      else Done (result, mkParser r l col)
  | [] => Done (result, mkParser [] l col)
  end.

Definition readIdentifier (p : Parser) : outcome (str * Parser) :=
  '(result, p') <- readIdentifierFrom (rest p) (line p) (column p) [] ;;
  match result with
  | [] => Raise (ParseError (line p') (column p') ExpectedIdentifier)
  | _ :: _ => Done (result, p')
  end.

(** The loop of [TinyHTMLParser.readString(quote)], after the opening
    quote. *)
Fixpoint readStringFrom (quote : char) (r : str) (l col : Z) (result : str)
  : outcome (str * Parser) :=
  match r with
  | [] => Done (result, mkParser [] l col)
  | c :: r' =>
      if N.eqb c quote then Done (result, mkParser r l col)
      else if jsLength result >=? maxStringLength
      then Raise (ParseError l col (StringTooLong maxStringLength))
      else if N.eqb c BACKSLASH then
        match r' with
        | [] => Raise (ParseError l (col + 1) UnexpectedEndInEscape)
        | d :: r'' =>
            let p := moved d r'' l (col + 1) in
            readStringFrom quote r'' (line p) (column p) (result ++ [d])
        end
      else
        let p := moved c r' l col in
        readStringFrom quote r' (line p) (column p) (result ++ [c])
  end.

(** [TinyHTMLParser.readString(quote)] *)
Definition readString (quote : char) (p : Parser) : outcome (str * Parser) :=
  '(_, p1) <- advance p ;;
  '(result, p2) <- readStringFrom quote (rest p1) (line p1) (column p1) [] ;;
  if peekIs quote p2 then '(_, p3) <- advance p2 ;; Done (result, p3)
  else Raise (ParseError (line p2) (column p2) (UnterminatedString quote)).

(* ================================================================== *)
(** * parseTagLine: the head of a tag line *)
(* ================================================================== *)

(** The object [parseTagLine] returns; [content] is [None] when the
    property is undefined. *)
Module Parsed.
Record t : Type := mk {
  name : str;
  classes : list str;
  id : option str;
  attributes : list Attribute;
  content : option str
}.
End Parsed.

(** [parseTagLine] works on its own cursor [pos] into [line], with its own
    [peek], [advance], [skipWhitespace] and [readIdentifier]; as for the
    parser, the embedding keeps the unread suffix [line.substr(pos)].
    Every [advance()] of the function is under a test that a character is
    there. *)

(** The local [skipWhitespace]. *)
Definition skipWhitespace (r : str) : str := dropWhile isBlank r.

(** The local [readIdentifier]: no length limit, and an empty result is
    returned as it is. *)
Definition localReadIdentifier (r : str) : str * str :=
  (takeWhile isIdentChar r, dropWhile isIdentChar r).

(** [while (peek() === '.') { advance(); classes.push(readIdentifier()); }] *)
Fixpoint readClasses (fuel : nat) (classes : list str) (r : str)
  : outcome (list str * str) :=
  match fuel with
  | O => Starved
  | S fuel' =>
      match r with
      | c :: r1 =>
          if N.eqb c DOT then
            let '(cls, r2) := localReadIdentifier r1 in
            readClasses fuel' (classes ++ [cls]) r2
          else Done (classes, r)
      | [] => Done (classes, r)
      end
  end.

(** [if (peek() === '#') { advance(); id = readIdentifier(); }] *)
Definition readId (r : str) : option str * str :=
  match r with
  | c :: r1 =>
      if N.eqb c HASH then
        let '(i, r2) := localReadIdentifier r1 in (Some i, r2)
      else (None, r)
  | [] => (None, r)
  end.

(** The body of a quoted attribute value, after the opening quote:
    [while (pos < line.length && peek() !== quote) {
       if (peek() === '\\') { advance(); if (pos < line.length) value += advance(); }
       else value += advance(); }] *)
Fixpoint readQuotedValue (quote : char) (r : str) : str * str :=
  match r with
  | [] => ([], [])
  | c :: r1 =>
      if N.eqb c quote then ([], r)
      else if N.eqb c BACKSLASH then
        match r1 with
        | d :: r2 => let '(v, r') := readQuotedValue quote r2 in (d :: v, r')
        | [] => ([], [])
        end
      else let '(v, r') := readQuotedValue quote r1 in (c :: v, r')
  end.

(** [if (peek() === quote) advance();] *)
Definition skipChar (c : char) (r : str) : str :=
  match r with
  | x :: r' => if N.eqb x c then r' else r
  | [] => r
  end.

(** An unquoted value: up to [']'], a space or a tab. *)
Definition isUnquotedChar (c : char) : bool :=
  negb (N.eqb c RBRACKET) && negb (N.eqb c SPACE) && negb (N.eqb c TAB).

(** What follows the attribute name: [=value] or nothing. *)
Definition readAttrValue (r : str) : AttrValue * str :=
  match r with
  | c :: r1 =>
      if N.eqb c EQUALS then
        let r2 := skipWhitespace r1 in
        match r2 with
        | q :: r3 =>
            if N.eqb q DQUOTE || N.eqb q SQUOTE then
              let '(v, r4) := readQuotedValue q r3 in
              (StringValue v, skipChar q r4)
            else
              (StringValue (takeWhile isUnquotedChar r2),
               dropWhile isUnquotedChar r2)
        | [] => (StringValue [], [])
        end
      else (BoolValue true, r)
  | [] => (BoolValue true, r)
  end.

(** [while (pos < line.length && peek() !== ']') { ... }]: the entries of
    one attribute block. An empty attribute name leaves the loop
    ([break]) after the blanks before it. *)
Fixpoint readAttributes (fuel : nat) (attributes : list Attribute) (r : str)
  : outcome (list Attribute * str) :=
  match fuel with
  | O => Starved
  | S fuel' =>
      match r with
      | [] => Done (attributes, r)
      | c :: _ =>
          if N.eqb c RBRACKET then Done (attributes, r)
          else
            let r1 := skipWhitespace r in
            let '(attrName, r2) := localReadIdentifier r1 in
            match attrName with
            | [] => Done (attributes, r2)
            | _ :: _ =>
                let r3 := skipWhitespace r2 in
                let '(value, r4) := readAttrValue r3 in
                readAttributes fuel' (attributes ++ [(attrName, value)])
                               (skipWhitespace r4)
            end
      end
  end.

(** [while (peek() === '[') { advance(); ...entries...;
      if (peek() === ']') advance(); skipWhitespace(); }] *)
Fixpoint readAttributeBlocks (fuel : nat) (attributes : list Attribute)
  (r : str) : outcome (list Attribute * str) :=
  match fuel with
  | O => Starved
  | S fuel' =>
      match r with
      | c :: r1 =>
          if N.eqb c LBRACKET then
            '(attributes', r2) <- readAttributes (S (length r1)) attributes r1 ;;
            readAttributeBlocks fuel' attributes'
                                (skipWhitespace (skipChar RBRACKET r2))
          else Done (attributes, r)
      | [] => Done (attributes, r)
      end
  end.

(** [if (peek() === ':') { ... }]: the inline content. *)
Definition readContent (r : str) : option str :=
  match r with
  | c :: r1 =>
      if N.eqb c COLON then
        match skipWhitespace r1 with
        | [] => None
        | d :: r3 =>
            if N.eqb d PIPE then
              match skipWhitespace r3 with
              | [] => Some [PIPE]
              | r4 => Some (stripQuotes (trim r4))
              end
            else if N.eqb d DQUOTE then
              Some (takeWhile (fun x => negb (N.eqb x DQUOTE)) r3)
            else Some (trim (d :: r3))
        end
      else None
  | [] => None
  end.

(** [parseTagLine(line)]; [p] is the parser, for the position an error
    reports. *)
Definition parseTagLine (p : Parser) (ln : str) : outcome Parsed.t :=
  match trim ln with
  | [] => Raise (ParseError (line p) (column p) EmptyTagLine)
  | _ :: _ =>
      let '(name, r1) := localReadIdentifier ln in
      '(classes, r2) <- readClasses (S (length r1)) [] r1 ;;
      let '(id, r3) := readId r2 in
      '(attributes, r4) <- readAttributeBlocks (S (length r3)) [] r3 ;;
      Done (Parsed.mk name classes id attributes (readContent (skipWhitespace r4)))
  end.


(** [const maxAttributes = 50; // Prevent attribute flooding]: declared at
    the top of [parseTagLine] and read nowhere in it. *)
Definition maxAttributes : Z := 50.

(* ================================================================== *)
(** * parseMultilineText and parseChildren *)
(* ================================================================== *)

(** [['br', 'hr', 'img', 'input', 'meta', 'link', 'source']], the list
    [parseChildren] looks the tag name up in. *)
Definition selfClosingNames : list str :=
  [lit "br"; lit "hr"; lit "img"; lit "input"; lit "meta"; lit "link";
   lit "source"].

(** [if (line.trim()) { lines.push(line.trim()); }] *)
Definition pushTrimmed (lines : list str) (ln : str) : list str :=
  match trim ln with
  | [] => lines
  | t => lines ++ [t]
  end.

(** The loop of [parseMultilineText(baseIndent)]; [lines] is the array
    filled so far. *)
Fixpoint multilineLoop (fuel : nat) (baseIndent : Z) (lines : list str)
  (p : Parser) : outcome (list str * Parser) :=
  match fuel with
  | O => Starved
  | S fuel' =>
      if atEnd p then Done (lines, p)
      else if peekIs NL p then
        '(_, p1) <- advance p ;;
        multilineLoop fuel' baseIndent lines p1
      else
        let indent := getIndentLevel p in
        if indent <=? baseIndent then Done (lines, p)
        else
          let '(ln, p2) := readLine (skipIndentation p) in
          p3 <- skipNewline p2 ;;
          multilineLoop fuel' baseIndent (pushTrimmed lines ln) p3
  end.

(** [parseMultilineText(baseIndent)] *)
Definition parseMultilineText (fuel : nat) (baseIndent : Z) (p : Parser)
  : outcome (str * Parser) :=
  '(lines, p') <- multilineLoop fuel baseIndent [] p ;;
  Done (join [NL] lines, p').

(** The text of a line that starts with ['|']. *)
Definition parsePipeLine (fuel : nat) (currentIndent : Z) (ln : str)
  (p : Parser) : outcome (str * Parser) :=
  match ln with
  | _ :: second :: _ =>
      if N.eqb second SPACE
      then Done (stripQuotes (trim (substring 2 ln)), p)
      else Done (stripQuotes (trim (substring 1 ln)), p)
  | [_] => parseMultilineText fuel currentIndent p
  | [] => Done (stripQuotes (trim (substring 1 ln)), p)
  end.

(** The children a tag line gets from its own inline content. *)
Definition parseInlineContent (fuel : nat) (currentIndent : Z)
  (content : option str) (p : Parser) : outcome (list ASTNode * Parser) :=
  match content with
  | Some c =>
      if str_eqb c [PIPE] then
        p1 <- skipNewline p ;;
        if getIndentLevel p1 >? currentIndent then
          '(multilineContent, p2) <- parseMultilineText fuel currentIndent p1 ;;
          Done ([TextNode multilineContent], p2)
        else Done ([], p1)
      else
        match c with
        | [] => Done ([], p)
        | _ :: _ => Done ([TextNode (stripQuotes c)], p)
        end
  | None => Done ([], p)
  end.

(** One line of [parseChildren], from the trimmed non-empty [ln] to the
    node it pushes. [parseDeeper] is the recursive call
    [this.parseChildren(currentIndent)]. *)
Definition parseLine (fuel : nat)
  (parseDeeper : Z -> Parser -> outcome (list ASTNode * Parser))
  (currentIndent : Z) (ln : str) (p : Parser) : outcome (ASTNode * Parser) :=
  if startsWith (lit "!DOCTYPE ") ln then
    Done (DoctypeNode (trim (substring 9 ln)), p)
  else if startsWith [PIPE] ln then
    '(textContent, p1) <- parsePipeLine fuel currentIndent ln p ;;
    Done (TextNode textContent, p1)
  else if match ln with c :: _ => isLetter c | [] => false end then
    parsed <- parseTagLine p ln ;;
    '(inlineChildren, p1) <-
      parseInlineContent fuel currentIndent (Parsed.content parsed) p ;;
    p2 <- skipNewline p1 ;;
    '(deeper, p3) <-
      (if atEnd p2 then Done ([], p2)
       else if getIndentLevel p2 >? currentIndent
            then parseDeeper currentIndent p2
            else Done ([], p2)) ;;
    Done (TagNode (Parsed.name parsed) (Parsed.classes parsed)
                  (Parsed.id parsed) (Parsed.attributes parsed)
                  (inlineChildren ++ deeper)
                  (includesStr selfClosingNames (Parsed.name parsed)),
          p3)
  else Done (TextNode ln, p).

(** The loop of [parseChildren(parentIndent)]; [children] is the array
    filled so far. *)
Fixpoint childrenLoop (fuel : nat) (parentIndent : Z)
  (children : list ASTNode) (p : Parser) {struct fuel}
  : outcome (list ASTNode * Parser) :=
  match fuel with
  | O => Starved
  | S fuel' =>
      if atEnd p then Done (children, p)
      else if peekIs NL p then
        '(_, p1) <- advance p ;;
        childrenLoop fuel' parentIndent children p1
      else
        let currentIndent := getIndentLevel p in
        if currentIndent <=? parentIndent then Done (children, p)
        else
          let '(raw, p2) := readLine (skipIndentation p) in
          match trim raw with
          | [] =>
              p3 <- skipNewline p2 ;;
              childrenLoop fuel' parentIndent children p3
          | ln =>
              '(node, p3) <-
                parseLine fuel'
                  (fun indent q => childrenLoop fuel' indent [] q)
                  currentIndent ln p2 ;;
              p4 <- skipNewline p3 ;;
              childrenLoop fuel' parentIndent (children ++ [node]) p4
          end
  end.

(** [parseChildren(parentIndent)] *)
Definition parseChildren (fuel : nat) (parentIndent : Z) (p : Parser)
  : outcome (list ASTNode * Parser) :=
  childrenLoop fuel parentIndent [] p.

(** [parse()]: every round of a loop reads at least one character, so one
    unit of fuel per character of the input, and one more, is enough. *)
Definition parse (p : Parser) : outcome (list ASTNode) :=
  '(nodes, _) <- parseChildren (S (length (rest p))) (-1) p ;;
  Done nodes.

(** [new TinyHTMLParser(input).parse()] *)
Definition parseSource (input : str) : outcome (list ASTNode) :=
  p <- constructor input ;; parse p.

(* ================================================================== *)
(** * The generator (generator.ts) *)
(* ================================================================== *)

Inductive IndentType : Type := spaces | tabs.

(** [GeneratorOptions]: every property is optional, [None] is
    [undefined]. [prettierOptions] only travels to the external formatter
    and is left out. *)
Record GeneratorOptions : Type := mkOptions {
  indentSize : option number;
  indentType : option IndentType;
  preserveWhitespace : option bool;
  minify : option bool;
  usePrettier : option bool
}.

(** [Partial<GeneratorOptions>] as an object: a property is absent
    ([None]) or present with a value, which may be [undefined]
    ([Some None]). *)
Record PartialOptions : Type := mkPartial {
  given_indentSize : option (option number);
  given_indentType : option (option IndentType);
  given_preserveWhitespace : option (option bool);
  given_minify : option (option bool);
  given_usePrettier : option (option bool)
}.

Definition noOptions : PartialOptions := mkPartial None None None None None.

(** One property of [{ ...base, ...over }]. *)
Definition spread {A : Type} (base : option A) (over : option (option A))
  : option A :=
  match over with
  | Some v => v
  | None => base
  end.

(** [{ ...base, ...over }] *)
Definition mergeOptions (base : GeneratorOptions) (over : PartialOptions)
  : GeneratorOptions :=
  mkOptions (spread (indentSize base) (given_indentSize over))
            (spread (indentType base) (given_indentType over))
            (spread (preserveWhitespace base) (given_preserveWhitespace over))
            (spread (minify base) (given_minify over))
            (spread (usePrettier base) (given_usePrettier over)).

Definition defaultOptions : GeneratorOptions :=
  mkOptions (Some (Finite 2)) (Some spaces) (Some false) (Some false) (Some true).

(** The fields of [HTMLGenerator]. *)
Record Generator : Type := mkGenerator {
  indentLevel : Z;
  options : GeneratorOptions;
  currentParentTag : str;
  disposed : bool;
  outputBuffer : list str
}.

(** [constructor(options: GeneratorOptions = {})] *)
Definition newGenerator (given : PartialOptions) : Generator :=
  mkGenerator 0 (mergeOptions defaultOptions given) [] false [].

(** A boolean option read in a condition: [undefined] is falsy. *)
Definition truthy (b : option bool) : bool :=
  match b with Some true => true | _ => false end.

Definition minifying (g : Generator) : bool := truthy (minify (options g)).

(** [this.outputBuffer.push(...pieces)] *)
Definition push (pieces : list str) (g : Generator) : Generator :=
  mkGenerator (indentLevel g) (options g) (currentParentTag g) (disposed g)
              (outputBuffer g ++ pieces).

Definition setIndentLevel (n : Z) (g : Generator) : Generator :=
  mkGenerator n (options g) (currentParentTag g) (disposed g) (outputBuffer g).

Definition setCurrentParentTag (t : str) (g : Generator) : Generator :=
  mkGenerator (indentLevel g) (options g) t (disposed g) (outputBuffer g).

(** A method of the generator reads and changes the fields of the object
    and then returns or throws; the fields are as the method left them in
    both cases, since nothing in generator.ts catches an exception or
    restores a field in a [finally]. *)
Definition Method (A : Type) : Type := Generator -> outcome A * Generator.

(** [m; k]: when [m] throws, [k] does not run. *)
Definition andThen {A B : Type} (m : Method A) (k : A -> Method B)
  : Method B :=
  fun g =>
    match m g with
    | (Done a, g1) => k a g1
    | (Raise e, g1) => (Raise e, g1)
    | (Starved, g1) => (Starved, g1)
    end.

(** [this.options.indentSize || 2] *)
Definition indentSizeOr2 (o : GeneratorOptions) : number :=
  match indentSize o with
  | Some n => if truthyNumber n then n else Finite 2
  | None => Finite 2
  end.

(** [get indentString()]; [repeat] may throw. *)
Definition indentString (g : Generator) : outcome str :=
  if minifying g then Done []
  else
    let size := indentSizeOr2 (options g) in
    match indentType (options g) with
    | Some tabs => repeatString TAB (Finite (inject_Z (indentLevel g)))
    | _ => repeatString SPACE (timesInteger (indentLevel g) size)
    end.

(** [get newLine()] *)
Definition newLine (g : Generator) : str := if minifying g then [] else [NL].

(** [indent()] *)
Definition indent (g : Generator) : outcome str :=
  if minifying g then Done [] else indentString g.

(** [this.outputBuffer.push(this.indent(), ...pieces)]: the arguments are
    evaluated before the call, so nothing is pushed when [indent()]
    throws. *)
Definition pushIndented (pieces : list str) : Method unit :=
  fun g =>
    match indent g with
    | Done s => (Done tt, push (s :: pieces) g)
    | Raise e => (Raise e, g)
    | Starved => (Starved, g)
    end.

(** [text.replace(/c/g, by)] for a one-character pattern. *)
Definition replaceAll (c : char) (by_ : str) (text : str) : str :=
  flat_map (fun x => if N.eqb x c then by_ else [x]) text.

(** [escapeHtml(text)]: four replacements, one after the other. *)
Definition escapeHtml (text : str) : str :=
  replaceAll DQUOTE (lit "&quot;")
    (replaceAll GT (lit "&gt;")
      (replaceAll LT (lit "&lt;")
        (replaceAll AMP (lit "&amp;") text))).

(** [escapeAttributeValue(text)] *)
Definition escapeAttributeValue (text : str) : str :=
  replaceAll DQUOTE (lit "&quot;")
    (replaceAll GT (lit "&gt;")
      (replaceAll LT (lit "&lt;")
        (replaceAll AMP (lit "&amp;") text))).

(** [attr.value.toString()] *)
Definition valueToString (v : AttrValue) : str :=
  match v with
  | StringValue s => s
  | BoolValue true => lit "true"
  | BoolValue false => lit "false"
  end.

(** [generateAttributes(attributes, classes, id)] *)
Definition generateAttributes (attributes : list Attribute)
  (classes : list str) (id : option str) : str :=
  let classAttr :=
    match classes with
    | [] => []
    | _ :: _ => [lit "class=" ++ [DQUOTE] ++ join [SPACE] classes ++ [DQUOTE]]
    end in
  let idAttr :=
    match id with
    | Some (c :: i) => [lit "id=" ++ [DQUOTE] ++ (c :: i) ++ [DQUOTE]]
    | _ => []
    end in
  let others :=
    map (fun attr : Attribute =>
           match snd attr with
           | BoolValue true => fst attr
           | v => fst attr ++ lit "=" ++ [DQUOTE]
                  ++ escapeAttributeValue (valueToString v) ++ [DQUOTE]
           end) attributes in
  match classAttr ++ idAttr ++ others with
  | [] => []
  | attrs => SPACE :: join [SPACE] attrs
  end.

(** [generateDoctype(node)] *)
Definition generateDoctype (doctype : str) (g : Generator) : Generator :=
  push [lit "<!DOCTYPE " ++ doctype ++ lit ">"] g.

(** [!['script', 'style'].includes(tag.toLowerCase())] *)
Definition shouldEscape (tag : str) : bool :=
  negb (includesStr [lit "script"; lit "style"] (toLowerCase tag)).

(** The [for] loop of [generateText] over [lines], from index [i];
    [count] is [lines.length]. *)
Fixpoint generateTextLines (escape : bool) (count i : Z) (lines : list str)
  : Method unit :=
  fun g =>
    match lines with
    | [] => (Done tt, g)
    | l :: more =>
        let trimmedLine := trim l in
        match trimmedLine with
        | [] => generateTextLines escape count (i + 1) more g
        | _ :: _ =>
            let text := if escape then escapeHtml trimmedLine
                        else trimmedLine in
            andThen
              (if (i =? 0) && (indentLevel g =? 0)
               then fun g0 => (Done tt, push [text] g0)
               else pushIndented [text])
              (fun _ g1 =>
                 let g2 := if i <? count - 1 then push [newLine g1] g1
                           else g1 in
                 generateTextLines escape count (i + 1) more g2)
              g
        end
    end.

(** [generateText(node)] *)
Definition generateText (content : str) : Method unit :=
  fun g =>
    let lines := splitLines content in
    let escape := shouldEscape (currentParentTag g) in
    let whole := if escape then escapeHtml (trim content) else trim content in
    if minifying g then (Done tt, push [whole] g)
    else
      match lines with
      | [_] => pushIndented [whole] g
      | _ => generateTextLines escape (Z.of_nat (length lines)) 0 lines g
      end.

(** One round of [for (const child of node.children)] in [generateTag],
    around the call [generateNode(child)]: when the child throws,
    [currentParentTag] is left at [tagName]. *)
Definition aroundChild (tagName : str) (generateChild : Method unit)
  : Method unit :=
  fun g =>
    let previousParent := currentParentTag g in
    andThen generateChild
      (fun _ g1 =>
         let g2 := setCurrentParentTag previousParent g1 in
         (Done tt, if minifying g2 then g2 else push [newLine g2] g2))
      (setCurrentParentTag tagName g).

(** The text of a lone text child as [generateTag] prepares it. *)
Definition processedText (tagName textContent : str) : str :=
  if shouldEscape tagName then escapeHtml textContent else trim textContent.

(** [processedText.length < 80 && !processedText.includes('\n')] *)
Definition fitsInline (processed : str) : bool :=
  (jsLength processed <? 80) && negb (includesChar NL processed).

(** The opening of the block form, up to the children. *)
Definition openBlock (tagName attrs : str) : Method unit :=
  andThen (pushIndented [lit "<"; tagName; attrs; lit ">"])
    (fun _ g1 =>
       (Done tt,
        if minifying g1 then g1
        else setIndentLevel (indentLevel g1 + 1) (push [newLine g1] g1))).

(** The end of the block form, after the children: the level goes down
    before [indent()] is called. *)
Definition closeBlock (tagName : str) : Method unit :=
  fun g =>
    let g1 := if minifying g then g else setIndentLevel (indentLevel g - 1) g in
    pushIndented [lit "</"; tagName; lit ">"] g1.

(** The loop [for (const child of node.children)] of [generateTag]. *)
Definition eachChild (tagName : str) (generateChild : ASTNode -> Method unit)
  : list ASTNode -> Method unit :=
  fix loop (children : list ASTNode) : Method unit :=
    match children with
    | [] => fun g => (Done tt, g)
    | child :: more =>
        andThen (aroundChild tagName (generateChild child)) (fun _ => loop more)
    end.

(** [generateNode(node)], with [generateTag] in the tag case. *)
Fixpoint generateNode (node : ASTNode) {struct node} : Method unit :=
  match node with
  | DoctypeNode doctype => fun g => (Done tt, generateDoctype doctype g)
  | TextNode content => generateText content
  | TagNode tagName classes id attributes children selfClosing =>
      let attrs := generateAttributes attributes classes id in
      let block :=
        andThen (openBlock tagName attrs)
          (fun _ =>
             andThen (eachChild tagName generateNode children)
               (fun _ => closeBlock tagName)) in
      if selfClosing then
        pushIndented [lit "<"; tagName; attrs; lit " />"]
      else
        match children with
        | [] =>
            pushIndented [lit "<"; tagName; attrs; lit "></"; tagName;
                          lit ">"]
        | [TextNode textContent] =>
            let processed := processedText tagName textContent in
            if fitsInline processed then
              pushIndented [lit "<"; tagName; attrs; lit ">"; processed;
                            lit "</"; tagName; lit ">"]
            else block
        | _ => block
        end
  end.

(** [generateTag(node)] *)
Definition generateTag (tagName : str) (classes : list str) (id : option str)
  (attributes : list Attribute) (children : list ASTNode) (selfClosing : bool)
  : Method unit :=
  generateNode (TagNode tagName classes id attributes children selfClosing).

(** The loop of [generate] over the forest. *)
Fixpoint generateAll (ast : list ASTNode) : Method unit :=
  match ast with
  | [] => fun g => (Done tt, g)
  | node :: more =>
      andThen (generateNode node)
        (fun _ g1 =>
           generateAll more (if minifying g1 then g1 else push [newLine g1] g1))
  end.

(** What [generate] does with the joined buffer before it returns it: in
    minify mode nothing; otherwise the text goes to the external
    pretty-printer (with [formatHTML] when that fails) or to [formatHTML].
    Neither formatter is part of the embedding. *)
Inductive Formatting : Type :=
| AsJoined
| ThroughPrettier
| ThroughFormatHTML.

Record Generated : Type := mkGenerated {
  joined : str;
  formatting : Formatting
}.

(** [generate(ast, options?)]: how the promise settles, and the object
    afterwards. [currentParentTag] is not set anew, and when a node throws
    the buffer is not cleared. *)
Definition generate (ast : list ASTNode) (given : option PartialOptions)
  (g : Generator) : outcome Generated * Generator :=
  if disposed g then (Raise GeneratorDisposed, g)
  else
    let opts := match given with
                | Some o => mergeOptions (options g) o
                | None => options g
                end in
    let g1 := mkGenerator 0 opts (currentParentTag g) (disposed g) [] in
    match generateAll ast g1 with
    | (Done _, g2) =>
        let html := concat (outputBuffer g2) in
        let how := if truthy (usePrettier (options g2)) && negb (minifying g2)
                   then ThroughPrettier
                   else if negb (minifying g2) then ThroughFormatHTML
                   else AsJoined in
        (Done (mkGenerated html how),
         mkGenerator (indentLevel g2) (options g2) (currentParentTag g2)
                     (disposed g2) [])
    | (Raise e, g2) => (Raise e, g2)
    | (Starved, g2) => (Starved, g2)
    end.
(* ================================================================== *)
(** * Notions of the specification *)
(* ================================================================== *)

(** The measure the specification speaks of, which the source never
    computes: the number of bytes of the text in UTF-8 (section 6: "a
    single text value, UTF-8, at most 10 MiB"). A surrogate pair is one
    4-byte sequence; a lone surrogate is written as U+FFFD, 3 bytes. *)
Definition isHighSurrogate (c : char) : bool := (inRange 55296 56319 c)%N.
Definition isLowSurrogate (c : char) : bool := (inRange 56320 57343 c)%N.

Fixpoint spec_byteLength (s : str) : Z :=
  match s with
  | [] => 0
  | c :: s' =>
      if (c <? 128)%N then 1 + spec_byteLength s'
      else if (c <? 2048)%N then 2 + spec_byteLength s'
      else if isHighSurrogate c then
        match s' with
        | d :: s'' =>
            if isLowSurrogate d then 4 + spec_byteLength s''
            else 3 + spec_byteLength s'
        | [] => 3
        end
      else 3 + spec_byteLength s'
  end.

(** The escaping the specification describes, character by character:
    each of [&], [<], [>] and the double quote becomes its entity, every
    other character stays. *)
Definition spec_escapeChar (c : char) : str :=
  if N.eqb c AMP then lit "&amp;"
  else if N.eqb c LT then lit "&lt;"
  else if N.eqb c GT then lit "&gt;"
  else if N.eqb c DQUOTE then lit "&quot;"
  else [c].

(** The lines of a text joined by newlines again. *)
Definition unlines (ls : list str) : str := join [NL] ls.

(** Lines hold no newline. *)
Definition NLfree (ls : list str) : Prop := Forall (fun l => ~ In NL l) ls.

(** [s.length > 0] *)
Definition nonEmpty (s : str) : bool :=
  match s with [] => false | _ :: _ => true end.

(** A blank line: nothing on it, or white space only. *)
Definition isBlankLine (l : str) : bool := negb (nonEmpty (trim l)).

(** The indentation of a line, as the specification measures it: the
    run of leading space characters (section 4.1: tabs are not
    counted). *)
Definition spec_indentation (l : str) : Z := countSpaces l.

(** The rule of the specification for the lines after a line at
    indentation [k]: blank lines are passed over, and a line that is not
    blank belongs to the block when its indentation is strictly greater
    than [k]; the first line that is not blank and not indented deeper
    ends the block. *)
Definition spec_inBlock (k : Z) (l : str) : bool :=
  isBlankLine l || (k <? spec_indentation l).

(** The lines of a multiline block as the specification describes them:
    the lines of the block, each trimmed, the blank ones dropped. *)
Definition spec_blockLines (k : Z) (ls : list str) : list str :=
  filter nonEmpty (map trim (takeWhile (spec_inBlock k) ls)).

(** The lines of a text that are not blank, the only ones the
    specification looks at. *)
Definition nonBlankLines (s : str) : list str :=
  filter (fun l => negb (isBlankLine l)) (splitLines s).

(** Text under a parent is emitted unescaped when the name of the parent
    is script or style, in any letter case. *)
Definition spec_rawUnder (parent : str) : bool :=
  str_eqb (toLowerCase parent) (lit "script")
  || str_eqb (toLowerCase parent) (lit "style").

(** A text as it is emitted under a parent: as it is under script or
    style, with each character escaped under any other parent. *)
Definition spec_emit (parent : str) (s : str) : str :=
  if spec_rawUnder parent then s else flat_map spec_escapeChar s.

(** A text of several lines (section 4.2: split on newline, each
    non-blank line trimmed and indented individually, separated by
    newlines): each line that is not blank is trimmed and put after the
    indentation [ind], and a newline follows it unless it is the last
    line of the text; a blank line gives nothing. *)
Fixpoint spec_emitLines (parent ind : str) (lines : list str) : str :=
  match lines with
  | [] => []
  | l :: more =>
      (if isBlankLine l then []
       else ind ++ spec_emit parent (trim l)
            ++ match more with [] => [] | _ :: _ => [NL] end)
      ++ spec_emitLines parent ind more
  end.

(** What a text node gives under a parent: when minifying, the trimmed
    content; otherwise, after the indentation, the trimmed content when
    it has no newline, and its lines one by one when it has. *)
Definition spec_text (parent : str) (minify : bool) (ind content : str)
  : str :=
  if minify then spec_emit parent (trim content)
  else if includesChar NL content
       then spec_emitLines parent ind (splitLines content)
       else ind ++ spec_emit parent (trim content).

(** A text emitted verbatim: [needle] stands somewhere in [hay],
    character for character. *)
Fixpoint occursIn (needle hay : str) : bool :=
  startsWith needle hay
  || match hay with
     | [] => false
     | _ :: hay' => occursIn needle hay'
     end.

(** In every tag of the tree, [selfClosing] is the membership of the name
    in the list of self-closing names. *)
Fixpoint selfClosingByName (node : ASTNode) : Prop :=
  match node with
  | TagNode name _ _ _ children selfClosing =>
      (selfClosing = true <-> In name selfClosingNames) /\
      (fix all (cs : list ASTNode) : Prop :=
         match cs with
         | [] => True
         | c :: cs' => selfClosingByName c /\ all cs'
         end) children
  | _ => True
  end.

(** An attribute as it is written in a block: a name, or the name, [=]
    and an unquoted value. *)
Definition Entry : Type := (str * option str)%type.

Definition renderEntry (e : Entry) : str :=
  match snd e with
  | None => fst e
  | Some v => fst e ++ [EQUALS] ++ v
  end.

Definition renderEntries (es : list Entry) : str :=
  join [SPACE] (map renderEntry es).

Definition entryAttribute (e : Entry) : Attribute :=
  match snd e with
  | None => (fst e, BoolValue true)
  | Some v => (fst e, StringValue v)
  end.

(** A non-empty run of identifier characters. *)
Definition isIdentifier (s : str) : Prop :=
  s <> [] /\ Forall (fun c => isIdentChar c = true) s.

(** An unquoted value: one or more characters other than the space, the
    tab and the closing bracket, the first of them not a quote. *)
Definition isUnquotedValue (v : str) : Prop :=
  Forall (fun c => isUnquotedChar c = true) v /\
  match v with
  | q :: _ => q <> DQUOTE /\ q <> SQUOTE
  | [] => False
  end.

Definition wellFormedEntry (e : Entry) : Prop :=
  isIdentifier (fst e) /\
  match snd e with
  | None => True
  | Some v => isUnquotedValue v
  end.

(* ================================================================== *)
(** * Notions of the proofs *)
(* ================================================================== *)

(** [g'] is [g] after some pushes: same options, parent tag, flag and
    indentation level, and a longer buffer. *)
Definition grows (g g' : Generator) : Prop :=
  options g' = options g /\ currentParentTag g' = currentParentTag g /\
  disposed g' = disposed g /\ indentLevel g' = indentLevel g /\
  exists pieces, outputBuffer g' = outputBuffer g ++ pieces.

(** [g'] is [g] after some pushes and changes of the indentation level
    and of the parent tag: same options and flag, and a longer buffer. *)
Definition extends (g g' : Generator) : Prop :=
  options g' = options g /\ disposed g' = disposed g /\
  exists pieces, outputBuffer g' = outputBuffer g ++ pieces.

(** A run that only pushes: whatever the outcome, the options and the
    flag are as before and the buffer is longer; on return, the parent
    tag and the indentation level are as before as well. *)
Definition keeps (g : Generator) (r : outcome unit * Generator) : Prop :=
  extends g (snd r) /\ (forall u, fst r = Done u -> grows g (snd r)).

(** The indentation can be built at the level of [g] and at every deeper
    one: [repeat] does not throw. *)
Definition calm (g : Generator) : Prop :=
  forall level, indentLevel g <= level ->
                exists s, indent (setIndentLevel level g) = Done s.

(** The indentation at the level of [g]; nothing when it cannot be
    built. *)
Definition indentation (g : Generator) : str :=
  match indent g with
  | Done s => s
  | _ => []
  end.

(** [g] one level deeper. *)
Definition deeper (g : Generator) : Generator :=
  setIndentLevel (indentLevel g + 1) g.

(** The lines the loops of [parseMultilineText] (l.311-321) and of
    [parseChildren] (l.346-356) go past, at base indentation [k]: a line
    of length zero, which the loop skips at [peek() === '\n'] before it
    measures anything, and any other line with more than [k] leading
    spaces; the loop breaks at the first line of another kind. This is
    the rule of the code, not that of the specification
    ([spec_inBlock]): a line of white space only counts here by its leading
    spaces. *)
Definition loopTakes (k : Z) (l : str) : bool :=
  match l with
  | [] => true
  | _ :: _ => k <? countSpaces l
  end.

(** What the loop of [parseMultilineText] keeps of the lines [ls]: the
    lines it goes past, each trimmed, those that trim to nothing
    dropped. *)
Definition takenLines (k : Z) (ls : list str) : list str :=
  filter nonEmpty (map trim (takeWhile (loopTakes k) ls)).

(** [Y] is what is left of the lines [X] after some lines that a
    collector at indentation [k] takes. *)
Definition advanced (k : Z) (X Y : list str) : Prop :=
  exists pre, X = pre ++ Y /\ Forall (fun l => loopTakes k l = true) pre.

(** The children a tag line has from its own line: the inline text, and
    nothing for the multiline marker or an empty content. *)
Definition ownLineChildren (content : option str) : list ASTNode :=
  match content with
  | Some c =>
      if str_eqb c [PIPE] then []
      else match c with
           | [] => []
           | _ :: _ => [TextNode (stripQuotes c)]
           end
  | None => []
  end.

(** What may follow an entry: the end of the line, the closing bracket,
    or a space. *)
Definition atBoundary (r : str) : Prop :=
  match r with
  | [] => True
  | c :: _ => c = SPACE \/ c = RBRACKET
  end.

(** The text after an entry when [es] are the entries that follow it and
    [tail] ends the block. *)
Definition afterEntry (es : list Entry) (tail : str) : str :=
  match es with
  | [] => tail
  | _ :: _ => SPACE :: renderEntries es ++ tail
  end.

(** How a block of entries ends: with the line, or at a closing
    bracket. *)
Definition blockEnd (tail : str) : Prop :=
  tail = [] \/ exists x, tail = RBRACKET :: x.

(* ================================================================== *)
(** * Inputs of the examples *)
(* ================================================================== *)

(** An input of 6 Mi copies of U+00E9: 12 MiB of UTF-8. *)
Definition sixMebi : nat := Z.to_nat (6 * 1024 * 1024).
Definition sixMebiEAcute : str := repeat 233%N sixMebi.

(** Sixteen ampersands, 80 characters once escaped; and 80 spaces before
    an [x], one character once trimmed. *)
Definition sixteenAmpersands : str := repeat AMP 16.
Definition paddedX : str := repeat SPACE 80 ++ lit "x".

(** The options [{ minify: true }], and two paragraphs to render. *)
Definition onlyMinify : PartialOptions :=
  mkPartial None None None (Some (Some true)) None.
Definition twoParagraphs : list ASTNode :=
  [TagNode (lit "p") [] None [] [TextNode (lit "a")] false;
   TagNode (lit "p") [] None [] [TextNode (lit "b")] false].

(** Plain nodes, and their rendering by a fresh generator. *)
Definition text (s : string) : ASTNode := TextNode (lit s).
Definition tag (s : string) (children : list ASTNode) : ASTNode :=
  TagNode (lit s) [] None [] children false.
Definition render (node : ASTNode) : str :=
  concat (outputBuffer (snd (generateNode node (newGenerator noOptions)))).

(** A text of three lines: a line, a blank line, and a line after four
    spaces. *)
Definition scriptLines : str :=
  lit "if (a < b)" ++ [NL] ++ [NL] ++ lit "    go();".

(** The options [{ indentSize: -1 }] and [{ indentSize: 2 }]. *)
Definition negativeStep : PartialOptions :=
  mkPartial (Some (Some (Finite (-1)))) None None None None.
Definition stepOfTwo : PartialOptions :=
  mkPartial (Some (Some (Finite 2))) None None None None.

(** The parser at the end of a line [  |] (column 4), in front of a
    block: an indented line, an empty line, a line of spaces, a second
    indented line, and a line at the indentation of the pipe. *)
Definition blockExample : Parser :=
  mkParser ([NL] ++ lit "    first  " ++ [NL] ++ [NL] ++ lit "      " ++ [NL]
            ++ lit "   second" ++ [NL] ++ lit "  third" ++ [NL] ++ lit "last")
           1 4.

(** A bare pipe at indentation 2 with two lines under it; and the same
    text with a line of two spaces between the two lines. *)
Definition pipeBlock : str :=
  lit "div" ++ [NL] ++ lit "  |" ++ [NL] ++ lit "    first" ++ [NL]
  ++ lit "    second".
Definition pipeBlockWithBlankLine : str :=
  lit "div" ++ [NL] ++ lit "  |" ++ [NL] ++ lit "    first" ++ [NL]
  ++ lit "  " ++ [NL] ++ lit "    second".

(** A tag at indentation 2 with two tags under it; and the same text with
    a line of two spaces between the two. *)
Definition nestedTags : str :=
  lit "a" ++ [NL] ++ lit "  b" ++ [NL] ++ lit "    c" ++ [NL] ++ lit "    d".
Definition nestedTagsWithBlankLine : str :=
  lit "a" ++ [NL] ++ lit "  b" ++ [NL] ++ lit "    c" ++ [NL]
  ++ lit "  " ++ [NL] ++ lit "    d".

(** A text with Windows line ends: a tag, a child, a blank line and a
    second line at the indentation of the child. *)
Definition windowsText : str :=
  lit "div" ++ [13%N; NL] ++ lit "  p: a" ++ [13%N; NL] ++ [13%N; NL]
  ++ lit "  p: b".

(** The 51 one-letter names [a] ... [z], [A] ... [Y]. *)
Definition fiftyOneNames : list str :=
  map (fun n => [N.of_nat n]) (seq 97 26 ++ seq 65 25).

(** The tag line [t[a b c ... X Y]] with these 51 attributes. *)
Definition fiftyOneAttributes : str :=
  lit "t[" ++ join [SPACE] fiftyOneNames ++ lit "]".

(** An identifier of 101 letters [a]. *)
Definition longIdentifier : str := repeat 97%N 101.

(** The entries [href=/x.html hidden]. *)
Definition twoEntries : list Entry :=
  [(lit "href", Some (lit "/x.html")); (lit "hidden", None)].

(* ================================================================== *)
(** * The cache of compiled files (cache.ts) *)
(* ================================================================== *)

(** [LRUCache<K, V>]. The clock is a parameter: every method that reads
    [Date.now()] takes the value it reads as [now]; it is an integer
    number of milliseconds. The keys are compared in two ways: [Map]
    compares them with SameValueZero, which is [keyEq], and
    [Array.prototype.indexOf] with [===], which is [strictEq]: the two
    agree on every key but NaN, which SameValueZero finds equal to itself
    and [===] does not; [isNaN] tells the key that is NaN. [this.cache]
    is a [Map], which keeps its entries in insertion order: a list of
    bindings with the operations of [Map] on it. [capacity] is any
    number. [ttl] is an integer: with an integer clock,
    [now - timestamp > ttl] for a fractional [ttl] is the test for its
    integer part, and an infinite or NaN [ttl], with which no entry ever
    expires, is left out. [getStats] measures [JSON.stringify] of the
    values and is left out. *)
Module LRUCache.
Section Cache.
Variables K V : Type.
Variable keyEq : K -> K -> bool.
Variable isNaN : K -> bool.

(** [a === b] on keys. *)
Definition strictEq (a b : K) : bool := keyEq a b && negb (isNaN a).

(** [{ value: V; timestamp: number; mtime?: number }] *)
Record Entry : Type := mkEntry {
  value : V;
  timestamp : Z;
  mtime : option Z
}.

Record t : Type := mk {
  capacity : number;
  ttl : Z;
  cache : list (K * Entry);
  accessOrder : list K
}.

(** [constructor(capacity, ttl)] *)
Definition new (capacity : number) (ttl : Z) : t := mk capacity ttl [] [].

(** [Map.prototype.get] *)
Fixpoint mapGet (key : K) (m : list (K * Entry)) : option Entry :=
  match m with
  | [] => None
  | (k, e) :: m' => if keyEq key k then Some e else mapGet key m'
  end.

(** [Map.prototype.has] *)
Definition mapHas (key : K) (m : list (K * Entry)) : bool :=
  match mapGet key m with Some _ => true | None => false end.

(** [Map.prototype.set]: a key that is there keeps its place, a new key
    goes to the end. *)
Fixpoint mapSet (key : K) (e : Entry) (m : list (K * Entry))
  : list (K * Entry) :=
  match m with
  | [] => [(key, e)]
  | (k, e') :: m' =>
      if keyEq key k then (k, e) :: m' else (k, e') :: mapSet key e m'
  end.

(** [Map.prototype.delete], without its result. *)
Fixpoint mapDelete (key : K) (m : list (K * Entry)) : list (K * Entry) :=
  match m with
  | [] => []
  | (k, e) :: m' => if keyEq key k then m' else (k, e) :: mapDelete key m'
  end.

(** [const index = order.indexOf(key);
     if (index > -1) { order.splice(index, 1); }] *)
Fixpoint removeKey (key : K) (order : list K) : list K :=
  match order with
  | [] => []
  | k :: order' =>
      if strictEq k key then order' else k :: removeKey key order'
  end.

(** [order.indexOf(key) > -1] *)
Definition inOrder (key : K) (order : list K) : bool :=
  existsb (fun k => strictEq k key) order.

(** [Date.now() - entry.timestamp > this.ttl] *)
Definition expired (now : Z) (c : t) (e : Entry) : bool :=
  now - timestamp e >? ttl c.

(** [delete(key)] *)
Definition delete (key : K) (c : t) : bool * t :=
  if mapHas key (cache c) then
    (true, mk (capacity c) (ttl c) (mapDelete key (cache c))
              (removeKey key (accessOrder c)))
  else (false, c).

(** [moveToEnd(key)] *)
Definition moveToEnd (key : K) (c : t) : t :=
  if inOrder key (accessOrder c) then
    mk (capacity c) (ttl c) (cache c) (removeKey key (accessOrder c) ++ [key])
  else c.

(** [evictLRU()] *)
Definition evictLRU (c : t) : t :=
  match accessOrder c with
  | [] => c
  | lruKey :: order' =>
      mk (capacity c) (ttl c) (mapDelete lruKey (cache c)) order'
  end.

(** [get(key)]; [None] is [undefined]. *)
Definition get (now : Z) (key : K) (c : t) : option V * t :=
  match mapGet key (cache c) with
  | None => (None, c)
  | Some entry =>
      if expired now c entry then (None, snd (delete key c))
      else (Some (value entry), moveToEnd key c)
  end.

(** [set(key, value, mtime?)] *)
Definition set (now : Z) (key : K) (v : V) (mt : option Z) (c : t) : t :=
  if mapHas key (cache c) then
    moveToEnd key
      (mk (capacity c) (ttl c) (mapSet key (mkEntry v now mt) (cache c))
          (accessOrder c))
  else
    let c1 := if geNumber (Z.of_nat (length (cache c))) (capacity c)
              then evictLRU c else c in
    mk (capacity c1) (ttl c1) (mapSet key (mkEntry v now mt) (cache c1))
       (accessOrder c1 ++ [key]).

(** [has(key)] *)
Definition has (now : Z) (key : K) (c : t) : bool * t :=
  match mapGet key (cache c) with
  | None => (false, c)
  | Some entry =>
      if expired now c entry then (false, snd (delete key c)) else (true, c)
  end.

(** [clear()] *)
Definition clear (c : t) : t := mk (capacity c) (ttl c) [] [].

(** [size()] *)
Definition size (c : t) : Z := Z.of_nat (length (cache c)).

(** [isValid(key, currentMtime)] *)
Definition isValid (now : Z) (key : K) (currentMtime : Z) (c : t) : bool * t :=
  match mapGet key (cache c) with
  | None => (false, c)
  | Some entry =>
      if expired now c entry then (false, snd (delete key c))
      else
        match mtime entry with
        | Some m =>
            if m <? currentMtime then (false, snd (delete key c))
            else (true, c)
        | None => (true, c)
        end
  end.

(** The loop of [cleanup()] over the entries of the map. An entry that
    the loop deletes is the one it stands on, so the entries still to
    come are those of the map as it was. *)
Fixpoint cleanupLoop (now : Z) (entries : list (K * Entry)) (cleaned : Z)
  (c : t) : Z * t :=
  match entries with
  | [] => (cleaned, c)
  | (key, entry) :: more =>
      if expired now c entry
      then cleanupLoop now more (cleaned + 1) (snd (delete key c))
      else cleanupLoop now more cleaned c
  end.

(** [cleanup()] *)
Definition cleanup (now : Z) (c : t) : Z * t := cleanupLoop now (cache c) 0 c.

(** The map and the access order in step: the map holds a key once, and
    the access order lists exactly the keys of the map, each once. *)
Definition wellFormed (c : t) : Prop :=
  NoDup (map fst (cache c)) /\ NoDup (accessOrder c) /\
  forall k, In k (accessOrder c) <-> In k (map fst (cache c)).

(** The state the methods keep as long as no key is NaN: the map and the
    access order in step, and no NaN among the keys. *)
Definition regular (c : t) : Prop :=
  wellFormed c /\ Forall (fun k => isNaN k = false) (accessOrder c).

End Cache.

Arguments strictEq {K} _ _ _ _.
Arguments mkEntry {V} _ _ _.
Arguments value {V} _.
Arguments timestamp {V} _.
Arguments mtime {V} _.
Arguments mk {K V} _ _ _ _.
Arguments capacity {K V} _.
Arguments ttl {K V} _.
Arguments cache {K V} _.
Arguments accessOrder {K V} _.
Arguments new {K V} _ _.
Arguments mapGet {K V} _ _ _.
Arguments mapHas {K V} _ _ _.
Arguments mapSet {K V} _ _ _ _.
Arguments mapDelete {K V} _ _ _.
Arguments removeKey {K} _ _ _ _.
Arguments inOrder {K} _ _ _ _.
Arguments expired {K V} _ _ _.
Arguments delete {K V} _ _ _ _.
Arguments moveToEnd {K V} _ _ _ _.
Arguments evictLRU {K V} _ _.
Arguments get {K V} _ _ _ _ _.
Arguments set {K V} _ _ _ _ _ _ _.
Arguments has {K V} _ _ _ _ _.
Arguments clear {K V} _.
Arguments size {K V} _.
Arguments isValid {K V} _ _ _ _ _ _.
Arguments cleanupLoop {K V} _ _ _ _ _ _.
Arguments cleanup {K V} _ _ _ _.
Arguments wellFormed {K V} _.
Arguments regular {K V} _ _.
End LRUCache.

(** The keys of the examples: numbers, NaN among them. *)
Inductive NumberKey : Type :=
| KeyNaN
| KeyNum (n : N).

(** SameValueZero on these keys. *)
Definition sameValueZero (a b : NumberKey) : bool :=
  match a, b with
  | KeyNaN, KeyNaN => true
  | KeyNum x, KeyNum y => N.eqb x y
  | _, _ => false
  end.

Definition keyIsNaN (k : NumberKey) : bool :=
  match k with KeyNaN => true | KeyNum _ => false end.

(** A cache of two places with numbers as keys, filled at times 0 and 10:
    key 1 (with a modification time) is the older entry, key 2 the
    newer one. *)
Definition cacheOfTwo : LRUCache.t NumberKey Z :=
  LRUCache.set sameValueZero keyIsNaN 10 (KeyNum 2) 200 None
    (LRUCache.set sameValueZero keyIsNaN 0 (KeyNum 1) 100 (Some 50)
       (LRUCache.new (Finite 2) 1000)).

(** A cache of one place after [set(NaN)], [delete(NaN)], [set(1)] and
    [set(2)]. *)
Definition cacheAfterNaN : LRUCache.t NumberKey Z :=
  LRUCache.set sameValueZero keyIsNaN 3 (KeyNum 2) 200 None
    (LRUCache.set sameValueZero keyIsNaN 2 (KeyNum 1) 100 None
       (snd (LRUCache.delete sameValueZero keyIsNaN KeyNaN
               (LRUCache.set sameValueZero keyIsNaN 0 KeyNaN 0 None
                  (LRUCache.new (Finite 1) 1000))))).
(* ================================================================== *)
(** * Notions of the proofs: the generator on a longer buffer *)
(* ================================================================== *)

(** The generator [g] with the pieces [base] in front of its buffer. *)
Definition rebase (base : list str) (g : Generator) : Generator :=
  mkGenerator (indentLevel g) (options g) (currentParentTag g) (disposed g)
              (base ++ outputBuffer g).

(** A run with the pieces [base] in front of the buffer it leaves. *)
Definition rebased (base : list str) (r : outcome unit * Generator)
  : outcome unit * Generator :=
  (fst r, rebase base (snd r)).

(** A text with a less-than sign, an ampersand and double quotes. *)
Definition markupText : str :=
  lit "a<b & " ++ [DQUOTE] ++ lit "c" ++ [DQUOTE].

(* ================================================================== *)
(** * Notions of the proofs: a tag line written out *)
(* ================================================================== *)

(** [/^[a-zA-Z0-9_-]*$/] *)
Definition identChars (s : str) : bool := forallb isIdentChar s.

(** A name that starts with a letter and goes on with identifier
    characters. *)
Definition properName (s : str) : bool :=
  match s with
  | c :: t => isLetter c && identChars t
  | [] => false
  end.

(** The body of a value between double quotes: a backslash goes before
    each double quote and each backslash of the value. *)
Definition escapeQuoted (v : str) : str :=
  flat_map (fun c => if N.eqb c DQUOTE || N.eqb c BACKSLASH
                     then [BACKSLASH; c] else [c]) v.

(** The name, [=], and the value between double quotes. *)
Definition writeAttribute (a : str * str) : str :=
  fst a ++ [EQUALS; DQUOTE] ++ escapeQuoted (snd a) ++ [DQUOTE].

Definition writeAttributes (attributes : list (str * str)) : str :=
  join [SPACE] (map writeAttribute attributes).

(** [.class] for each class. *)
Definition writeClasses (classes : list str) : str :=
  flat_map (fun c => DOT :: c) classes.

(** [#id], or nothing. *)
Definition writeId (id : option str) : str :=
  match id with
  | Some i => HASH :: i
  | None => []
  end.

(** [: text], or nothing. *)
Definition writeContent (content : option str) : str :=
  match content with
  | Some c => COLON :: SPACE :: c
  | None => []
  end.

(** A text that can stand as inline content as it is: trimmed, not
    empty, and not starting with a pipe or a double quote. *)
Definition plainContent (x : str) : Prop :=
  trim x = x /\
  match x with
  | d :: _ => d <> PIPE /\ d <> DQUOTE
  | [] => False
  end.

(** The line: the name, the classes, the id, one block of attributes
    with quoted values, and the inline text. *)
Definition writeTagLine (name : str) (classes : list str) (id : option str)
  (attributes : list (str * str)) (content : option str) : str :=
  name ++ writeClasses classes ++ writeId id
  ++ [LBRACKET] ++ writeAttributes attributes ++ [RBRACKET]
  ++ writeContent content.

(** The attribute the parser is to read from a written one. *)
Definition writtenAttribute (a : str * str) : Attribute :=
  (fst a, StringValue (snd a)).

(** A link with two classes, an id, a [href] that holds a double quote,
    a [title] that holds a space and a closing bracket, and a text. *)
Definition linkLine : str :=
  writeTagLine (lit "a") [lit "btn"; lit "big"] (Some (lit "go"))
    [(lit "href", lit "x" ++ [DQUOTE] ++ lit "y"); (lit "title", lit "a b]")]
    (Some (lit "Go on")).

(* ================================================================== *)
(** * Notions of the proofs: a document of tag lines *)
(* ================================================================== *)

(** The node [parseChildren] makes of a tag line with nothing nested
    under it: what [parseTagLine] returned, and the text of the line
    itself as the only child. *)
Definition tagOf (parsed : Parsed.t) : ASTNode :=
  TagNode (Parsed.name parsed) (Parsed.classes parsed) (Parsed.id parsed)
          (Parsed.attributes parsed)
          (ownLineChildren (Parsed.content parsed))
          (includesStr selfClosingNames (Parsed.name parsed)).

(** A line of a flat document: it starts with a letter, holds no newline
    and has no white space at its end. *)
Definition isTagLine (l : str) : bool :=
  match l with c :: _ => isLetter c | [] => false end
  && negb (includesChar NL l) && str_eqb (trim l) l.

(** Three lines: a link, a line break and a paragraph. *)
Definition threeLines : list str :=
  [linkLine; lit "br"; lit "p.note: Hello"].

(* ================================================================== *)
(** * Notions of the proofs: the names in a tree *)
(* ================================================================== *)

(** An attribute with a name of one or more identifier characters, and
    a value that is a string or [true]. *)
Definition properAttribute (a : Attribute) : bool :=
  nonEmpty (fst a) && identChars (fst a)
  && match snd a with BoolValue false => false | _ => true end.

(** In every tag of the tree: the name starts with a letter and goes on
    with identifier characters, the classes and the id hold identifier
    characters only, and the attributes are proper. *)
Fixpoint properNames (node : ASTNode) : bool :=
  match node with
  | TagNode name classes id attributes children _ =>
      properName name && forallb identChars classes
      && match id with Some i => identChars i | None => true end
      && forallb properAttribute attributes
      && forallb properNames children
  | _ => true
  end.

(** A document with markup characters in the places of names. *)
Definition hostileDocument : str :=
  lit "div.a<b#c: 1" ++ [NL] ++ lit "  img[on<load=1]" ++ [NL]
  ++ lit "  p#i[x=<y> z]>: t".

(* ================================================================== *)
(** * The logger (logger.ts) *)
(* ================================================================== *)

Module Logger.

(** [LogLevel] *)
Inductive LogLevel : Type := debug | info | warn | error | silent.

(** [{ level, message, timestamp, metadata }]; the metadata is any
    value. *)
Record LogEntry (M : Type) : Type := mkLogEntry {
  level : LogLevel;
  message : str;
  timestamp : Z;
  metadata : option M
}.
Arguments mkLogEntry {M} _ _ _ _.
Arguments level {M} _.

(** [['debug', 'info', 'warn', 'error'].indexOf(level)] *)
Definition indexOf (l : LogLevel) : Z :=
  match l with
  | debug => 0
  | info => 1
  | warn => 2
  | error => 3
  | silent => -1
  end.

(** [ProductionLogger.shouldLog(level)], for a logger of level
    [configured]. *)
Definition shouldLog (configured l : LogLevel) : bool :=
  match configured with
  | silent => false
  | _ => indexOf l >=? indexOf configured
  end.

(** What [createLogger] returns: a [SilentLogger], or a
    [ProductionLogger] with its level. The function [logFn] the logger
    calls is seen through the entries it has been called with. *)
Inductive t : Type :=
| Silent
| Production (configured : LogLevel).

(** [createLogger(level, logFn)] *)
Definition createLogger (l : LogLevel) : t :=
  match l with
  | silent => Silent
  | _ => Production l
  end.

(** The methods [debug], [info], [warn] and [error], by the level [l]
    of the method; [now] is the value of [Date.now()], and [calls] the
    entries [logFn] was called with so far. *)
Definition log {M : Type} (logger : t) (l : LogLevel) (msg : str) (now : Z)
  (meta : option M) (calls : list (LogEntry M)) : list (LogEntry M) :=
  match logger with
  | Silent => calls
  | Production configured =>
      if shouldLog configured l
      then calls ++ [mkLogEntry l msg now meta]
      else calls
  end.

(** The levels a method can have. *)
Definition isMethodLevel (l : LogLevel) : bool :=
  match l with silent => false | _ => true end.

End Logger.

(* ================================================================== *)
(** * Notions of the proofs: a tree of tags written out *)
(* ================================================================== *)

(** An attribute as a name and the text of its value. *)
Definition attributeText (a : Attribute) : str * str :=
  (fst a, valueToString (snd a)).

(** The lines of a tag and of the tags under it, at indentation [k]: the
    tag on a line of its own, with its attributes in one block, and its
    children two spaces deeper. *)
Fixpoint writeNode (k : nat) (node : ASTNode) : list str :=
  match node with
  | TagNode name classes id attributes children _ =>
      (repeat SPACE k
       ++ writeTagLine name classes id (map attributeText attributes) None)
      :: flat_map (writeNode (k + 2)) children
  | _ => []
  end.

Definition writeForest (k : nat) (nodes : list ASTNode) : list str :=
  flat_map (writeNode k) nodes.

(** An attribute that can be written: a name of one or more identifier
    characters, and a string without a newline as the value. *)
Definition writableAttribute (a : Attribute) : bool :=
  nonEmpty (fst a) && identChars (fst a)
  && match snd a with
     | StringValue v => negb (includesChar NL v)
     | BoolValue _ => false
     end.

(** A tree of tags that can be written: proper names, classes and ids,
    writable attributes, and [selfClosing] as the parser sets it. *)
Fixpoint writable (node : ASTNode) : bool :=
  match node with
  | TagNode name classes id attributes children selfClosing =>
      properName name && forallb identChars classes
      && match id with Some i => identChars i | None => true end
      && forallb writableAttribute attributes
      && Bool.eqb selfClosing (includesStr selfClosingNames name)
      && forallb writable children
  | _ => false
  end.

(** The lines that may follow the lines of a collector at indentation
    above [parentIndent]: none, or a first line that is not empty and not
    indented deeper than [parentIndent]. *)
Definition dedents (parentIndent : Z) (following : list str) : Prop :=
  match following with
  | [] => True
  | l :: _ => l <> [] /\ ~ In NL l /\ countSpaces l <= parentIndent
  end.

(** The collector on written trees: the statement for a list of
    nodes. *)
Definition readsBack (nodes : list ASTNode) : Prop :=
  forall k parentIndent fuel acc p following,
    forallb writable nodes = true ->
    parentIndent < Z.of_nat k ->
    dedents parentIndent following ->
    rest p = unlines (writeForest k nodes ++ following) ->
    (length (rest p) < fuel)%nat ->
    exists p',
      childrenLoop fuel parentIndent acc p = Done (acc ++ nodes, p') /\
      rest p' = unlines following.

(** A page: a list with two items, the second one nested deeper, and a
    line break. *)
Definition pageTree : list ASTNode :=
  [TagNode (lit "ul") [lit "menu"] (Some (lit "top")) []
     [TagNode (lit "li") [] None [(lit "title", StringValue (lit "a ] b"))] []
        false;
      TagNode (lit "li") [lit "on"] None []
        [TagNode (lit "img") [] None [(lit "src", StringValue (lit "x.png"))]
           [] true]
        false]
     false;
   TagNode (lit "br") [] None [] [] true].

(* ================================================================== *)
(** * Notions of the proofs: the HTML of a tree of tags *)
(* ================================================================== *)

(** The HTML of a tree with nothing between the tags: the opening tag
    with its attributes, the children, the closing tag; a self-closing
    tag alone. *)
Fixpoint serialize (node : ASTNode) : str :=
  match node with
  | TagNode name classes id attributes children selfClosing =>
      let attrs := generateAttributes attributes classes id in
      if selfClosing then lit "<" ++ name ++ attrs ++ lit " />"
      else lit "<" ++ name ++ attrs ++ lit ">"
           ++ flat_map serialize children ++ lit "</" ++ name ++ lit ">"
  | DoctypeNode doctype => lit "<!DOCTYPE " ++ doctype ++ lit ">"
  | TextNode _ => []
  end.

(** A tree without text nodes. *)
Fixpoint tagsOnly (node : ASTNode) : bool :=
  match node with
  | TagNode _ _ _ _ children _ => forallb tagsOnly children
  | DoctypeNode _ => true
  | TextNode _ => false
  end.

(** What a node pushes in minify mode. *)
Definition pushesSerialized (node : ASTNode) : Prop :=
  forall g, minifying g = true ->
            exists g' pieces,
              generateNode node g = (Done tt, g') /\
              outputBuffer g' = outputBuffer g ++ pieces /\
              concat pieces = serialize node.
(* ================================================================== *)
(** * Lemmas on strings *)
(* ================================================================== *)

Lemma includesChar_spec c s : includesChar c s = true <-> In c s.
Proof.
  unfold includesChar. rewrite existsb_exists. split.
  - intros [x [Hin Heq]]. apply N.eqb_eq in Heq. now subst.
  - intros Hin. exists c. split; [assumption | apply N.eqb_refl].
Qed.

Lemma includesChar_repeat c d n : c <> d -> includesChar c (repeat d n) = false.
Proof.
  intros Hne. unfold includesChar.
  induction n as [|n IH]; cbn [repeat existsb]; [reflexivity|].
  rewrite IH. destruct (N.eqb_spec c d); [contradiction | reflexivity].
Qed.

Lemma spec_byteLength_repeat_2 c n :
  (c <? 128)%N = false -> (c <? 2048)%N = true ->
  spec_byteLength (repeat c n) = 2 * Z.of_nat n.
Proof.
  intros H1 H2. induction n as [|n IH]; [reflexivity|].
  cbn [repeat spec_byteLength]. rewrite H1, H2, IH. lia.
Qed.

Lemma jsLength_zero_iff (s : str) : jsLength s = 0 <-> s = [].
Proof.
  unfold jsLength. destruct s as [|c s]; simpl length; split;
    intros H; try reflexivity; try discriminate; lia.
Qed.

Lemma sixMebi_Z : Z.of_nat sixMebi = 6 * 1024 * 1024.
Proof. unfold sixMebi. apply Z2Nat.id. lia. Qed.

Lemma str_eqb_eq a : forall b, str_eqb a b = true <-> a = b.
Proof.
  induction a as [|x a IH]; intros [|y b]; simpl; split; intros H;
    try reflexivity; try discriminate.
  - apply andb_true_iff in H as [Hx Ha]. apply N.eqb_eq in Hx.
    apply IH in Ha. now subst.
  - injection H as -> ->. rewrite N.eqb_refl. now apply IH.
Qed.

Lemma includesStr_spec l s : includesStr l s = true <-> In s l.
Proof.
  unfold includesStr. rewrite existsb_exists. split.
  - intros (x & Hin & Heq). apply str_eqb_eq in Heq. now subst.
  - intros Hin. exists s. split; [assumption | now apply str_eqb_eq].
Qed.

Lemma splitLines_not_nil s : splitLines s <> [].
Proof.
  destruct s as [|c s]; simpl; [discriminate|].
  destruct (N.eqb c NL); [discriminate|].
  destruct (splitLines s); discriminate.
Qed.

Lemma splitLines_single s : ~ In NL s -> splitLines s = [s].
Proof.
  induction s as [|c s IH]; intros Hnl; [reflexivity|].
  simpl. destruct (N.eqb_spec c NL) as [->|Hc].
  - exfalso. apply Hnl. now left.
  - rewrite IH; [reflexivity|]. intros Hin. apply Hnl. now right.
Qed.

Lemma length_takeWhile_dropWhile {A : Type} (f : A -> bool) (s : list A) :
  (length (takeWhile f s) + length (dropWhile f s) = length s)%nat.
Proof.
  induction s as [|c s IH]; [reflexivity|].
  cbn [takeWhile dropWhile]. destruct (f c); cbn [length]; lia.
Qed.

Lemma length_dropWhile {A : Type} (f : A -> bool) (s : list A) :
  (length (dropWhile f s) <= length s)%nat.
Proof. pose proof (length_takeWhile_dropWhile f s). lia. Qed.

Lemma dropWhile_app_last {A : Type} (f : A -> bool) (s : list A) (c : A) :
  f c = false -> dropWhile f (s ++ [c]) = dropWhile f s ++ [c].
Proof.
  intros Hc. induction s as [|x s IH]; cbn [app dropWhile].
  - now rewrite Hc.
  - destruct (f x); [exact IH | reflexivity].
Qed.

Lemma span_app {A : Type} (f : A -> bool) (s r : list A) :
  Forall (fun c => f c = true) s ->
  match r with [] => True | c :: _ => f c = false end ->
  takeWhile f (s ++ r) = s /\ dropWhile f (s ++ r) = r.
Proof.
  intros Hs Hr. induction Hs as [|c s Hc _ IH]; cbn [app].
  - destruct r as [|c r]; [now split|]. cbn [takeWhile dropWhile].
    rewrite Hr. now split.
  - cbn [takeWhile dropWhile]. rewrite Hc. destruct IH as [-> ->]. now split.
Qed.

Lemma isLetter_not_trimSpace c : isLetter c = true -> isTrimSpace c = false.
Proof.
  unfold isLetter, isTrimSpace, inRange. intros H.
  apply orb_true_iff in H.
  rewrite !andb_true_iff, !N.leb_le in H.
  repeat (apply orb_false_iff; split);
    try (apply andb_false_iff; rewrite !N.leb_gt; lia);
    apply N.eqb_neq; lia.
Qed.

Lemma trim_first_letter c s :
  isLetter c = true -> exists t, trim (c :: s) = c :: t.
Proof.
  intros Hc. apply isLetter_not_trimSpace in Hc.
  unfold trim, trimStart, trimEnd. cbn [dropWhile]. rewrite Hc.
  cbn [rev]. rewrite dropWhile_app_last by assumption.
  rewrite rev_app_distr. cbn. now eexists.
Qed.

Lemma trimStart_dropSpaces l :
  trimStart (dropWhile (fun c => N.eqb c SPACE) l) = trimStart l.
Proof.
  unfold trimStart. induction l as [|c l IH]; [reflexivity|].
  cbn [dropWhile]. destruct (N.eqb_spec c SPACE) as [->|Hc]; [|reflexivity].
  rewrite IH. reflexivity.
Qed.

Lemma trim_dropSpaces l : trim (dropWhile (fun c => N.eqb c SPACE) l) = trim l.
Proof. unfold trim. now rewrite trimStart_dropSpaces. Qed.

Lemma isIdentChar_facts c :
  isIdentChar c = true ->
  isBlank c = false /\ isUnquotedChar c = true /\ c <> RBRACKET /\
  c <> EQUALS /\ c <> DQUOTE /\ c <> SQUOTE /\ c <> LBRACKET /\ c <> DOT /\
  c <> HASH.
Proof.
  unfold isIdentChar, isLetter, isBlank, isUnquotedChar, inRange.
  unfold UNDERSCORE, MINUS, SPACE, TAB, RBRACKET, EQUALS, DQUOTE, SQUOTE,
    LBRACKET, DOT, HASH.
  intros H. rewrite !orb_true_iff, !andb_true_iff, !N.leb_le, !N.eqb_eq in H.
  repeat split;
    try (apply orb_false_iff; split; apply N.eqb_neq; lia);
    try (rewrite !andb_true_iff, !negb_true_iff, !N.eqb_neq;
         repeat split; lia);
    lia.
Qed.

(* ================================================================== *)
(** * The constructor *)
(* ================================================================== *)

Lemma constructor_unfold (input : str) :
  constructor input =
    if (jsLength input =? 0) then Raise InvalidInput_notNonEmptyString
    else if (jsLength input >? maxInputLength) then Raise InputTooLarge
    else if (includesChar NUL input || includesChar U_FFFE input
             || includesChar U_FFFF input)
    then Raise InvalidInput_forbiddenCharacters
    else Done (mkParser (trim input) 1 1).
Proof.
  destruct input as [|c s]; [reflexivity|].
  unfold constructor.
  replace (jsLength (c :: s) =? 0) with false; [reflexivity|].
  symmetry. apply Z.eqb_neq. unfold jsLength. simpl length. lia.
Qed.

(* ================================================================== *)
(** * Induction on the syntax tree *)
(* ================================================================== *)

Section ASTNode_induction.
Variable P : ASTNode -> Prop.
Hypothesis Hdoctype : forall doctype, P (DoctypeNode doctype).
Hypothesis Htext : forall content, P (TextNode content).
Hypothesis Htag :
  forall name classes id attributes children selfClosing,
    Forall P children ->
    P (TagNode name classes id attributes children selfClosing).

Fixpoint ASTNode_nested_ind (node : ASTNode) : P node :=
  match node with
  | DoctypeNode doctype => Hdoctype doctype
  | TextNode content => Htext content
  | TagNode name classes id attributes children selfClosing =>
      Htag name classes id attributes children selfClosing
        ((fix all (l : list ASTNode) : Forall P l :=
            match l with
            | [] => Forall_nil P
            | child :: l' =>
                Forall_cons child (ASTNode_nested_ind child) (all l')
            end) children)
  end.
End ASTNode_induction.

(* ================================================================== *)
(** * The generator only appends, and restores what it changes *)
(* ================================================================== *)

Lemma andThen_Done {A B : Type} (m : Method A) (k : A -> Method B) g b g' :
  andThen m k g = (Done b, g') ->
  exists a g1, m g = (Done a, g1) /\ k a g1 = (Done b, g').
Proof.
  unfold andThen. destruct (m g) as [[a|e|] g1]; intros H; try discriminate.
  now exists a, g1.
Qed.

Lemma andThen_returned {A B : Type} (m : Method A) (k : A -> Method B) g a g1 :
  m g = (Done a, g1) -> andThen m k g = k a g1.
Proof. unfold andThen. now intros ->. Qed.

Lemma andThen_stopped {A B : Type} (m : Method A) (k : A -> Method B) g :
  (forall a, fst (m g) <> Done a) ->
  snd (andThen m k g) = snd (m g) /\
  forall b, fst (andThen m k g) <> Done b.
Proof.
  unfold andThen. destruct (m g) as [[a|e|] g1]; cbn [fst snd]; intros H.
  - now destruct (H a).
  - split; [reflexivity | discriminate].
  - split; [reflexivity | discriminate].
Qed.

Lemma grows_refl g : grows g g.
Proof.
  unfold grows. repeat split; try reflexivity.
  exists []. now rewrite app_nil_r.
Qed.

Lemma grows_trans g1 g2 g3 : grows g1 g2 -> grows g2 g3 -> grows g1 g3.
Proof.
  intros (Ho & Hp & Hd & Hi & out & Hb) (Ho' & Hp' & Hd' & Hi' & out' & Hb').
  unfold grows. repeat split; try congruence.
  exists (out ++ out'). rewrite Hb', Hb. now rewrite app_assoc.
Qed.

Lemma grows_push pieces g : grows g (push pieces g).
Proof.
  unfold grows, push; simpl. repeat split; try reflexivity. now exists pieces.
Qed.

Lemma grows_minifying g g' : grows g g' -> minifying g' = minifying g.
Proof. intros (Ho & _). unfold minifying. now rewrite Ho. Qed.

Lemma indent_same g g' :
  options g' = options g -> indentLevel g' = indentLevel g ->
  indent g' = indent g.
Proof.
  intros Ho Hi. unfold indent, indentString, minifying. now rewrite Ho, Hi.
Qed.

Lemma grows_extends g g' : grows g g' -> extends g g'.
Proof. intros (Ho & _ & Hd & _ & Hb). now repeat split. Qed.

Lemma extends_refl g : extends g g.
Proof. apply grows_extends, grows_refl. Qed.

Lemma extends_trans g1 g2 g3 : extends g1 g2 -> extends g2 g3 -> extends g1 g3.
Proof.
  intros (Ho & Hd & out & Hb) (Ho' & Hd' & out' & Hb').
  unfold extends. repeat split; try congruence.
  exists (out ++ out'). rewrite Hb', Hb. now rewrite app_assoc.
Qed.

Lemma extends_setCurrentParentTag t g : extends g (setCurrentParentTag t g).
Proof.
  unfold extends; cbn. repeat split. exists []. now rewrite app_nil_r.
Qed.

Lemma calm_indent g : calm g -> exists s, indent g = Done s.
Proof.
  intros H. destruct (H (indentLevel g) (Z.le_refl _)) as (s & Hs).
  exists s. rewrite <- Hs. symmetry. now apply indent_same.
Qed.

Lemma calm_same g g' :
  options g' = options g -> indentLevel g <= indentLevel g' ->
  calm g -> calm g'.
Proof.
  intros Ho Hi H level Hl. destruct (H level) as (s & Hs); [lia|].
  exists s. rewrite <- Hs. now apply indent_same.
Qed.

Lemma grows_calm g g' : grows g g' -> calm g -> calm g'.
Proof. intros (Ho & _ & _ & Hi & _). apply calm_same; [assumption | lia]. Qed.

Lemma minifying_calm g : minifying g = true -> calm g.
Proof.
  intros Hmin level _. exists []. unfold indent.
  change (minifying (setIndentLevel level g)) with (minifying g).
  now rewrite Hmin.
Qed.

Lemma indent_minifying g : minifying g = true -> indent g = Done [].
Proof. unfold indent. now intros ->. Qed.

Lemma keeps_returned g g' : grows g g' -> keeps g (Done tt, g').
Proof. intros H. split; [now apply grows_extends | intros _ _; exact H]. Qed.

Lemma keeps_after g g1 r : grows g g1 -> keeps g1 r -> keeps g r.
Proof.
  intros Hg [He Hr]. split.
  - eapply extends_trans; [apply grows_extends|]; eassumption.
  - intros u Hu. eapply grows_trans; [eassumption | eapply Hr; eassumption].
Qed.

Lemma keeps_andThen (m : Method unit) (k : unit -> Method unit) g :
  keeps g (m g) ->
  (forall u g1, m g = (Done u, g1) -> keeps g1 (k u g1)) ->
  keeps g (andThen m k g).
Proof.
  intros [He Hr] Hk. unfold andThen.
  destruct (m g) as [[u|e|] g1] eqn:Hm; cbn [fst snd] in *.
  - eapply keeps_after; [eapply Hr; reflexivity | now apply Hk].
  - split; [assumption | discriminate].
  - split; [assumption | discriminate].
Qed.

(** [pushIndented] pushes after the indentation, or throws and leaves
    the generator as it is. *)
Lemma pushIndented_cases pieces g :
  (exists s, indent g = Done s /\
             pushIndented pieces g = (Done tt, push (s :: pieces) g)) \/
  ((forall s, indent g <> Done s) /\ snd (pushIndented pieces g) = g /\
   forall u, fst (pushIndented pieces g) <> Done u).
Proof.
  unfold pushIndented. destruct (indent g) as [s|e|].
  - left. now exists s.
  - right. repeat split; discriminate.
  - right. repeat split; discriminate.
Qed.

Lemma pushIndented_Done pieces g u g' :
  pushIndented pieces g = (Done u, g') ->
  exists s, indent g = Done s /\ g' = push (s :: pieces) g.
Proof.
  unfold pushIndented. destruct (indent g) as [s|e|]; intros [= <-].
  now exists s.
Qed.

Lemma pushIndented_calm pieces g :
  calm g -> exists u g', pushIndented pieces g = (Done u, g').
Proof.
  intros H. destruct (calm_indent g H) as (s & Hs).
  unfold pushIndented. rewrite Hs. now eexists; eexists.
Qed.

Lemma keeps_pushIndented pieces g : keeps g (pushIndented pieces g).
Proof.
  destruct (pushIndented_cases pieces g) as [(s & _ & ->)|(_ & Hs & Hf)].
  - apply keeps_returned, grows_push.
  - split; [rewrite Hs; apply extends_refl|]. intros u Hu. now apply Hf in Hu.
Qed.

Lemma generateTextLines_keeps escape count lines :
  forall i g, keeps g (generateTextLines escape count i lines g).
Proof.
  induction lines as [|l more IH]; intros i g; cbn [generateTextLines].
  - apply keeps_returned, grows_refl.
  - destruct (trim l) as [|c t]; [apply IH|].
    apply keeps_andThen.
    + destruct ((i =? 0) && (indentLevel g =? 0));
        [apply keeps_returned, grows_push | apply keeps_pushIndented].
    + intros _ g1 _. destruct (i <? count - 1); [|apply IH].
      eapply keeps_after; [apply grows_push | apply IH].
Qed.

Lemma generateText_keeps content g : keeps g (generateText content g).
Proof.
  unfold generateText.
  destruct (minifying g); [apply keeps_returned, grows_push|].
  destruct (splitLines content) as [|l [|l' ls]];
    try apply generateTextLines_keeps.
  apply keeps_pushIndented.
Qed.

Lemma aroundChild_keeps tagName (f : Method unit) g :
  (forall g0, keeps g0 (f g0)) -> keeps g (aroundChild tagName f g).
Proof.
  intros Hf. unfold aroundChild, andThen.
  destruct (Hf (setCurrentParentTag tagName g)) as [He Hr].
  destruct (f (setCurrentParentTag tagName g)) as [[u|e|] g1];
    cbn [fst snd] in *;
    try (split; [|discriminate];
         eapply extends_trans; [apply extends_setCurrentParentTag | exact He]).
  destruct (Hr u eq_refl) as (Ho & Hp & Hd & Hi & out & Hb).
  cbn [setCurrentParentTag options currentParentTag disposed indentLevel
       outputBuffer] in *.
  set (g2 := setCurrentParentTag (currentParentTag g) g1).
  assert (H2 : grows g g2).
  { unfold grows; subst g2; cbn. repeat split; try assumption. now exists out. }
  apply keeps_returned.
  destruct (minifying g2); [exact H2|].
  eapply grows_trans; [exact H2 | apply grows_push].
Qed.

Lemma eachChild_keeps tagName children :
  Forall (fun child => forall g, keeps g (generateNode child g)) children ->
  forall g, keeps g (eachChild tagName generateNode children g).
Proof.
  induction 1 as [|child more Hchild _ IH]; intros g; cbn [eachChild].
  - apply keeps_returned, grows_refl.
  - apply keeps_andThen; [now apply aroundChild_keeps|].
    intros _ g1 _. apply IH.
Qed.

(** The opening of the block form returns with the opening pieces pushed
    and the level one up, or throws and leaves the generator as it
    is. *)
Lemma openBlock_cases tagName attrs g :
  (exists s,
     indent g = Done s /\
     openBlock tagName attrs g
     = (Done tt,
        let g1 := push [s; lit "<"; tagName; attrs; lit ">"] g in
        if minifying g then g1
        else setIndentLevel (indentLevel g + 1) (push [[NL]] g1))) \/
  ((forall s, indent g <> Done s) /\ snd (openBlock tagName attrs g) = g /\
   forall u, fst (openBlock tagName attrs g) <> Done u).
Proof.
  unfold openBlock, andThen, pushIndented.
  destruct (indent g) as [s|e|].
  - left. exists s. split; [reflexivity|]. cbv zeta.
    change (minifying (push [s; lit "<"; tagName; attrs; lit ">"] g))
      with (minifying g).
    unfold newLine.
    change (minifying (push [s; lit "<"; tagName; attrs; lit ">"] g))
      with (minifying g).
    destruct (minifying g); reflexivity.
  - right. repeat split; discriminate.
  - right. repeat split; discriminate.
Qed.

(** The end of the block form, one level up from [g]. *)
Lemma closeBlock_cases tagName g gk :
  options gk = options g -> indentLevel gk = indentLevel g + 1 ->
  let g1 := if minifying g then gk
            else setIndentLevel (indentLevel gk - 1) gk in
  (exists s,
     indent g = Done s /\
     closeBlock tagName gk
     = (Done tt, push [s; lit "</"; tagName; lit ">"] g1)) \/
  ((forall s, indent g <> Done s) /\ snd (closeBlock tagName gk) = g1 /\
   forall u, fst (closeBlock tagName gk) <> Done u).
Proof.
  intros Ho Hi g1.
  assert (Hmin : minifying gk = minifying g)
    by (unfold minifying; now rewrite Ho).
  assert (Hind : indent g1 = indent g).
  { subst g1. destruct (minifying g) eqn:Hm.
    - rewrite (indent_minifying g Hm). apply indent_minifying.
      now rewrite Hmin.
    - apply indent_same; cbn; [assumption | lia]. }
  unfold closeBlock. rewrite Hmin. fold g1.
  destruct (pushIndented_cases [lit "</"; tagName; lit ">"] g1)
    as [(s & Hs & ->)|(Hno & Hg & Hf)].
  - left. exists s. split; [congruence | reflexivity].
  - right. split; [|split; assumption]. intros s. rewrite <- Hind. apply Hno.
Qed.

(** The block form: it only pushes; when it returns it has pushed the
    opening pieces, what the children push, and the closing pieces at the
    indentation of the opening. *)
Lemma block_shape tagName attrs children g :
  Forall (fun child => forall g, keeps g (generateNode child g)) children ->
  let r := andThen (openBlock tagName attrs)
             (fun _ =>
                andThen (eachChild tagName generateNode children)
                  (fun _ => closeBlock tagName)) g in
  keeps g r /\
  forall u, fst r = Done u ->
    exists s middle,
      indent g = Done s /\
      outputBuffer (snd r) =
        outputBuffer g ++ [s; lit "<"; tagName; attrs; lit ">"]
        ++ (if minifying g then [] else [[NL]]) ++ middle
        ++ [s; lit "</"; tagName; lit ">"].
Proof.
  intros Hall r. subst r.
  destruct (openBlock_cases tagName attrs g)
    as [(s & Hs & Hopen)|(Hno & Hg & Hf)].
  2:{ destruct (andThen_stopped (openBlock tagName attrs)
                  (fun _ =>
                     andThen (eachChild tagName generateNode children)
                       (fun _ => closeBlock tagName)) g Hf) as [Hsnd Hfst].
      split; [split|]; try (intros u Hu; now apply Hfst in Hu).
      rewrite Hsnd, Hg. apply extends_refl. }
  rewrite (andThen_returned _ _ _ _ _ Hopen). cbv zeta.
  set (go := if minifying g then _ else _).
  assert (Hgo : options go = options g /\ disposed go = disposed g /\
                currentParentTag go = currentParentTag g /\
                indentLevel go
                = (if minifying g then indentLevel g else indentLevel g + 1) /\
                outputBuffer go
                = outputBuffer g ++ [s; lit "<"; tagName; attrs; lit ">"]
                  ++ (if minifying g then [] else [[NL]])).
  { subst go. destruct (minifying g); cbn; repeat split;
      now rewrite <- ?app_assoc, ?app_nil_r. }
  clearbody go. destruct Hgo as (Hoo & Hdo & Hpo & Hio & Hbo).
  assert (Hmo : minifying go = minifying g)
    by (unfold minifying; now rewrite Hoo).
  destruct (eachChild_keeps tagName children Hall go) as [Hek Hrk].
  destruct (eachChild tagName generateNode children go) as [[u|e|] gk]
    eqn:Hkids; cbn [fst snd] in *.
  2,3: destruct (andThen_stopped (eachChild tagName generateNode children)
                   (fun _ => closeBlock tagName) go) as [Hsnd Hfst];
       [rewrite Hkids; discriminate|];
       rewrite Hkids in Hsnd; cbn [snd] in Hsnd;
       (split; [split|]; try (intros u Hu; now apply Hfst in Hu));
       rewrite Hsnd; destruct Hek as (Ho & Hd & out & Hb);
       (unfold extends; repeat split; try congruence);
       (eexists; rewrite Hb, Hbo, <- !app_assoc; reflexivity).
  rewrite (andThen_returned _ _ _ _ _ Hkids).
  destruct (Hrk u eq_refl) as (Ho & Hp & Hd & Hi & out & Hb).
  assert (Hmk : minifying gk = minifying g)
    by (unfold minifying; now rewrite Ho, Hoo).
  assert (Hclose :
    let g1 := if minifying g then gk
              else setIndentLevel (indentLevel gk - 1) gk in
    (exists s',
       indent g = Done s' /\
       closeBlock tagName gk
       = (Done tt, push [s'; lit "</"; tagName; lit ">"] g1)) \/
    ((forall s', indent g <> Done s') /\ snd (closeBlock tagName gk) = g1 /\
     forall u', fst (closeBlock tagName gk) <> Done u')).
  { destruct (minifying g) eqn:Hm.
    - unfold closeBlock. rewrite Hmk.
      assert (Hik : indent gk = Done []) by now apply indent_minifying.
      left. exists []. split; [now apply indent_minifying|].
      unfold pushIndented. now rewrite Hik.
    - pose proof (closeBlock_cases tagName g gk) as Hc.
      rewrite Hm in Hc. apply Hc; [congruence | lia]. }
  cbv zeta in Hclose.
  destruct Hclose as [(s' & Hs' & ->)|(Hno & _ & _)];
    [|exfalso; now apply (Hno s)].
  assert (s' = s) by congruence. subst s'.
  cbn [fst snd].
  assert (Hfinal :
    grows g (push [s; lit "</"; tagName; lit ">"]
               (if minifying g then gk
                else setIndentLevel (indentLevel gk - 1) gk)) /\
    outputBuffer (push [s; lit "</"; tagName; lit ">"]
                    (if minifying g then gk
                     else setIndentLevel (indentLevel gk - 1) gk))
    = outputBuffer g ++ [s; lit "<"; tagName; attrs; lit ">"]
      ++ (if minifying g then [] else [[NL]]) ++ out
      ++ [s; lit "</"; tagName; lit ">"]).
  { destruct (minifying g); cbn in *;
      (split; [unfold grows; cbn; repeat split; try congruence; try lia;
               eexists; rewrite Hb, Hbo, <- !app_assoc; reflexivity
              | rewrite Hb, Hbo, <- !app_assoc; reflexivity]). }
  destruct Hfinal as [Hgrow Hbuf].
  split; [now apply keeps_returned|].
  intros _ _. exists s, out. split; [assumption | exact Hbuf].
Qed.

Lemma generateNode_keeps node : forall g, keeps g (generateNode node g).
Proof.
  induction node as [doctype|content|name classes id attributes children sc IH]
    using ASTNode_nested_ind; intros g.
  - apply keeps_returned, grows_push.
  - apply generateText_keeps.
  - pose proof (block_shape name (generateAttributes attributes classes id)
                  children g IH) as [Hblock _].
    cbn [generateNode].
    destruct sc; [apply keeps_pushIndented|].
    destruct children as [|[d|n c i a ch s|t] [|second more]];
      try exact Hblock; try apply keeps_pushIndented.
    destruct (fitsInline _); [apply keeps_pushIndented | exact Hblock].
Qed.

Lemma generateNode_grows node g u g' :
  generateNode node g = (Done u, g') -> grows g g'.
Proof.
  intros H. destruct (generateNode_keeps node g) as [_ Hr].
  rewrite H in Hr. now apply (Hr u).
Qed.

Lemma generateAll_keeps ast : forall g, keeps g (generateAll ast g).
Proof.
  induction ast as [|node more IH]; intros g; cbn [generateAll].
  - apply keeps_returned, grows_refl.
  - apply keeps_andThen; [apply generateNode_keeps|].
    intros _ g1 _. destruct (minifying g1); [apply IH|].
    eapply keeps_after; [apply grows_push | apply IH].
Qed.

Lemma generateAll_grows ast g u g' :
  generateAll ast g = (Done u, g') -> grows g g'.
Proof.
  intros H. destruct (generateAll_keeps ast g) as [_ Hr].
  rewrite H in Hr. now apply (Hr u).
Qed.

(** ** Where the indentation can be built, the generator returns *)

Lemma calm_setCurrentParentTag t g : calm g -> calm (setCurrentParentTag t g).
Proof. apply calm_same; cbn; [reflexivity | lia]. Qed.

Lemma generateTextLines_calm escape count lines :
  forall i g, calm g ->
              exists u g', generateTextLines escape count i lines g = (Done u, g').
Proof.
  induction lines as [|l more IH]; intros i g Hcalm; cbn [generateTextLines].
  - now exists tt, g.
  - destruct (trim l) as [|c t]; [now apply IH|].
    set (text := if escape then _ else _).
    assert (Hfirst : exists u g1,
              (if (i =? 0) && (indentLevel g =? 0)
               then fun g0 => (Done tt, push [text] g0)
               else pushIndented [text]) g = (Done u, g1) /\ grows g g1).
    { destruct ((i =? 0) && (indentLevel g =? 0)).
      - exists tt. eexists. split; [reflexivity | apply grows_push].
      - destruct (calm_indent g Hcalm) as (s & Hs).
        exists tt. eexists. unfold pushIndented. rewrite Hs.
        split; [reflexivity | apply grows_push]. }
    destruct Hfirst as (u & g1 & Hrun & Hg1).
    rewrite (andThen_returned _ _ _ _ _ Hrun).
    apply IH. destruct (i <? count - 1).
    + eapply grows_calm; [|exact Hcalm].
      eapply grows_trans; [exact Hg1 | apply grows_push].
    + eapply grows_calm; eassumption.
Qed.

Lemma generateText_calm content g :
  calm g -> exists u g', generateText content g = (Done u, g').
Proof.
  intros Hcalm. unfold generateText.
  destruct (minifying g); [now eexists; eexists|].
  destruct (splitLines content) as [|l [|l' ls]];
    try now apply generateTextLines_calm.
  now apply pushIndented_calm.
Qed.

Lemma aroundChild_calm tagName (f : Method unit) g :
  (forall g0, keeps g0 (f g0)) ->
  (forall g0, calm g0 -> exists u g', f g0 = (Done u, g')) ->
  calm g ->
  exists u g', aroundChild tagName f g = (Done u, g') /\ calm g'.
Proof.
  intros Hkeeps Hf Hcalm.
  destruct (Hf (setCurrentParentTag tagName g)) as (u & g1 & Hrun);
    [now apply calm_setCurrentParentTag|].
  pose proof (aroundChild_keeps tagName f g Hkeeps) as [_ Hr].
  unfold aroundChild in *. rewrite (andThen_returned _ _ _ _ _ Hrun) in *.
  eexists; eexists. split; [reflexivity|].
  eapply grows_calm; [|exact Hcalm]. now apply (Hr tt).
Qed.

Lemma eachChild_calm tagName children :
  Forall (fun child =>
            forall g, calm g ->
                      exists u g', generateNode child g = (Done u, g'))
         children ->
  forall g, calm g ->
            exists u g',
              eachChild tagName generateNode children g = (Done u, g').
Proof.
  induction 1 as [|child more Hchild _ IH]; intros g Hcalm; cbn [eachChild].
  - now exists tt, g.
  - destruct (aroundChild_calm tagName (generateNode child) g
                (generateNode_keeps child) Hchild Hcalm)
      as (u & g1 & Hrun & Hcalm1).
    rewrite (andThen_returned _ _ _ _ _ Hrun). now apply IH.
Qed.

Lemma generateNode_calm node :
  forall g, calm g -> exists u g', generateNode node g = (Done u, g').
Proof.
  induction node as [doctype|content|name classes id attributes children sc IH]
    using ASTNode_nested_ind; intros g Hcalm.
  - now eexists; eexists.
  - now apply generateText_calm.
  - assert (Hblock :
      exists u g',
        andThen (openBlock name (generateAttributes attributes classes id))
          (fun _ =>
             andThen (eachChild name generateNode children)
               (fun _ => closeBlock name)) g = (Done u, g')).
    { destruct (calm_indent g Hcalm) as (s & Hs).
      destruct (openBlock_cases name (generateAttributes attributes classes id)
                  g) as [(s' & _ & Hopen)|(Hno & _)];
        [|now destruct (Hno s)].
      rewrite (andThen_returned _ _ _ _ _ Hopen). cbv zeta.
      set (go := if minifying g then _ else _).
      assert (Hgo : options go = options g /\
                    indentLevel go
                    = if minifying g then indentLevel g
                      else indentLevel g + 1).
      { subst go. destruct (minifying g); cbn; split; reflexivity. }
      clearbody go. destruct Hgo as [Hoo Hio].
      assert (Hcalmo : calm go).
      { eapply calm_same; try eassumption. rewrite Hio.
        destruct (minifying g); lia. }
      destruct (eachChild_calm name children IH go Hcalmo) as (u & gk & Hkids).
      rewrite (andThen_returned _ _ _ _ _ Hkids).
      destruct (eachChild_keeps name children
                  (proj2 (Forall_forall _ _)
                         (fun child _ => generateNode_keeps child)) go)
        as [_ Hr].
      rewrite Hkids in Hr. destruct (Hr u eq_refl) as (Ho & _ & _ & Hi & _).
      cbn [snd] in Ho, Hi.
      unfold closeBlock. apply pushIndented_calm.
      assert (Hmk : minifying gk = minifying g)
        by (unfold minifying; now rewrite Ho, Hoo).
      rewrite Hmk.
      destruct (minifying g) eqn:Hm.
      - apply minifying_calm. now rewrite Hmk.
      - eapply calm_same; [| |exact Hcalm]; cbn; [congruence | lia]. }
    cbn [generateNode].
    destruct sc; [now apply pushIndented_calm|].
    destruct children as [|[d|n c i a ch s|t] [|second more]];
      try exact Hblock; try now apply pushIndented_calm.
    destruct (fitsInline _); [now apply pushIndented_calm | exact Hblock].
Qed.

Lemma generateAll_calm ast :
  forall g, calm g -> exists u g', generateAll ast g = (Done u, g').
Proof.
  induction ast as [|node more IH]; intros g Hcalm; cbn [generateAll].
  - now exists tt, g.
  - destruct (generateNode_calm node g Hcalm) as (u & g1 & Hrun).
    rewrite (andThen_returned _ _ _ _ _ Hrun).
    pose proof (generateNode_grows node g u g1 Hrun) as Hg1.
    apply IH. destruct (minifying g1).
    + eapply grows_calm; eassumption.
    + eapply grows_calm; [|exact Hcalm].
      eapply grows_trans; [exact Hg1 | apply grows_push].
Qed.

(** ** Options under which the indentation can be built *)

Lemma truncate_nonnegative (q : Q) : (0 <= q)%Q -> 0 <= truncate q.
Proof.
  intros H. unfold truncate.
  rewrite (proj2 (Qle_bool_iff 0 q) H).
  change 0 with (Qfloor 0). now apply Qfloor_resp_le.
Qed.

Lemma repeatString_nonnegative c (q : Q) :
  (0 <= q)%Q -> repeatString c (Finite q) = Done (repeat c (Z.to_nat (truncate q))).
Proof.
  intros H. cbn [repeatString].
  pose proof (truncate_nonnegative q H) as Ht.
  destruct (Z.ltb_spec (truncate q) 0); [lia | reflexivity].
Qed.

(** With tabs, or with a step that is finite and not negative, the
    indentation can be built at every level from 0 on. *)
Lemma calm_plain_options g :
  0 <= indentLevel g ->
  indentType (options g) = Some tabs \/
  (exists q, indentSizeOr2 (options g) = Finite q /\ (0 <= q)%Q) ->
  calm g.
Proof.
  intros Hlevel Hopts level Hl. unfold indent, indentString.
  change (minifying (setIndentLevel level g)) with (minifying g).
  destruct (minifying g); [now exists []|].
  cbn [setIndentLevel options indentLevel].
  assert (Hq : (0 <= inject_Z level)%Q)
    by (change 0%Q with (inject_Z 0); rewrite <- Zle_Qle; lia).
  destruct Hopts as [->|(q & -> & Hpos)].
  - eexists. now apply repeatString_nonnegative.
  - destruct (indentType (options g)) as [[|]|]; eexists;
      cbn [timesInteger]; apply repeatString_nonnegative;
      try assumption; now apply Qmult_le_0_compat.
Qed.

Lemma calm_newGenerator given :
  given_indentSize given = None -> calm (newGenerator given).
Proof.
  intros Hsize. apply calm_plain_options; [cbn; lia|]. right.
  exists 2%Q. unfold indentSizeOr2, newGenerator, mergeOptions.
  cbn [options indentSize]. rewrite Hsize. cbn. split; [reflexivity|].
  discriminate.
Qed.

(** At level 0 the indentation is the empty string, whatever the
    options. *)
Lemma indent_level_zero g : indentLevel g = 0 -> indent g = Done [].
Proof.
  intros Hlevel. unfold indent, indentString.
  destruct (minifying g); [reflexivity|]. rewrite Hlevel.
  destruct (indentType (options g)) as [[|]|]; try reflexivity;
    destruct (indentSizeOr2 (options g)) as [[n d]| | |]; reflexivity.
Qed.

(** ** The inline test, and [generate] unfolded *)

Lemma fitsInline_true_iff processed :
  fitsInline processed = true <->
  jsLength processed < 80 /\ ~ In NL processed.
Proof.
  unfold fitsInline. rewrite andb_true_iff, negb_true_iff, Z.ltb_lt.
  rewrite <- includesChar_spec, not_true_iff_false. tauto.
Qed.

Lemma fitsInline_false_iff processed :
  fitsInline processed = false <->
  jsLength processed >= 80 \/ In NL processed.
Proof.
  unfold fitsInline. rewrite andb_false_iff, negb_false_iff, Z.ltb_ge.
  rewrite includesChar_spec. intuition lia.
Qed.

(** [generate] on a generator that is not disposed, by the outcome of
    the loop over the forest. *)
Lemma generate_unfold ast given g :
  disposed g = false ->
  let opts := match given with
              | Some o => mergeOptions (options g) o
              | None => options g
              end in
  let start := mkGenerator 0 opts (currentParentTag g) false [] in
  (forall u g2,
     generateAll ast start = (Done u, g2) ->
     generate ast given g
     = (Done (mkGenerated
                (concat (outputBuffer g2))
                (if truthy (usePrettier opts) && negb (truthy (minify opts))
                 then ThroughPrettier
                 else if negb (truthy (minify opts)) then ThroughFormatHTML
                 else AsJoined)),
        start)) /\
  ((forall u, fst (generateAll ast start) <> Done u) ->
   snd (generate ast given g) = snd (generateAll ast start) /\
   forall r, fst (generate ast given g) <> Done r).
Proof.
  intros Hd opts start. unfold generate. rewrite Hd. fold opts. fold start.
  split.
  - intros u g2 Hrun. rewrite Hrun.
    destruct (generateAll_grows ast start u g2 Hrun)
      as (Ho & Hp & Hdis & Hi & _).
    cbn [start options currentParentTag disposed indentLevel] in Ho, Hp, Hdis, Hi.
    unfold minifying. rewrite Ho, Hp, Hdis, Hi. reflexivity.
  - intros Hno. destruct (generateAll ast start) as [[u|e|] g2];
      cbn [fst snd] in *.
    + now destruct (Hno u).
    + split; [reflexivity | discriminate].
    + split; [reflexivity | discriminate].
Qed.
(* ================================================================== *)
(** * Escaping *)
(* ================================================================== *)

Lemma replaceAll_app c by_ a b :
  replaceAll c by_ (a ++ b) = replaceAll c by_ a ++ replaceAll c by_ b.
Proof. apply flat_map_app. Qed.

Lemma escapeHtml_app a b : escapeHtml (a ++ b) = escapeHtml a ++ escapeHtml b.
Proof. unfold escapeHtml. now rewrite !replaceAll_app. Qed.

Lemma escapeHtml_one c : escapeHtml [c] = spec_escapeChar c.
Proof.
  unfold spec_escapeChar.
  destruct (N.eqb_spec c AMP) as [->|Hamp]; [reflexivity|].
  destruct (N.eqb_spec c LT) as [->|Hlt]; [reflexivity|].
  destruct (N.eqb_spec c GT) as [->|Hgt]; [reflexivity|].
  destruct (N.eqb_spec c DQUOTE) as [->|Hdq]; [reflexivity|].
  unfold escapeHtml, replaceAll. cbn [flat_map app].
  apply N.eqb_neq in Hamp, Hlt, Hgt, Hdq.
  rewrite Hamp. cbn [flat_map app]. rewrite Hlt. cbn [flat_map app].
  rewrite Hgt. cbn [flat_map app]. rewrite Hdq. reflexivity.
Qed.

Lemma escapeHtml_charwise s : escapeHtml s = flat_map spec_escapeChar s.
Proof.
  induction s as [|c s IH]; [reflexivity|].
  change (c :: s) with ([c] ++ s).
  rewrite escapeHtml_app, escapeHtml_one, IH. reflexivity.
Qed.

(* ================================================================== *)
(** * The input as a sequence of lines *)
(* ================================================================== *)

Lemma unlines_empty_cons l ls : unlines ([] :: l :: ls) = NL :: unlines (l :: ls).
Proof. reflexivity. Qed.

Lemma unlines_char_cons c l ls : unlines ((c :: l) :: ls) = c :: unlines (l :: ls).
Proof. destruct ls; reflexivity. Qed.

Lemma unlines_cons l ls : unlines (l :: ls) = l ++ unlines ([] :: ls).
Proof.
  induction l as [|c l IH]; [reflexivity|].
  rewrite unlines_char_cons, IH. reflexivity.
Qed.

Lemma unlines_empty_head ls :
  unlines ([] :: ls) = match ls with [] => [] | _ :: _ => NL :: unlines ls end.
Proof. destruct ls; reflexivity. Qed.

Lemma unlines_splitLines s : unlines (splitLines s) = s.
Proof.
  induction s as [|c s IH]; [reflexivity|].
  cbn [splitLines]. destruct (N.eqb_spec c NL) as [->|Hc].
  - destruct (splitLines s) as [|l ls] eqn:Hs.
    + now apply splitLines_not_nil in Hs.
    + rewrite unlines_empty_cons, IH. reflexivity.
  - destruct (splitLines s) as [|l ls] eqn:Hs.
    + now apply splitLines_not_nil in Hs.
    + rewrite unlines_char_cons, IH. reflexivity.
Qed.

Lemma splitLines_NLfree s : NLfree (splitLines s).
Proof.
  unfold NLfree. induction s as [|c s IH]; cbn [splitLines].
  - constructor; [intros []|constructor].
  - destruct (N.eqb_spec c NL) as [->|Hc].
    + constructor; [intros []|exact IH].
    + destruct (splitLines s) as [|l ls] eqn:Hs;
        [now apply splitLines_not_nil in Hs|].
      inversion IH; subst. constructor; [|assumption].
      intros [Heq|Hin]; [now subst|contradiction].
Qed.

Lemma length_unlines_tail l ls :
  (length (unlines ls) <= length (unlines (l :: ls)))%nat.
Proof.
  rewrite unlines_cons, length_app, unlines_empty_head.
  destruct ls; simpl; lia.
Qed.

Lemma length_unlines_nonempty_line c l ls :
  (length (unlines ([] :: ls)) < length (unlines ((c :: l) :: ls)))%nat.
Proof.
  rewrite (unlines_cons (c :: l)), length_app. simpl. lia.
Qed.

Lemma length_rest_unlines p :
  length (rest p) = length (unlines (splitLines (rest p))).
Proof. now rewrite unlines_splitLines. Qed.

(* ================================================================== *)
(** * The small loops of the parser, on lines *)
(* ================================================================== *)

Lemma countSpaces_line l ls :
  ~ In NL l -> countSpaces (unlines (l :: ls)) = countSpaces l.
Proof.
  induction l as [|c l IH]; intros Hnl.
  - rewrite unlines_empty_head. destruct ls; reflexivity.
  - rewrite unlines_char_cons. cbn [countSpaces].
    rewrite IH; [reflexivity|]. intros Hin. apply Hnl. now right.
Qed.

Lemma countSpaces_nonneg r : 0 <= countSpaces r.
Proof.
  induction r as [|c r IH]; cbn [countSpaces]; [lia|].
  destruct (N.eqb c SPACE); lia.
Qed.

Lemma skipSpacesFrom_line l ls ln col :
  rest (skipSpacesFrom (unlines (l :: ls)) ln col)
  = unlines (dropWhile (fun c => N.eqb c SPACE) l :: ls).
Proof.
  revert col. induction l as [|c l IH]; intros col.
  - rewrite unlines_empty_head. destruct ls; reflexivity.
  - rewrite unlines_char_cons. cbn [skipSpacesFrom dropWhile].
    destruct (N.eqb c SPACE); [apply IH|].
    cbn [rest]. now rewrite unlines_char_cons.
Qed.

Lemma readLineFrom_line l ls ln col :
  ~ In NL l ->
  fst (readLineFrom (unlines (l :: ls)) ln col) = l /\
  rest (snd (readLineFrom (unlines (l :: ls)) ln col)) = unlines ([] :: ls).
Proof.
  revert col. induction l as [|c l IH]; intros col Hnl.
  - rewrite unlines_empty_head. destruct ls; split; reflexivity.
  - rewrite unlines_char_cons. cbn [readLineFrom].
    destruct (N.eqb_spec c NL) as [->|Hc]; [exfalso; apply Hnl; now left|].
    destruct (IH (col + 1)) as [H1 H2]; [intros Hin; apply Hnl; now right|].
    destruct (readLineFrom (unlines (l :: ls)) ln (col + 1)) as [s p].
    cbn [fst snd] in *. now subst.
Qed.

Lemma dropWhile_space_NL l :
  ~ In NL l -> ~ In NL (dropWhile (fun c => N.eqb c SPACE) l).
Proof.
  induction l as [|c l IH]; intros Hnl; [exact Hnl|].
  cbn [dropWhile]. destruct (N.eqb c SPACE); [|exact Hnl].
  apply IH. intros Hin. apply Hnl. now right.
Qed.

(** Reading a whole line of the input: what [readLine] returns after
    [skipIndentation], and where the parser stands. *)
Lemma readLine_skipIndentation p l ls :
  ~ In NL l -> rest p = unlines (l :: ls) ->
  fst (readLine (skipIndentation p)) = dropWhile (fun c => N.eqb c SPACE) l /\
  rest (snd (readLine (skipIndentation p))) = unlines ([] :: ls).
Proof.
  intros Hnl Hrest. unfold readLine, skipIndentation. rewrite Hrest.
  pose proof (skipSpacesFrom_line l ls (line p) (column p)) as Hskip.
  set (q := skipSpacesFrom _ _ _) in *. rewrite Hskip.
  apply readLineFrom_line. now apply dropWhile_space_NL.
Qed.

Lemma skipNewline_done p :
  exists p', skipNewline p = Done p' /\ rest p' = skipChar NL (rest p).
Proof.
  unfold skipNewline, peekIs, peek, advance, skipChar.
  destruct (rest p) as [|c r] eqn:Hr; [now exists p|].
  destruct (N.eqb_spec c NL) as [->|Hc]; [|exists p; now rewrite Hr].
  eexists. cbn [bind]. split; reflexivity.
Qed.

(** [skipNewline] at the end of a line moves to the next line. *)
Lemma skipNewline_end_of_line p ls :
  rest p = unlines ([] :: ls) ->
  exists p', skipNewline p = Done p' /\ rest p' = unlines ls.
Proof.
  intros Hrest. destruct (skipNewline_done p) as (p' & Hp & Hr).
  exists p'. split; [assumption|]. rewrite Hr, Hrest, unlines_empty_head.
  destruct ls; reflexivity.
Qed.

Lemma atEnd_iff p : atEnd p = true <-> rest p = [].
Proof. unfold atEnd. destruct (rest p); split; congruence. Qed.

Lemma NLfree_head_not_NL c l ls r :
  NLfree ((c :: l) :: ls) -> unlines ((c :: l) :: ls) = r ->
  exists r', r = c :: r' /\ c <> NL.
Proof.
  intros Hfree <-. rewrite unlines_char_cons. eexists. split; [reflexivity|].
  inversion Hfree as [|? ? Hl _]; subst. intros ->. apply Hl. now left.
Qed.

Lemma bind_Done {A B : Type} (m : outcome A) (k : A -> outcome B) (b : B) :
  bind m k = Done b -> exists a, m = Done a /\ k a = Done b.
Proof. destruct m; cbn [bind]; intros H; try discriminate. now exists a. Qed.

(* ================================================================== *)
(** * parseMultilineText on lines *)
(* ================================================================== *)

Lemma pushTrimmed_spec acc ln :
  pushTrimmed acc ln = acc ++ filter nonEmpty [trim ln].
Proof.
  unfold pushTrimmed. destruct (trim ln); cbn [filter nonEmpty];
    [now rewrite app_nil_r | reflexivity].
Qed.

Lemma multilineLoop_lines k :
  forall ls fuel acc p,
    NLfree ls -> rest p = unlines ls -> (length (unlines ls) < fuel)%nat ->
    exists p',
      multilineLoop fuel k acc p = Done (acc ++ takenLines k ls, p') /\
      rest p' = unlines (dropWhile (loopTakes k) ls).
Proof.
  induction ls as [|l ls IH]; intros fuel acc p Hfree Hrest Hfuel.
  - destruct fuel as [|fuel]; [lia|]. cbn [multilineLoop].
    replace (atEnd p) with true by (symmetry; now apply atEnd_iff).
    exists p. unfold takenLines. cbn. rewrite app_nil_r. now split.
  - destruct fuel as [|fuel]; [lia|]. cbn [multilineLoop].
    inversion Hfree as [|? ? Hl Hfree']; subst.
    destruct l as [|c l].
    + (* an empty line *)
      destruct ls as [|l2 ls].
      * replace (atEnd p) with true by (symmetry; now apply atEnd_iff).
        exists p. unfold takenLines. cbn. rewrite app_nil_r. now split.
      * rewrite unlines_empty_cons in Hrest.
        unfold atEnd, peekIs, peek, advance. rewrite Hrest.
        rewrite N.eqb_refl. cbn [bind].
        destruct (IH fuel acc (moved NL (unlines (l2 :: ls)) (line p) (column p))
                    Hfree' eq_refl) as (p' & Hrun & Hp').
        { rewrite unlines_empty_cons in Hfuel. cbn [length] in Hfuel. lia. }
        exists p'. split; [|exact Hp'].
        rewrite Hrun. reflexivity.
    + (* a line with a first character *)
      destruct (NLfree_head_not_NL c l ls _ Hfree (eq_sym Hrest))
        as (r' & Hr' & Hc).
      unfold atEnd at 1, peekIs at 1, peek at 1. rewrite Hr'.
      apply N.eqb_neq in Hc. rewrite Hc.
      unfold getIndentLevel. rewrite Hrest, countSpaces_line by assumption.
      unfold takenLines. cbn [takeWhile dropWhile loopTakes].
      destruct (Z.leb_spec (countSpaces (c :: l)) k) as [Hle|Hgt].
      * replace (k <? countSpaces (c :: l)) with false
          by (symmetry; apply Z.ltb_ge; lia).
        exists p. cbn. rewrite app_nil_r. now split.
      * replace (k <? countSpaces (c :: l)) with true
          by (symmetry; apply Z.ltb_lt; lia).
        destruct (readLine_skipIndentation p (c :: l) ls Hl Hrest)
          as [Hln Hp2].
        destruct (readLine (skipIndentation p)) as [ln p2].
        cbn [fst snd] in Hln, Hp2.
        destruct (skipNewline_end_of_line p2 ls Hp2) as (p3 & Hskip & Hp3).
        rewrite Hskip. cbn [bind].
        destruct (IH fuel (pushTrimmed acc ln) p3 Hfree' Hp3) as (p' & Hrun & Hp').
        { pose proof (length_unlines_tail [] ls).
          pose proof (length_unlines_nonempty_line c l ls). lia. }
        exists p'. split; [|exact Hp'].
        rewrite Hrun, pushTrimmed_spec, Hln, trim_dropSpaces.
        cbn [map filter]. rewrite <- app_assoc. unfold takenLines.
        destruct (nonEmpty (trim (c :: l))); reflexivity.
Qed.

Lemma parseMultilineText_lines k fuel p ls :
  NLfree ls -> rest p = unlines ls -> (length (unlines ls) < fuel)%nat ->
  exists p',
    parseMultilineText fuel k p
      = Done (join [NL] (takenLines k ls), p') /\
    rest p' = unlines (dropWhile (loopTakes k) ls).
Proof.
  intros Hfree Hrest Hfuel. unfold parseMultilineText.
  destruct (multilineLoop_lines k ls fuel [] p Hfree Hrest Hfuel)
    as (p' & Hrun & Hp').
  exists p'. rewrite Hrun. cbn [bind app]. now split.
Qed.

(* ================================================================== *)
(** * parseTagLine always returns on a line that starts with a letter *)
(* ================================================================== *)

Lemma length_skipChar c r : (length (skipChar c r) <= length r)%nat.
Proof.
  unfold skipChar. destruct r as [|x r]; [lia|].
  destruct (N.eqb x c); cbn [length]; lia.
Qed.

Lemma length_readQuotedValue quote :
  forall n r, (length r <= n)%nat ->
              (length (snd (readQuotedValue quote r)) <= length r)%nat.
Proof.
  induction n as [|n IH]; intros r Hn.
  - destruct r; [cbn; lia | cbn [length] in Hn; lia].
  - destruct r as [|c r1]; [cbn; lia|].
    cbn [readQuotedValue]. cbn [length] in Hn.
    destruct (N.eqb c quote); [cbn; lia|].
    destruct (N.eqb c BACKSLASH).
    + destruct r1 as [|d r2]; [cbn; lia|].
      cbn [length] in Hn.
      pose proof (IH r2 ltac:(lia)) as H2.
      destruct (readQuotedValue quote r2) as [v r']. cbn [snd length] in *. lia.
    + pose proof (IH r1 ltac:(lia)) as H1.
      destruct (readQuotedValue quote r1) as [v r']. cbn [snd length] in *. lia.
Qed.

Lemma length_readAttrValue r :
  (length (snd (readAttrValue r)) <= length r)%nat.
Proof.
  unfold readAttrValue. destruct r as [|c r1]; [cbn; lia|].
  destruct (N.eqb c EQUALS); [|cbn; lia].
  pose proof (length_dropWhile isBlank r1) as Hblank.
  unfold skipWhitespace. destruct (dropWhile isBlank r1) as [|q r3] eqn:Hr2;
    [cbn; lia|].
  destruct (N.eqb q DQUOTE || N.eqb q SQUOTE).
  - pose proof (length_readQuotedValue q (length r3) r3 (Nat.le_refl _)) as Hq.
    destruct (readQuotedValue q r3) as [v r4]. cbn [snd] in *.
    pose proof (length_skipChar q r4). cbn [length] in *. lia.
  - cbn [snd]. pose proof (length_dropWhile isUnquotedChar (q :: r3)).
    cbn [length] in *. lia.
Qed.

Lemma readClasses_total :
  forall fuel classes r,
    (length r < fuel)%nat ->
    exists classes' r', readClasses fuel classes r = Done (classes', r').
Proof.
  induction fuel as [|fuel IH]; intros classes r Hfuel; [lia|].
  cbn [readClasses]. destruct r as [|c r1]; [now eexists; eexists|].
  destruct (N.eqb c DOT); [|now eexists; eexists].
  unfold localReadIdentifier. apply IH.
  pose proof (length_dropWhile isIdentChar r1). cbn [length] in Hfuel. lia.
Qed.

Lemma readAttributes_total :
  forall fuel attributes r,
    (length r < fuel)%nat ->
    exists attributes' r',
      readAttributes fuel attributes r = Done (attributes', r') /\
      (length r' <= length r)%nat.
Proof.
  induction fuel as [|fuel IH]; intros attributes r Hfuel; [lia|].
  cbn [readAttributes]. destruct r as [|c r0] eqn:Hr;
    [eexists; eexists; split; [reflexivity|lia]|].
  destruct (N.eqb c RBRACKET); [eexists; eexists; split; [reflexivity|lia]|].
  rewrite <- Hr in *. clear Hr c r0.
  unfold localReadIdentifier, skipWhitespace.
  pose proof (length_dropWhile isBlank r) as H1.
  pose proof (length_takeWhile_dropWhile isIdentChar (dropWhile isBlank r)) as H2.
  destruct (takeWhile isIdentChar (dropWhile isBlank r)) as [|a attrName];
    [eexists; eexists; split; [reflexivity|cbn [length] in H2; lia]|].
  set (r2 := dropWhile isIdentChar (dropWhile isBlank r)) in *.
  pose proof (length_dropWhile isBlank r2) as H3.
  pose proof (length_readAttrValue (dropWhile isBlank r2)) as H4.
  destruct (readAttrValue (dropWhile isBlank r2)) as [value r4].
  cbn [snd] in H4.
  pose proof (length_dropWhile isBlank r4) as H5.
  cbn [length] in H2.
  destruct (IH (attributes ++ [(a :: attrName, value)]) (dropWhile isBlank r4))
    as (attrs' & r' & Hrun & Hlen); [lia|].
  exists attrs', r'. split; [exact Hrun|lia].
Qed.

Lemma readAttributeBlocks_total :
  forall fuel attributes r,
    (length r < fuel)%nat ->
    exists attributes' r', readAttributeBlocks fuel attributes r
                           = Done (attributes', r').
Proof.
  induction fuel as [|fuel IH]; intros attributes r Hfuel; [lia|].
  cbn [readAttributeBlocks]. destruct r as [|c r1]; [now eexists; eexists|].
  destruct (N.eqb c LBRACKET); [|now eexists; eexists].
  destruct (readAttributes_total (S (length r1)) attributes r1)
    as (attrs' & r2 & Hrun & Hlen); [lia|].
  rewrite Hrun. cbn [bind]. apply IH.
  unfold skipWhitespace.
  pose proof (length_dropWhile isBlank (skipChar RBRACKET r2)).
  pose proof (length_skipChar RBRACKET r2). cbn [length] in Hfuel. lia.
Qed.

Lemma parseTagLine_total p c s :
  isLetter c = true -> exists parsed, parseTagLine p (c :: s) = Done parsed.
Proof.
  intros Hc. unfold parseTagLine.
  destruct (trim_first_letter c s Hc) as (t & ->).
  unfold localReadIdentifier.
  set (r1 := dropWhile isIdentChar (c :: s)).
  destruct (readClasses_total (S (length r1)) [] r1) as (cls & r2 & ->); [lia|].
  cbn [bind]. destruct (readId r2) as [i r3].
  destruct (readAttributeBlocks_total (S (length r3)) [] r3)
    as (attrs & r4 & ->); [lia|].
  cbn [bind]. now eexists.
Qed.

(* ================================================================== *)
(** * parseTagLine on a block of plain entries *)
(* ================================================================== *)

Lemma atBoundary_stops r :
  atBoundary r ->
  match r with [] => True | c :: _ => isIdentChar c = false end /\
  match r with [] => True | c :: _ => isUnquotedChar c = false end /\
  match r with [] => True | c :: _ => c <> EQUALS end.
Proof.
  destruct r as [|c r]; [now repeat split|].
  intros [-> | ->]; repeat split; try reflexivity; discriminate.
Qed.

Lemma isIdentifier_head s r :
  isIdentifier s -> exists c t, s ++ r = c :: t /\ isIdentChar c = true.
Proof.
  intros [Hne Hall]. destruct s as [|c s]; [contradiction|].
  inversion Hall; subst. now exists c, (s ++ r).
Qed.

Lemma skipWhitespace_identifier s r :
  isIdentifier s -> skipWhitespace (s ++ r) = s ++ r.
Proof.
  intros Hs. destruct (isIdentifier_head s r Hs) as (c & t & -> & Hc).
  apply isIdentChar_facts in Hc as (Hb & _).
  unfold skipWhitespace. cbn [dropWhile]. now rewrite Hb.
Qed.

Lemma renderEntries_cons e es tail :
  renderEntries (e :: es) ++ tail = renderEntry e ++ afterEntry es tail.
Proof.
  unfold renderEntries, afterEntry. cbn [map join].
  destruct (map renderEntry es) as [|x xs] eqn:Hmap.
  - destruct es; [reflexivity | discriminate].
  - destruct es as [|e' es']; [discriminate|].
    rewrite <- Hmap. rewrite <- !app_assoc. reflexivity.
Qed.

Lemma afterEntry_boundary es tail :
  blockEnd tail -> atBoundary (afterEntry es tail).
Proof.
  intros Htail. destruct es; cbn [afterEntry atBoundary]; [|now left].
  destruct Htail as [->|(x & ->)]; cbn; [exact I | now right].
Qed.

Lemma renderEntry_head e r :
  wellFormedEntry e ->
  exists c t, renderEntry e ++ r = c :: t /\ isIdentChar c = true.
Proof.
  intros [Hname _]. unfold renderEntry.
  destruct (snd e); [rewrite <- app_assoc|]; now apply isIdentifier_head.
Qed.

Lemma skipWhitespace_afterEntry es tail :
  Forall wellFormedEntry es -> blockEnd tail ->
  skipWhitespace (afterEntry es tail) = renderEntries es ++ tail.
Proof.
  intros Hes Htail. destruct es as [|e es]; cbn [afterEntry].
  - destruct Htail as [->|(x & ->)]; reflexivity.
  - inversion Hes as [|? ? He Hes']; subst.
    unfold skipWhitespace. cbn [dropWhile]. cbn [isBlank]. 
    change (isBlank SPACE) with true. cbv iota.
    rewrite renderEntries_cons.
    destruct (renderEntry_head e (afterEntry es tail) He) as (c & t & -> & Hc).
    apply isIdentChar_facts in Hc as (Hb & _).
    cbn [dropWhile]. now rewrite Hb.
Qed.

Lemma length_afterEntry es tail :
  (length (renderEntries es ++ tail) <= length (afterEntry es tail))%nat.
Proof. destruct es; cbn [afterEntry length renderEntries map join app]; lia. Qed.

Lemma skipWhitespace_entries es tail :
  Forall wellFormedEntry es -> blockEnd tail ->
  skipWhitespace (renderEntries es ++ tail) = renderEntries es ++ tail.
Proof.
  intros Hes Htail. unfold skipWhitespace. destruct es as [|e es].
  - destruct Htail as [->|(x & ->)]; reflexivity.
  - inversion Hes as [|? ? He _]; subst. rewrite renderEntries_cons.
    destruct (renderEntry_head e (afterEntry es tail) He) as (c & t & -> & Hc).
    apply isIdentChar_facts in Hc as (Hb & _).
    cbn [dropWhile]. now rewrite Hb.
Qed.

(** One entry read by the loop of the block. *)
Lemma readAttrValue_entry e es tail :
  wellFormedEntry e -> Forall wellFormedEntry es -> blockEnd tail ->
  let r2 := match snd e with
            | None => afterEntry es tail
            | Some v => [EQUALS] ++ v ++ afterEntry es tail
            end in
  exists r4,
    readAttrValue (skipWhitespace r2) = (snd (entryAttribute e), r4) /\
    skipWhitespace r4 = renderEntries es ++ tail.
Proof.
  intros [Hname Hvalue] Hes Htail r2.
  pose proof (afterEntry_boundary es tail Htail) as Hbound.
  pose proof (skipWhitespace_afterEntry es tail Hes Htail) as Hskip.
  unfold entryAttribute. subst r2. destruct (snd e) as [v|]; cbn [snd].
  - (* name=value *)
    destruct Hvalue as [Hall Hquote].
    destruct v as [|q t]; [contradiction|]. destruct Hquote as [Hdq Hsq].
    assert (Hblank : isBlank q = false).
    { inversion Hall as [|? ? Hq _]; subst. unfold isUnquotedChar in Hq.
      apply andb_true_iff in Hq as [Hq Htab].
      apply andb_true_iff in Hq as [_ Hspace]. unfold isBlank.
      apply negb_true_iff in Hspace, Htab. now rewrite Hspace, Htab. }
    assert (Hsw : skipWhitespace ((q :: t) ++ afterEntry es tail)
                  = (q :: t) ++ afterEntry es tail).
    { unfold skipWhitespace. cbn [app dropWhile]. now rewrite Hblank. }
    change (skipWhitespace ([EQUALS] ++ (q :: t) ++ afterEntry es tail))
      with ([EQUALS] ++ (q :: t) ++ afterEntry es tail).
    cbn [app readAttrValue]. rewrite N.eqb_refl.
    change (q :: t ++ afterEntry es tail)
      with ((q :: t) ++ afterEntry es tail).
    rewrite Hsw. cbn [app].
    apply N.eqb_neq in Hdq, Hsq. rewrite Hdq, Hsq. cbn [orb].
    change (q :: t ++ afterEntry es tail)
      with ((q :: t) ++ afterEntry es tail).
    destruct (span_app isUnquotedChar (q :: t) (afterEntry es tail))
      as [-> ->]; [exact Hall | now apply atBoundary_stops | now eexists].
  - (* a bare name *)
    rewrite Hskip.
    exists (renderEntries es ++ tail). split.
    + unfold readAttrValue.
      destruct es as [|e' es'].
      * destruct Htail as [->|(x & ->)]; reflexivity.
      * inversion Hes as [|? ? He' _]; subst. rewrite renderEntries_cons.
        destruct (renderEntry_head e' (afterEntry es' tail) He')
          as (c & t & -> & Hc).
        apply isIdentChar_facts in Hc as (_ & _ & _ & Heq & _).
        apply N.eqb_neq in Heq. now rewrite Heq.
    + now apply skipWhitespace_entries.
Qed.

Lemma readAttributes_entries :
  forall es fuel attributes tail,
    Forall wellFormedEntry es -> blockEnd tail ->
    (length (renderEntries es ++ tail) < fuel)%nat ->
    readAttributes fuel attributes (renderEntries es ++ tail)
    = Done (attributes ++ map entryAttribute es, tail).
Proof.
  induction es as [|e es IH]; intros fuel attributes tail Hes Htail Hfuel;
    (destruct fuel as [|fuel]; [lia|]).
  - cbn [renderEntries map join app]. rewrite app_nil_r.
    destruct Htail as [->|(x & ->)]; reflexivity.
  - inversion Hes as [|? ? He Hes']; subst.
    rewrite renderEntries_cons in *.
    set (R := afterEntry es tail) in *.
    pose proof (afterEntry_boundary es tail Htail) as Hbound. fold R in Hbound.
    destruct (renderEntry_head e R He) as (c & t & Hhead & Hc).
    pose proof (isIdentChar_facts c Hc) as (Hblank & _ & Hrb & _).
    (* the entry is [fst e] followed by [R'] *)
    set (R' := match snd e with
               | None => R
               | Some v => [EQUALS] ++ v ++ R
               end).
    assert (Hsplit : renderEntry e ++ R = fst e ++ R').
    { unfold renderEntry, R'. destruct (snd e); [|reflexivity].
      now rewrite <- !app_assoc. }
    destruct He as [Hname Hvalue].
    assert (Hspan : takeWhile isIdentChar (fst e ++ R') = fst e /\
                    dropWhile isIdentChar (fst e ++ R') = R').
    { apply span_app; [apply Hname|]. unfold R'.
      destruct (snd e); [reflexivity|]. now apply atBoundary_stops. }
    destruct Hspan as [Htake Hdrop].
    destruct (readAttrValue_entry e es tail (conj Hname Hvalue) Hes' Htail)
      as (r4 & Hval & Hr4).
    fold R in Hval. fold R' in Hval.
    (* one round of the loop *)
    cbn [readAttributes]. rewrite Hhead.
    apply N.eqb_neq in Hrb. rewrite Hrb.
    unfold skipWhitespace at 1. cbn [dropWhile]. rewrite Hblank.
    rewrite <- Hhead, Hsplit. unfold localReadIdentifier.
    rewrite Htake, Hdrop.
    destruct (fst e) as [|a n] eqn:Hfst; [now destruct Hname|].
    rewrite Hval, Hr4.
    rewrite IH; [|assumption|assumption|].
    + rewrite <- app_assoc. cbn [map app]. do 3 f_equal.
      unfold entryAttribute. rewrite Hfst. now destruct (snd e).
    + pose proof (length_afterEntry es tail). fold R in H.
      rewrite Hsplit, length_app in Hfuel. cbn [length] in Hfuel. 
      assert (length R <= length R')%nat.
      { unfold R'. destruct (snd e); [rewrite !length_app|]; lia. }
      lia.
Qed.

(* ================================================================== *)
(** * parseChildren on lines *)
(* ================================================================== *)

Lemma advanced_refl k X : advanced k X X.
Proof. exists []. split; [reflexivity | constructor]. Qed.

Lemma advanced_trans k X Y Z :
  advanced k X Y -> advanced k Y Z -> advanced k X Z.
Proof.
  intros (pre1 & -> & H1) (pre2 & -> & H2). exists (pre1 ++ pre2).
  split; [now rewrite app_assoc | now apply Forall_app].
Qed.

Lemma loopTakes_weaken k k' l : k' <= k -> loopTakes k l = true -> loopTakes k' l = true.
Proof.
  unfold loopTakes. destruct l; [reflexivity|].
  rewrite !Z.ltb_lt. lia.
Qed.

Lemma advanced_weaken k k' X Y : k' <= k -> advanced k X Y -> advanced k' X Y.
Proof.
  intros Hk (pre & -> & Hpre). exists pre. split; [reflexivity|].
  eapply Forall_impl; [|exact Hpre]. intros l. now apply loopTakes_weaken.
Qed.

Lemma advanced_cons k l X : loopTakes k l = true -> advanced k (l :: X) X.
Proof. intros Hl. exists [l]. split; [reflexivity | now constructor]. Qed.

Lemma advanced_dropWhile k X : advanced k X (dropWhile (loopTakes k) X).
Proof.
  induction X as [|l X IH]; [apply advanced_refl|].
  cbn [dropWhile]. destruct (loopTakes k l) eqn:Hl; [|apply advanced_refl].
  eapply advanced_trans; [now apply advanced_cons | exact IH].
Qed.

Lemma advanced_dropWhile_eq k X Y :
  advanced k X Y -> dropWhile (loopTakes k) X = dropWhile (loopTakes k) Y.
Proof.
  intros (pre & -> & Hpre). induction Hpre as [|l pre Hl _ IH]; [reflexivity|].
  cbn [app dropWhile]. now rewrite Hl.
Qed.

Lemma advanced_NLfree k X Y : NLfree X -> advanced k X Y -> NLfree Y.
Proof. intros Hfree (pre & -> & _). now apply Forall_app in Hfree. Qed.

Lemma advanced_length k X Y :
  advanced k X Y -> (length (unlines Y) <= length (unlines X))%nat.
Proof.
  intros (pre & -> & _). induction pre as [|l pre IH]; [cbn [app]; lia|].
  cbn [app]. pose proof (length_unlines_tail l (pre ++ Y)). lia.
Qed.

(** [skipNewline] at the start of a line skips it when it is empty. *)
Lemma skipNewline_lines k p Y :
  NLfree Y -> rest p = unlines Y ->
  exists p' Y',
    skipNewline p = Done p' /\ rest p' = unlines Y' /\ advanced k Y Y'.
Proof.
  intros Hfree Hrest. destruct Y as [|[|c l] ls].
  - destruct (skipNewline_done p) as (p' & Hp & Hr).
    exists p', []. rewrite Hr, Hrest. repeat split; [assumption|].
    apply advanced_refl.
  - destruct (skipNewline_end_of_line p ls Hrest) as (p' & Hp & Hr).
    exists p', ls. repeat split; try assumption. now apply advanced_cons.
  - destruct (skipNewline_done p) as (p' & Hp & Hr).
    destruct (NLfree_head_not_NL c l ls _ Hfree (eq_sym Hrest))
      as (r' & Hr' & Hc).
    exists p', ((c :: l) :: ls). repeat split; [assumption| |apply advanced_refl].
    rewrite Hr, <- Hrest, Hr'. unfold skipChar.
    apply N.eqb_neq in Hc. now rewrite Hc.
Qed.

Section OneLine.
Variables (fuel : nat) (currentIndent : Z) (ls : list str) (p : Parser).
Hypothesis Hfree : NLfree ls.
Hypothesis Hrest : rest p = unlines ([] :: ls).
Hypothesis Hfuel : (length (unlines ([] :: ls)) < fuel)%nat.

Let Hfree0 : NLfree ([] :: ls).
Proof. constructor; [intros []|exact Hfree]. Qed.

Lemma parsePipeLine_lines ln :
  exists textContent p1 Y1,
    parsePipeLine fuel currentIndent ln p = Done (textContent, p1) /\
    rest p1 = unlines Y1 /\ advanced currentIndent ([] :: ls) Y1.
Proof.
  unfold parsePipeLine.
  destruct ln as [|first [|second more]].
  - do 3 eexists. repeat split; [exact Hrest | apply advanced_refl].
  - destruct (parseMultilineText_lines currentIndent fuel p ([] :: ls)
                Hfree0 Hrest Hfuel) as (p1 & Hrun & Hp1).
    do 3 eexists. split; [exact Hrun|]. split; [exact Hp1|].
    apply advanced_dropWhile.
  - destruct (N.eqb second SPACE);
      do 3 eexists; repeat split; try exact Hrest; apply advanced_refl.
Qed.

Lemma parseInlineContent_lines content :
  exists kids p1 Y1,
    parseInlineContent fuel currentIndent content p = Done (kids, p1) /\
    rest p1 = unlines Y1 /\ advanced currentIndent ([] :: ls) Y1.
Proof.
  unfold parseInlineContent.
  destruct content as [c|];
    [|do 3 eexists; repeat split; [exact Hrest | apply advanced_refl]].
  destruct (str_eqb c [PIPE]).
  - destruct (skipNewline_end_of_line p ls Hrest) as (p1 & Hskip & Hp1).
    rewrite Hskip. cbn [bind].
    assert (Hstep : advanced currentIndent ([] :: ls) ls)
      by now apply advanced_cons.
    destruct (getIndentLevel p1 >? currentIndent).
    + destruct (parseMultilineText_lines currentIndent fuel p1 ls
                  Hfree Hp1) as (p2 & Hrun & Hp2).
      { pose proof (length_unlines_tail [] ls). lia. }
      rewrite Hrun. cbn [bind]. do 3 eexists.
      split; [reflexivity|]. split; [exact Hp2|].
      eapply advanced_trans; [exact Hstep | apply advanced_dropWhile].
    + do 3 eexists. split; [reflexivity|]. split; [exact Hp1 | exact Hstep].
  - destruct c; do 3 eexists; repeat split; try exact Hrest;
      apply advanced_refl.
Qed.

Variable parseDeeper : Z -> Parser -> outcome (list ASTNode * Parser).
Hypothesis Hdeeper :
  forall q Y,
    NLfree Y -> rest q = unlines Y -> (length (unlines Y) < fuel)%nat ->
    exists nodes q',
      parseDeeper currentIndent q = Done (nodes, q') /\
      rest q' = unlines (dropWhile (loopTakes currentIndent) Y).

Lemma parseLine_lines c0 t :
  exists node p3 Y3,
    parseLine fuel parseDeeper currentIndent (c0 :: t) p = Done (node, p3) /\
    rest p3 = unlines Y3 /\ advanced currentIndent ([] :: ls) Y3.
Proof.
  unfold parseLine.
  destruct (startsWith (lit "!DOCTYPE ") (c0 :: t));
    [do 3 eexists; repeat split; [exact Hrest | apply advanced_refl]|].
  destruct (startsWith [PIPE] (c0 :: t)).
  { destruct (parsePipeLine_lines (c0 :: t)) as (txt & p1 & Y1 & -> & H1 & H2).
    cbn [bind]. do 3 eexists. split; [reflexivity|].
    split; [exact H1 | exact H2]. }
  destruct (isLetter c0) eqn:Hletter;
    [|do 3 eexists; repeat split; [exact Hrest | apply advanced_refl]].
  destruct (parseTagLine_total p c0 t Hletter) as (parsed & ->).
  cbn [bind].
  destruct (parseInlineContent_lines (Parsed.content parsed))
    as (kids & p1 & Y1 & -> & Hp1 & Hadv1).
  cbn [bind].
  pose proof (advanced_NLfree _ _ _ Hfree0 Hadv1) as Hfree1.
  destruct (skipNewline_lines currentIndent p1 Y1 Hfree1 Hp1)
    as (p2 & Y2 & -> & Hp2 & Hadv2).
  cbn [bind].
  pose proof (advanced_trans _ _ _ _ Hadv1 Hadv2) as Hadv.
  destruct (atEnd p2);
    [cbn [bind]; do 3 eexists; split; [reflexivity|];
     split; [exact Hp2 | exact Hadv]|].
  destruct (getIndentLevel p2 >? currentIndent);
    [|cbn [bind]; do 3 eexists; split; [reflexivity|];
      split; [exact Hp2 | exact Hadv]].
  destruct (Hdeeper p2 Y2) as (nodes & p3 & -> & Hp3).
  - now apply (advanced_NLfree currentIndent ([] :: ls)).
  - exact Hp2.
  - pose proof (advanced_length _ _ _ Hadv). lia.
  - cbn [bind]. do 3 eexists. split; [reflexivity|]. split; [exact Hp3|].
    eapply advanced_trans; [exact Hadv | apply advanced_dropWhile].
Qed.
End OneLine.

Lemma childrenLoop_lines :
  forall fuel parentIndent children p X,
    NLfree X -> rest p = unlines X -> (length (unlines X) < fuel)%nat ->
    exists nodes p',
      childrenLoop fuel parentIndent children p = Done (nodes, p') /\
      rest p' = unlines (dropWhile (loopTakes parentIndent) X).
Proof.
  induction fuel as [|fuel IH]; intros parentIndent children p X Hfree Hrest Hfuel;
    [lia|].
  cbn [childrenLoop].
  destruct X as [|[|c l] ls].
  - replace (atEnd p) with true by (symmetry; now apply atEnd_iff).
    now exists children, p.
  - (* an empty line *)
    destruct ls as [|l2 ls].
    + replace (atEnd p) with true by (symmetry; now apply atEnd_iff).
      now exists children, p.
    + rewrite unlines_empty_cons in Hrest.
      unfold atEnd, peekIs, peek, advance. rewrite Hrest, N.eqb_refl. cbn [bind].
      inversion Hfree as [|? ? _ Hfree']; subst.
      change (dropWhile (loopTakes parentIndent) ([] :: l2 :: ls))
        with (dropWhile (loopTakes parentIndent) (l2 :: ls)).
      apply (IH parentIndent children _ (l2 :: ls));
        [exact Hfree' | reflexivity|].
      rewrite unlines_empty_cons in Hfuel. cbn [length] in Hfuel. lia.
  - (* a line with a first character *)
    inversion Hfree as [|? ? Hl Hfree']; subst.
    destruct (NLfree_head_not_NL c l ls _ Hfree (eq_sym Hrest))
      as (r' & Hr' & Hc).
    unfold atEnd at 1, peekIs at 1, peek at 1. rewrite Hr'.
    apply N.eqb_neq in Hc. rewrite Hc.
    unfold getIndentLevel. rewrite Hrest, countSpaces_line by assumption.
    cbn [dropWhile loopTakes].
    destruct (Z.leb_spec (countSpaces (c :: l)) parentIndent) as [Hle|Hgt].
    { replace (parentIndent <? countSpaces (c :: l)) with false
        by (symmetry; apply Z.ltb_ge; lia).
      now exists children, p. }
    replace (parentIndent <? countSpaces (c :: l)) with true
      by (symmetry; apply Z.ltb_lt; lia).
    destruct (readLine_skipIndentation p (c :: l) ls Hl Hrest) as [_ Hp2].
    destruct (readLine (skipIndentation p)) as [raw p2]. cbn [snd] in Hp2.
    assert (Hshort : (length (unlines ([] :: ls)) < fuel)%nat).
    { pose proof (length_unlines_nonempty_line c l ls). lia. }
    assert (Hfree0 : NLfree ([] :: ls)) by (constructor; [intros []|exact Hfree']).
    destruct (trim raw) as [|c0 t].
    + destruct (skipNewline_end_of_line p2 ls Hp2) as (p3 & -> & Hp3).
      cbn [bind]. apply (IH parentIndent children p3 ls);
        [exact Hfree' | exact Hp3|].
      pose proof (length_unlines_tail [] ls). lia.
    + destruct (parseLine_lines fuel (countSpaces (c :: l)) ls p2 Hfree' Hp2
                  Hshort (fun indent q => childrenLoop fuel indent [] q)
                  (fun q Y HY Hq Hlen => IH _ [] q Y HY Hq Hlen) c0 t)
        as (node & p3 & Y3 & -> & Hp3 & Hadv3).
      cbn [bind].
      pose proof (advanced_NLfree _ _ _ Hfree0 Hadv3) as Hfree3.
      destruct (skipNewline_lines (countSpaces (c :: l)) p3 Y3 Hfree3 Hp3)
        as (p4 & Y4 & -> & Hp4 & Hadv4).
      cbn [bind].
      pose proof (advanced_trans _ _ _ _ Hadv3 Hadv4) as Hadv.
      destruct (IH parentIndent (children ++ [node]) p4 Y4)
        as (nodes & p' & Hrun & Hp').
      * now apply (advanced_NLfree _ _ _ Hfree0 Hadv).
      * exact Hp4.
      * pose proof (advanced_length _ _ _ Hadv). lia.
      * exists nodes, p'. split; [exact Hrun|]. rewrite Hp'. f_equal.
        apply (advanced_weaken _ parentIndent) in Hadv; [|lia].
        now rewrite <- (advanced_dropWhile_eq _ _ _ Hadv).
Qed.

(** A tag line followed by a non-empty line that is not indented deeper:
    the tag keeps the children of its own line only, and the following
    line stays unread. *)
Lemma tagLine_before_dedent fuel parseDeeper currentIndent c0 t p next more :
  isLetter c0 = true ->
  NLfree (next :: more) -> next <> [] -> countSpaces next <= currentIndent ->
  rest p = unlines ([] :: next :: more) ->
  exists parsed p',
    parseTagLine p (c0 :: t) = Done parsed /\
    parseLine fuel parseDeeper currentIndent (c0 :: t) p
    = Done (TagNode (Parsed.name parsed) (Parsed.classes parsed)
                    (Parsed.id parsed) (Parsed.attributes parsed)
                    (ownLineChildren (Parsed.content parsed))
                    (includesStr selfClosingNames (Parsed.name parsed)),
            p') /\
    rest p' = unlines (next :: more).
Proof.
  intros Hletter Hfree Hnext Hindent Hrest.
  destruct (parseTagLine_total p c0 t Hletter) as (parsed & Hparsed).
  destruct next as [|n0 next']; [contradiction|].
  destruct (NLfree_head_not_NL n0 next' more _ Hfree eq_refl)
    as (r' & Hr' & Hn0).
  apply N.eqb_neq in Hn0.
  assert (Hline : forall q, rest q = unlines ((n0 :: next') :: more) ->
            skipNewline q = Done q /\ atEnd q = false /\
            (getIndentLevel q >? currentIndent) = false).
  { intros q Hq. unfold skipNewline, peekIs, peek, atEnd, getIndentLevel.
    rewrite Hq, Hr', Hn0. rewrite <- Hr'.
    inversion Hfree; subst. rewrite countSpaces_line by assumption.
    repeat split. rewrite Z.gtb_ltb. apply Z.ltb_ge. lia. }
  destruct (skipNewline_end_of_line p _ Hrest) as (q0 & Hskip0 & Hq0).
  destruct (Hline q0 Hq0) as (Hskip1 & Hend1 & Hind1).
  assert (Hstart : startsWith (lit "!DOCTYPE ") (c0 :: t) = false).
  { cbn [startsWith lit map list_ascii_of_string].
    destruct (N.eqb_spec (N_of_ascii "!") c0) as [<-|]; [discriminate|].
    reflexivity. }
  assert (Hpipe : startsWith [PIPE] (c0 :: t) = false).
  { cbn [startsWith]. destruct (N.eqb_spec PIPE c0) as [<-|]; [discriminate|].
    reflexivity. }
  exists parsed, q0. split; [exact Hparsed|]. split; [|exact Hq0].
  unfold parseLine. rewrite Hstart, Hpipe, Hletter, Hparsed. cbn [bind].
  unfold parseInlineContent, ownLineChildren.
  destruct (Parsed.content parsed) as [c|].
  - destruct (str_eqb c [PIPE]).
    + rewrite Hskip0. cbn [bind]. rewrite Hind1. cbv iota. cbn [bind].
      rewrite Hskip1. cbn [bind]. rewrite Hend1, Hind1. reflexivity.
    + destruct c; cbv iota; cbn [bind]; rewrite Hskip0; cbn [bind];
        rewrite Hend1, Hind1; reflexivity.
  - cbn [bind]. rewrite Hskip0. cbn [bind]. rewrite Hend1, Hind1. reflexivity.
Qed.

(* ================================================================== *)
(** * parse always returns *)
(* ================================================================== *)

Lemma parse_total (p : Parser) : exists nodes, parse p = Done nodes.
Proof.
  unfold parse, parseChildren.
  destruct (childrenLoop_lines (S (length (rest p))) (-1) [] p
              (splitLines (rest p))) as (nodes & p' & Hrun & _).
  - apply splitLines_NLfree.
  - now rewrite unlines_splitLines.
  - rewrite <- length_rest_unlines. lia.
  - rewrite Hrun. cbn [bind]. now exists nodes.
Qed.

(** Once the constructor has accepted the input, no error is raised. *)
Lemma parseSource_total (input : str) (p : Parser) :
  constructor input = Done p -> exists nodes, parseSource input = Done nodes.
Proof.
  intros Hp. unfold parseSource. rewrite Hp. cbn [bind]. apply parse_total.
Qed.

(* ================================================================== *)
(** * Self-closing tags in the parsed tree *)
(* ================================================================== *)

Lemma selfClosingByName_tag name classes id attributes children selfClosing :
  selfClosingByName (TagNode name classes id attributes children selfClosing)
  <-> (selfClosing = true <-> In name selfClosingNames) /\
      Forall selfClosingByName children.
Proof.
  cbn [selfClosingByName].
  assert (Hall : forall cs,
    (fix all (cs : list ASTNode) : Prop :=
       match cs with
       | [] => True
       | c :: cs' => selfClosingByName c /\ all cs'
       end) cs <-> Forall selfClosingByName cs).
  { induction cs as [|c cs IH]; split; intros H.
    - constructor.
    - exact I.
    - destruct H as [Hc Hcs]. constructor; [exact Hc | now apply IH].
    - inversion H; subst. split; [assumption | now apply IH]. }
  now rewrite Hall.
Qed.

Lemma parseInlineContent_texts fuel currentIndent content p kids p' :
  parseInlineContent fuel currentIndent content p = Done (kids, p') ->
  Forall selfClosingByName kids.
Proof.
  unfold parseInlineContent. intros H.
  destruct content as [c|]; [|injection H as <- _; constructor].
  destruct (str_eqb c [PIPE]).
  - apply bind_Done in H as (p1 & _ & H).
    destruct (getIndentLevel p1 >? currentIndent);
      [|injection H as <- _; constructor].
    apply bind_Done in H as ([t p2] & _ & H). injection H as <- _.
    repeat constructor.
  - destruct c; injection H as <- _; repeat constructor.
Qed.

Lemma parseLine_selfClosing fuel parseDeeper currentIndent ln p node p' :
  (forall indent q nodes q',
     parseDeeper indent q = Done (nodes, q') ->
     Forall selfClosingByName nodes) ->
  parseLine fuel parseDeeper currentIndent ln p = Done (node, p') ->
  selfClosingByName node.
Proof.
  intros Hdeeper. unfold parseLine. intros H.
  destruct (startsWith (lit "!DOCTYPE ") ln); [injection H as <- _; exact I|].
  destruct (startsWith [PIPE] ln).
  { apply bind_Done in H as ([t p1] & _ & H). injection H as <- _. exact I. }
  destruct (match ln with c :: _ => isLetter c | [] => false end);
    [|injection H as <- _; exact I].
  apply bind_Done in H as (parsed & _ & H).
  apply bind_Done in H as ([kids p1] & Hkids & H).
  apply bind_Done in H as (p2 & _ & H).
  apply bind_Done in H as ([deeper p3] & Hdeep & H).
  injection H as <- _.
  apply selfClosingByName_tag.
  split; [exact (includesStr_spec selfClosingNames (Parsed.name parsed))|].
  apply Forall_app. split.
  - eapply parseInlineContent_texts; eassumption.
  - destruct (atEnd p2); [injection Hdeep as <- _; constructor|].
    destruct (getIndentLevel p2 >? currentIndent);
      [|injection Hdeep as <- _; constructor].
    eapply Hdeeper; eassumption.
Qed.

Lemma childrenLoop_selfClosing :
  forall fuel parentIndent children p nodes p',
    Forall selfClosingByName children ->
    childrenLoop fuel parentIndent children p = Done (nodes, p') ->
    Forall selfClosingByName nodes.
Proof.
  induction fuel as [|fuel IH]; intros parentIndent children p nodes p' Hacc H;
    [discriminate|].
  cbn [childrenLoop] in H.
  destruct (atEnd p); [now injection H as <- _|].
  destruct (peekIs NL p).
  { apply bind_Done in H as ([c p1] & _ & H). eapply IH; eassumption. }
  destruct (getIndentLevel p <=? parentIndent); [now injection H as <- _|].
  destruct (readLine (skipIndentation p)) as [raw p2].
  destruct (trim raw) as [|c0 t].
  { apply bind_Done in H as (p3 & _ & H). eapply IH; eassumption. }
  apply bind_Done in H as ([node p3] & Hnode & H).
  apply bind_Done in H as (p4 & _ & H).
  eapply IH; [|exact H].
  apply Forall_app. split; [exact Hacc|]. constructor; [|constructor].
  eapply parseLine_selfClosing; [|exact Hnode].
  intros indent q nodes' q' Hq. eapply IH; [constructor | exact Hq].
Qed.

(* ================================================================== *)
(** * C1: self-closing nodes *)
(* ================================================================== *)

(** C1, as stated, fails in its second half: the parser gives a
    self-closing tag children like any other tag. [br: hello] becomes a
    self-closing [br] with a text child, and the indented block after
    [input[type="text"]] is read as the children of the [input]. *)
Lemma C1_counterexample :
  parseSource (lit "br: hello")
  = Done [TagNode (lit "br") [] None [] [TextNode (lit "hello")] true] /\
  parseSource (lit "input[type=" ++ [DQUOTE] ++ lit "text" ++ [DQUOTE]
               ++ lit "]" ++ [NL] ++ lit "  p: x")
  = Done [TagNode (lit "input") [] None [(lit "type", StringValue (lit "text"))]
            [TagNode (lit "p") [] None [] [TextNode (lit "x")] false] true].
Proof. split; reflexivity. Qed.

(** C1, amended: every input the constructor accepts is parsed into a
    tree in which every tag node has [selfClosing == true] exactly when
    its name is one of [br], [hr], [img], [input], [meta], [link],
    [source]. (Whether a self-closing node has children is not
    constrained.) *)
Theorem C1_selfClosing_by_name (input : str) (p : Parser) :
  constructor input = Done p ->
  exists nodes,
    parseSource input = Done nodes /\ Forall selfClosingByName nodes.
Proof.
  intros Hp. destruct (parseSource_total input p Hp) as (nodes & H).
  exists nodes. split; [exact H|].
  unfold parseSource in H.
  apply bind_Done in H as (p0 & _ & H). unfold parse, parseChildren in H.
  apply bind_Done in H as ([nodes' p'] & Hrun & H). injection H as <-.
  eapply childrenLoop_selfClosing; [constructor | exact Hrun].
Qed.

Lemma C1_selfClosing_by_name_witness :
  exists nodes,
    parseSource (lit "br: hello") = Done nodes /\
    Forall selfClosingByName nodes.
Proof.
  exact (C1_selfClosing_by_name (lit "br: hello")
           (mkParser (lit "br: hello") 1 1) eq_refl).
Defined.

(* ================================================================== *)
(** * C2: the number of attributes in a block *)
(* ================================================================== *)

(** C2: the parser accepts a block of 51 attributes. [maxAttributes] is
    declared with the value 50 and never compared with anything. No
    number of attributes raises an error: once the constructor has
    accepted the input, [parse] returns a tree. *)
Theorem C2_no_attribute_limit :
  Z.of_nat (length fiftyOneNames) = 51 /\
  Z.of_nat (length fiftyOneNames) > maxAttributes /\
  parseSource fiftyOneAttributes
  = Done [TagNode (lit "t") [] None
            (map (fun name => (name, BoolValue true)) fiftyOneNames)
            [] false] /\
  (forall input p,
     constructor input = Done p ->
     exists nodes, parseSource input = Done nodes).
Proof.
  split; [reflexivity|]. split; [reflexivity|]. split; [reflexivity|].
  exact parseSource_total.
Qed.

(* ================================================================== *)
(** * C3: the length of identifiers *)
(* ================================================================== *)

(** C3: the parser accepts an identifier of 101 characters as a tag name,
    as a class, as an id and as an attribute name, because [parseTagLine]
    reads identifiers with its own unbounded [readIdentifier]. The
    [readIdentifier] of the class, which [parse] never calls, raises the
    parse error on the same text. *)
Theorem C3_no_identifier_limit :
  jsLength longIdentifier = 101 /\
  parseSource longIdentifier
  = Done [TagNode longIdentifier [] None [] [] false] /\
  parseSource (lit "p." ++ longIdentifier)
  = Done [TagNode (lit "p") [longIdentifier] None [] [] false] /\
  parseSource (lit "p#" ++ longIdentifier)
  = Done [TagNode (lit "p") [] (Some longIdentifier) [] [] false] /\
  parseSource (lit "p[" ++ longIdentifier ++ lit "]")
  = Done [TagNode (lit "p") [] None [(longIdentifier, BoolValue true)] []
            false] /\
  readIdentifier (mkParser longIdentifier 1 1)
  = Raise (ParseError 1 101 (IdentifierTooLong 100)).
Proof. repeat split. Qed.

(* ================================================================== *)
(** * C4: unterminated attribute blocks *)
(* ================================================================== *)

(** C4, as stated, fails: [parseTagLine] closes a block and a quoted value
    only [if (peek() === ...)], so both the missing bracket and the
    missing quote are accepted in silence. *)
Lemma C4_counterexample :
  parseSource (lit "div[a=1 b")
  = Done [TagNode (lit "div") [] None
            [(lit "a", StringValue (lit "1")); (lit "b", BoolValue true)]
            [] false] /\
  parseSource (lit "div[a=" ++ [DQUOTE] ++ lit "1 b]: x")
  = Done [TagNode (lit "div") [] None
            [(lit "a", StringValue (lit "1 b]: x"))] [] false].
Proof. split; reflexivity. Qed.

(** On the quoted value of the second line, from its opening quote, the
    [readString] of the class, which [parse] never calls, raises the
    error that names the missing quote. *)
Example readString_unterminated :
  readString DQUOTE (mkParser ([DQUOTE] ++ lit "1 b]: x") 1 7)
  = Raise (ParseError 1 15 (UnterminatedString DQUOTE)).
Proof. reflexivity. Qed.

(** C4, amended: a tag line whose attribute block is missing its closing
    bracket is accepted, and it is parsed as the same line with the
    bracket: for a tag name and any attributes written as names or as
    [name=value] with unquoted values (a value is any run of one or more
    characters other than the space, the tab and the closing bracket
    that does not start with a quote), [parseTagLine] raises no error
    and returns the name and these attributes, whether the bracket is
    written or not. *)
Theorem C4_missing_bracket_accepted (p : Parser) (c : char) (t : str)
  (es : list Entry) :
  isLetter c = true -> Forall (fun x => isIdentChar x = true) t ->
  Forall wellFormedEntry es ->
  let expected := Parsed.mk (c :: t) [] None (map entryAttribute es) None in
  parseTagLine p ((c :: t) ++ [LBRACKET] ++ renderEntries es) = Done expected /\
  parseTagLine p ((c :: t) ++ [LBRACKET] ++ renderEntries es ++ [RBRACKET])
  = Done expected.
Proof.
  intros Hc Ht Hes expected.
  assert (Hname : Forall (fun x => isIdentChar x = true) (c :: t)).
  { constructor; [|exact Ht]. unfold isIdentChar. now rewrite Hc. }
  assert (Hline : forall tail,
    blockEnd tail -> skipWhitespace (skipChar RBRACKET tail) = [] ->
    parseTagLine p ((c :: t) ++ [LBRACKET] ++ renderEntries es ++ tail)
    = Done expected).
  { intros tail Htail Hclosed. unfold parseTagLine.
    cbn [app]. destruct (trim_first_letter c (t ++ LBRACKET :: renderEntries es ++ tail) Hc)
      as (t' & ->).
    unfold localReadIdentifier.
    change (c :: t ++ LBRACKET :: renderEntries es ++ tail)
      with ((c :: t) ++ LBRACKET :: renderEntries es ++ tail).
    destruct (span_app isIdentChar (c :: t)
                (LBRACKET :: renderEntries es ++ tail) Hname eq_refl)
      as [-> ->].
    cbn [length readClasses]. change (N.eqb LBRACKET DOT) with false.
    cbn [bind readId]. change (N.eqb LBRACKET HASH) with false.
    cbn [length readAttributeBlocks]. rewrite N.eqb_refl.
    rewrite readAttributes_entries; [|assumption|assumption|lia].
    cbn [bind app]. rewrite Hclosed. reflexivity. }
  split.
  - rewrite <- (app_nil_r (renderEntries es)). apply Hline; [now left|reflexivity].
  - apply Hline; [right; now exists []|reflexivity].
Qed.

Lemma C4_missing_bracket_accepted_witness :
  let expected :=
    Parsed.mk (lit "a") [] None
      [(lit "href", StringValue (lit "/x.html"));
       (lit "hidden", BoolValue true)]
      None in
  parseTagLine (mkParser [] 1 1) (lit "a[href=/x.html hidden") = Done expected /\
  parseTagLine (mkParser [] 1 1) (lit "a[href=/x.html hidden]") = Done expected.
Proof.
  refine (C4_missing_bracket_accepted (mkParser [] 1 1) 97%N []
            twoEntries eq_refl _ _).
  - constructor.
  - repeat constructor; discriminate.
Defined.

(* ================================================================== *)
(** * C5: what the constructor rejects *)
(* ================================================================== *)

(** C5, as stated, fails: the size check of the constructor compares the
    number of UTF-16 code units of the string with 10 * 1024 * 1024, not
    its byte length. The text of 6 Mi characters U+00E9 takes 12 MiB in
    UTF-8, above the 10 MiB ceiling, and the constructor accepts it. *)
Lemma C5_counterexample :
  spec_byteLength sixMebiEAcute = 12 * 1024 * 1024 /\
  spec_byteLength sixMebiEAcute > maxInputLength /\
  constructor sixMebiEAcute = Done (mkParser (trim sixMebiEAcute) 1 1).
Proof.
  assert (Hlen : spec_byteLength sixMebiEAcute = 12 * 1024 * 1024).
  { unfold sixMebiEAcute. rewrite spec_byteLength_repeat_2 by reflexivity.
    rewrite sixMebi_Z. reflexivity. }
  assert (Hjs : jsLength sixMebiEAcute = 6 * 1024 * 1024).
  { unfold jsLength, sixMebiEAcute. rewrite repeat_length. apply sixMebi_Z. }
  split; [exact Hlen|]. split; [rewrite Hlen; reflexivity|].
  rewrite constructor_unfold, Hjs.
  change (6 * 1024 * 1024 =? 0) with false.
  change (6 * 1024 * 1024 >? maxInputLength) with false.
  cbv iota.
  replace (includesChar NUL sixMebiEAcute) with false
    by (symmetry; apply includesChar_repeat; discriminate).
  replace (includesChar U_FFFE sixMebiEAcute) with false
    by (symmetry; apply includesChar_repeat; discriminate).
  replace (includesChar U_FFFF sixMebiEAcute) with false
    by (symmetry; apply includesChar_repeat; discriminate).
  reflexivity.
Qed.

(** C5, amended: the constructor runs three checks in this order and
    nothing else can make it fail. Empty input is rejected as invalid
    input; otherwise input of more than 10 * 1024 * 1024 UTF-16 code units
    is rejected as too large; otherwise input that contains the code unit
    0, U+FFFE or U+FFFF is rejected as invalid input; every other input is
    accepted, and the parser starts on the trimmed text at line 1,
    column 1. *)
Theorem C5_constructor_checks (input : str) :
  (input = [] ->
   constructor input = Raise InvalidInput_notNonEmptyString) /\
  (input <> [] -> jsLength input > maxInputLength ->
   constructor input = Raise InputTooLarge) /\
  (input <> [] -> jsLength input <= maxInputLength ->
   In NUL input \/ In U_FFFE input \/ In U_FFFF input ->
   constructor input = Raise InvalidInput_forbiddenCharacters) /\
  (input <> [] -> jsLength input <= maxInputLength ->
   ~ In NUL input -> ~ In U_FFFE input -> ~ In U_FFFF input ->
   constructor input = Done (mkParser (trim input) 1 1)).
Proof.
  rewrite constructor_unfold.
  repeat split.
  - intros ->. reflexivity.
  - intros Hne Hbig.
    destruct (Z.eqb_spec (jsLength input) 0) as [H0|_];
      [apply jsLength_zero_iff in H0; contradiction|].
    destruct (Z.gtb_spec (jsLength input) maxInputLength); [reflexivity|lia].
  - intros Hne Hsmall Hbad.
    destruct (Z.eqb_spec (jsLength input) 0) as [H0|_];
      [apply jsLength_zero_iff in H0; contradiction|].
    destruct (Z.gtb_spec (jsLength input) maxInputLength); [lia|].
    replace (includesChar NUL input || includesChar U_FFFE input
             || includesChar U_FFFF input) with true; [reflexivity|].
    symmetry. rewrite !orb_true_iff, !includesChar_spec. tauto.
  - intros Hne Hsmall H0 H1 H2.
    destruct (Z.eqb_spec (jsLength input) 0) as [Hz|_];
      [apply jsLength_zero_iff in Hz; contradiction|].
    destruct (Z.gtb_spec (jsLength input) maxInputLength); [lia|].
    replace (includesChar NUL input || includesChar U_FFFE input
             || includesChar U_FFFF input) with false; [reflexivity|].
    symmetry. rewrite !orb_false_iff. repeat split;
      apply not_true_is_false; rewrite includesChar_spec; assumption.
Qed.

(** The constructor on small inputs. *)
Example constructor_outcomes :
  constructor [] = Raise InvalidInput_notNonEmptyString /\
  constructor (lit "p" ++ [NUL]) = Raise InvalidInput_forbiddenCharacters /\
  constructor (lit "p" ++ [U_FFFF]) = Raise InvalidInput_forbiddenCharacters /\
  constructor (lit "  div: hi" ++ [NL]) = Done (mkParser (lit "div: hi") 1 1).
Proof. repeat split. Qed.

(** An input of 11 Mi letters [a] is too large. *)
Example constructor_eleven_mebi :
  constructor (repeat 97%N (Z.to_nat (11 * 1024 * 1024))) = Raise InputTooLarge.
Proof.
  rewrite constructor_unfold. unfold jsLength.
  rewrite repeat_length, Z2Nat.id by lia. reflexivity.
Qed.

(* ================================================================== *)
(** * C6: the multiline block after a bare pipe *)
(* ================================================================== *)

Lemma rules_agree k X :
  Forall (fun l => loopTakes k l = spec_inBlock k l) X ->
  takeWhile (loopTakes k) X = takeWhile (spec_inBlock k) X /\
  dropWhile (loopTakes k) X = dropWhile (spec_inBlock k) X.
Proof.
  induction 1 as [|l X Hl _ [IH1 IH2]]; [now split|].
  cbn [takeWhile dropWhile]. rewrite Hl, IH1, IH2. now split.
Qed.

(** C6 does not hold on the code. The loop of [parseMultilineText] skips
    a line of length zero, but it measures every other line before it
    looks whether the line is blank: a line of white space only that is
    not indented deeper than the pipe ends the block. The two texts
    below have the same lines apart from a line of two spaces; for the
    first one the block is the text of both lines, as the claim says; for
    the second one the block ends after its first line, and the second
    line is parsed as a tag. Whenever no such line stands in the way (the
    rule of the loop and the rule of the claim agree on the lines of the
    input), [parseMultilineText] does what the claim says: it returns the
    lines of the block, trimmed, without the blank ones, joined by
    newlines, it stops in front of the first line that is not blank and
    not indented deeper than [k], and a bare pipe at indentation [k]
    gets this text as its one [Text] node. *)
Theorem C6_blank_line_ends_block :
  nonBlankLines pipeBlockWithBlankLine = nonBlankLines pipeBlock /\
  parseSource pipeBlock
  = Done [TagNode (lit "div") [] None []
            [TextNode (lit "first" ++ [NL] ++ lit "second")] false] /\
  parseSource pipeBlockWithBlankLine
  = Done [TagNode (lit "div") [] None []
            [TextNode (lit "first");
             TagNode (lit "second") [] None [] [] false] false] /\
  join [NL] (spec_blockLines 2 [lit "    first"; lit "  "; lit "    second"])
  = lit "first" ++ [NL] ++ lit "second" /\
  (forall (k : Z) (p : Parser) (fuel : nat),
     (length (rest p) < fuel)%nat ->
     Forall (fun l => loopTakes k l = spec_inBlock k l) (splitLines (rest p)) ->
     let following := splitLines (rest p) in
     let text := join [NL] (spec_blockLines k following) in
     exists p',
       parseMultilineText fuel k p = Done (text, p') /\
       rest p' = join [NL] (dropWhile (spec_inBlock k) following) /\
       forall parseDeeper,
         parseLine fuel parseDeeper k [PIPE] p = Done (TextNode text, p')).
Proof.
  split; [reflexivity|]. split; [reflexivity|]. split; [reflexivity|].
  split; [reflexivity|].
  intros k p fuel Hfuel Hagree following text.
  destruct (rules_agree k following Hagree) as [Htake Hdrop].
  destruct (parseMultilineText_lines k fuel p following) as (p' & Hrun & Hp').
  - apply splitLines_NLfree.
  - subst following. now rewrite unlines_splitLines.
  - subst following. now rewrite <- length_rest_unlines.
  - unfold takenLines in Hrun. rewrite Htake in Hrun. rewrite Hdrop in Hp'.
    exists p'. split; [exact Hrun|]. split; [exact Hp'|].
    intros parseDeeper. unfold parseLine, parsePipeLine.
    cbn [startsWith lit]. subst text. unfold spec_blockLines.
    rewrite Hrun. reflexivity.
Qed.

(** The block of [blockExample]: a deeper line, an empty line, a deeper
    line of spaces, a second deeper line, and a line at the indentation
    of the pipe, which ends the block. *)
Example multiline_block :
  exists p',
    parseMultilineText 100 2 blockExample
      = Done (lit "first" ++ [NL] ++ lit "second", p') /\
    rest p' = lit "  third" ++ [NL] ++ lit "last" /\
    forall parseDeeper,
      parseLine 100 parseDeeper 2 [PIPE] blockExample
      = Done (TextNode (lit "first" ++ [NL] ++ lit "second"), p').
Proof.
  eexists. split; [reflexivity|]. split; [reflexivity|].
  intros parseDeeper. reflexivity.
Qed.

(** With Windows line ends every blank line holds a carriage return, a
    line of white space only at indentation 0: the second paragraph is
    no child of the [div]. *)
Example blank_line_of_a_windows_text :
  parseSource windowsText
  = Done [TagNode (lit "div") [] None []
            [TagNode (lit "p") [] None [] [TextNode (lit "a")] false] false;
          TagNode (lit "p") [] None [] [TextNode (lit "b")] false].
Proof. reflexivity. Qed.

(* ================================================================== *)
(** * C7: child collection *)
(* ================================================================== *)

(** C7 does not hold on the code, for the same reason as C6: the loop of
    [parseChildren] compares the indentation of every line that is not of
    length zero with that of the parent before it looks whether the line
    is blank, so a line of white space only that is not indented deeper
    than the parent ends the collection. The two texts below have the
    same lines that are not blank; in the first one [d] is a child of
    [b], as the claim says; in the second one the collection of the
    children of [b] stops in front of the line of two spaces, and [d]
    becomes a child of [a]. What the claim says of a line that is not
    blank holds: in front of a line that is not empty and not indented
    deeper than the parent, the collector returns no node and reads
    nothing; and a tag followed by a line that is not empty and not
    indented deeper than the tag gets the children of its own line only,
    the following line staying unread. *)
Theorem C7_blank_line_ends_collection :
  nonBlankLines nestedTagsWithBlankLine = nonBlankLines nestedTags /\
  parseSource nestedTags
  = Done [tag "a" [tag "b" [tag "c" []; tag "d" []]]] /\
  parseSource nestedTagsWithBlankLine
  = Done [tag "a" [tag "b" [tag "c" []]; tag "d" []]] /\
  parseChildren 100 2
    (mkParser (lit "    c" ++ [NL] ++ lit "  " ++ [NL] ++ lit "    d") 3 1)
  = Done ([tag "c" []], mkParser (lit "  " ++ [NL] ++ lit "    d") 4 1) /\
  (forall parentIndent p fuel c r,
     (0 < fuel)%nat -> rest p = c :: r -> c <> NL ->
     getIndentLevel p <= parentIndent ->
     parseChildren fuel parentIndent p = Done ([], p)) /\
  (forall fuel parseDeeper tagIndent first t q next more,
     isLetter first = true -> NLfree (next :: more) -> next <> [] ->
     countSpaces next <= tagIndent ->
     rest q = unlines ([] :: next :: more) ->
     exists parsed q',
       parseTagLine q (first :: t) = Done parsed /\
       parseLine fuel parseDeeper tagIndent (first :: t) q
       = Done (TagNode (Parsed.name parsed) (Parsed.classes parsed)
                       (Parsed.id parsed) (Parsed.attributes parsed)
                       (ownLineChildren (Parsed.content parsed))
                       (includesStr selfClosingNames (Parsed.name parsed)),
               q') /\
       rest q' = unlines (next :: more)).
Proof.
  split; [reflexivity|]. split; [reflexivity|]. split; [reflexivity|].
  split; [reflexivity|]. split.
  - intros parentIndent p fuel c r Hfuel Hrest Hc Hindent.
    unfold parseChildren.
    destruct fuel as [|fuel]; [lia|]. cbn [childrenLoop].
    unfold atEnd, peekIs, peek. rewrite Hrest.
    apply N.eqb_neq in Hc. rewrite Hc.
    replace (getIndentLevel p <=? parentIndent) with true
      by (symmetry; now apply Z.leb_le).
    reflexivity.
  - intros fuel parseDeeper tagIndent first t q next more.
    apply tagLine_before_dedent.
Qed.

(** A tag at indentation 2, a deeper line and a line at indentation 2
    again: the deeper line is the child of the first tag, the third line
    is its sibling. *)
Example dedent_ends_children :
  parseSource (lit "x" ++ [NL] ++ lit "  a" ++ [NL] ++ lit "    b" ++ [NL]
               ++ lit "  c")
  = Done [TagNode (lit "x") [] None []
            [TagNode (lit "a") [] None []
               [TagNode (lit "b") [] None [] [] false] false;
             TagNode (lit "c") [] None [] [] false] false].
Proof. reflexivity. Qed.

(* ================================================================== *)
(** * C8: escaping of text *)
(* ================================================================== *)

Lemma startsWith_app p s : startsWith p (p ++ s) = true.
Proof.
  induction p as [|c p IH]; cbn [app startsWith]; [reflexivity|].
  now rewrite N.eqb_refl, IH.
Qed.

Lemma occursIn_app pre needle post :
  occursIn needle (pre ++ needle ++ post) = true.
Proof.
  induction pre as [|c pre IH].
  - cbn [app]. destruct (needle ++ post) eqn:E; cbn [occursIn];
      rewrite <- E, startsWith_app; reflexivity.
  - cbn [app occursIn]. rewrite IH. apply orb_true_r.
Qed.

Lemma shouldEscape_spec parent :
  shouldEscape parent = negb (spec_rawUnder parent).
Proof.
  unfold shouldEscape, includesStr, spec_rawUnder. cbn [existsb].
  now rewrite orb_false_r.
Qed.

Lemma emitted_spec parent s :
  (if shouldEscape parent then escapeHtml s else s) = spec_emit parent s.
Proof.
  unfold spec_emit. rewrite shouldEscape_spec.
  destruct (spec_rawUnder parent); cbn [negb]; [reflexivity|].
  apply escapeHtml_charwise.
Qed.

Lemma indentation_Done g s : indent g = Done s -> indentation g = s.
Proof. unfold indentation. now intros ->. Qed.

Lemma indentation_same g g' :
  options g' = options g -> indentLevel g' = indentLevel g ->
  indentation g' = indentation g.
Proof. intros Ho Hi. unfold indentation. now rewrite (indent_same g g'). Qed.

Lemma splitLines_one s l : splitLines s = [l] -> includesChar NL s = false.
Proof.
  intros Hsplit. apply not_true_iff_false. rewrite includesChar_spec.
  pose proof (unlines_splitLines s) as Hs.
  pose proof (splitLines_NLfree s) as Hfree.
  rewrite Hsplit in Hs, Hfree. cbn in Hs. subst s.
  now inversion Hfree.
Qed.

Lemma splitLines_several s :
  (forall l, splitLines s <> [l]) -> includesChar NL s = true.
Proof.
  intros Hmany. apply not_false_iff_true. intros Hnone.
  apply (Hmany s). apply splitLines_single.
  rewrite <- includesChar_spec. now rewrite Hnone.
Qed.

(** The loop over the lines of a text, when it returns: what it has
    pushed is the text of the lines, one by one. *)
Lemma generateTextLines_text parent lines :
  forall count i g u g',
    minifying g = false ->
    count = i + Z.of_nat (length lines) ->
    generateTextLines (shouldEscape parent) count i lines g = (Done u, g') ->
    concat (outputBuffer g')
    = concat (outputBuffer g) ++ spec_emitLines parent (indentation g) lines.
Proof.
  induction lines as [|l more IH]; intros count i g u g' Hmin Hcount;
    cbn [generateTextLines spec_emitLines].
  - intros [= _ <-]. now rewrite app_nil_r.
  - unfold isBlankLine.
    destruct (trim l) as [|c t] eqn:Htrim; cbn [nonEmpty negb app].
    + apply IH; [assumption | cbn [length] in Hcount; lia].
    + rewrite emitted_spec. intros Hrun.
      apply andThen_Done in Hrun as (u1 & g1 & Hfirst & Hrest).
      assert (H1 : grows g g1 /\
                   concat (outputBuffer g1)
                   = concat (outputBuffer g) ++ indentation g
                     ++ spec_emit parent (c :: t)).
      { destruct ((i =? 0) && (indentLevel g =? 0)) eqn:Hzero.
        - injection Hfirst as _ <-. split; [apply grows_push|].
          apply andb_true_iff in Hzero as [_ Hlevel].
          apply Z.eqb_eq in Hlevel.
          rewrite (indentation_Done g [] (indent_level_zero g Hlevel)).
          cbn [push outputBuffer]. rewrite concat_app. cbn [concat app].
          now rewrite app_nil_r.
        - apply pushIndented_Done in Hfirst as (s & Hs & ->).
          split; [apply grows_push|].
          rewrite (indentation_Done g s Hs).
          cbn [push outputBuffer]. rewrite concat_app. cbn [concat app].
          now rewrite app_nil_r. }
      destruct H1 as [Hg1 Hb1].
      assert (Hmin1 : minifying g1 = false)
        by now rewrite (grows_minifying _ _ Hg1).
      pose proof Hg1 as (Ho1 & _ & _ & Hi1 & _).
      cbn [length] in Hcount.
      destruct more as [|l' more'].
      * replace (i <? count - 1) with false in Hrest
          by (symmetry; apply Z.ltb_ge; cbn [length] in Hcount; lia).
        cbn [generateTextLines] in Hrest. injection Hrest as _ <-.
        cbn [spec_emitLines]. now rewrite Hb1, !app_nil_r.
      * replace (i <? count - 1) with true in Hrest
          by (symmetry; apply Z.ltb_lt; cbn [length] in Hcount; lia).
        apply IH in Hrest; [|exact Hmin1 | cbn [length] in *; lia].
        rewrite Hrest. cbn [push outputBuffer]. rewrite concat_app, Hb1.
        unfold newLine. rewrite Hmin1. cbn [concat app].
        rewrite (indentation_same g (push [[NL]] g1)) by (cbn; assumption).
        rewrite <- !app_assoc. reflexivity.
Qed.

(** A text node where it returns: it has pushed the text of the node
    under the parent tag of the generator. *)
Lemma generateText_text content g u g' :
  generateText content g = (Done u, g') ->
  concat (outputBuffer g')
  = concat (outputBuffer g)
    ++ spec_text (currentParentTag g) (minifying g) (indentation g) content.
Proof.
  unfold generateText, spec_text. rewrite emitted_spec.
  destruct (minifying g) eqn:Hmin.
  - intros [= _ <-]. cbn [push outputBuffer]. rewrite concat_app. cbn [concat].
    now rewrite app_nil_r.
  - destruct (splitLines content) as [|l [|l' ls]] eqn:Hsplit.
    + now destruct (splitLines_not_nil content).
    + rewrite (splitLines_one content l Hsplit). intros Hrun.
      apply pushIndented_Done in Hrun as (s & Hs & ->).
      rewrite (indentation_Done g s Hs).
      cbn [push outputBuffer]. rewrite concat_app. cbn [concat app].
      now rewrite app_nil_r.
    + rewrite splitLines_several
        by (intros l0 H0; rewrite Hsplit in H0; discriminate).
      rewrite <- Hsplit. apply generateTextLines_text; [assumption | lia].
Qed.

(** The children of a tag in the block form, when the loop returns: each
    child has given its part, followed by a newline unless minifying,
    and the part of a text child is its text under the tag. *)
Lemma eachChild_parts tagName children :
  forall g u gk,
    eachChild tagName generateNode children g = (Done u, gk) ->
    grows g gk /\
    exists parts : list str,
      concat (outputBuffer gk)
      = concat (outputBuffer g)
        ++ concat (map (fun part => part ++ newLine g) parts) /\
      Forall2 (fun child part =>
                 forall content,
                   child = TextNode content ->
                   part = spec_text tagName (minifying g) (indentation g)
                                    content)
              children parts.
Proof.
  induction children as [|child more IH]; intros g u gk; cbn [eachChild].
  - intros [= _ <-]. split; [apply grows_refl|].
    exists []. cbn [map concat]. rewrite app_nil_r. split; constructor.
  - intros Hrun. apply andThen_Done in Hrun as (u1 & g2 & Hround & Hrest).
    unfold aroundChild in Hround.
    apply andThen_Done in Hround as (u0 & g1 & Hchild & Hafter).
    injection Hafter as _ <-.
    pose proof (generateNode_grows _ _ _ _ Hchild)
      as (Ho1 & Hp1 & Hd1 & Hi1 & out & Hb1).
    cbn [setCurrentParentTag options currentParentTag disposed indentLevel
         outputBuffer] in Ho1, Hp1, Hd1, Hi1, Hb1.
    set (g2 := setCurrentParentTag (currentParentTag g) g1) in *.
    assert (Hm2 : minifying g2 = minifying g)
      by (unfold minifying; subst g2; cbn; now rewrite Ho1).
    assert (Hn2 : newLine g2 = newLine g) by (unfold newLine; now rewrite Hm2).
    set (g3 := if minifying g2 then g2 else push [newLine g2] g2) in *.
    assert (H3 : grows g g3 /\
                 concat (outputBuffer g3)
                 = concat (outputBuffer g) ++ concat out ++ newLine g).
    { subst g3. rewrite Hn2, Hm2. unfold newLine.
      destruct (minifying g) eqn:Hmin.
      - split.
        + unfold grows; subst g2; cbn. repeat split; try assumption.
          now exists out.
        + subst g2; cbn. now rewrite Hb1, concat_app, app_nil_r.
      - split.
        + unfold grows; subst g2; cbn. repeat split; try assumption.
          exists (out ++ [[NL]]). now rewrite Hb1, app_assoc.
        + subst g2; cbn. rewrite Hb1, !concat_app. cbn [concat app].
          now rewrite <- app_assoc. }
    destruct H3 as [Hg3 Hb3].
    destruct (IH g3 u gk Hrest) as (Hgk & parts & Hbk & Hparts).
    split; [eapply grows_trans; eassumption|].
    pose proof Hg3 as (Ho3 & _ & _ & Hi3 & _).
    exists (concat out :: parts). split.
    + rewrite Hbk, Hb3. cbn [map concat].
      rewrite (grows_minifying _ _ Hg3) in *.
      unfold newLine. rewrite (grows_minifying _ _ Hg3).
      now rewrite <- !app_assoc.
    + constructor.
      * intros content ->. cbn [generateNode] in Hchild.
        apply generateText_text in Hchild.
        cbn [setCurrentParentTag outputBuffer currentParentTag] in Hchild.
        change (minifying (setCurrentParentTag tagName g))
          with (minifying g) in Hchild.
        rewrite (indentation_same g (setCurrentParentTag tagName g))
          in Hchild by reflexivity.
        rewrite Hb1, concat_app in Hchild.
        now apply app_inv_head in Hchild.
      * rewrite (grows_minifying _ _ Hg3) in Hparts.
        rewrite (indentation_same g g3) in Hparts by assumption.
        exact Hparts.
Qed.

(** The block form when it returns: the opening, the loop over the
    children, the closing. *)
Lemma block_returned tagName attrs children g u g' :
  andThen (openBlock tagName attrs)
    (fun _ =>
       andThen (eachChild tagName generateNode children)
         (fun _ => closeBlock tagName)) g = (Done u, g') ->
  exists s go gk,
    indent g = Done s /\
    go = (let g1 := push [s; lit "<"; tagName; attrs; lit ">"] g in
          if minifying g then g1
          else setIndentLevel (indentLevel g + 1) (push [[NL]] g1)) /\
    eachChild tagName generateNode children go = (Done tt, gk) /\
    g' = push [s; lit "</"; tagName; lit ">"]
           (if minifying g then gk
            else setIndentLevel (indentLevel gk - 1) gk).
Proof.
  intros Hrun. apply andThen_Done in Hrun as (u1 & go & Hopen & Hrun).
  apply andThen_Done in Hrun as (u2 & gk & Hkids & Hclose).
  destruct (openBlock_cases tagName attrs g)
    as [(s & Hs & Hopen')|(_ & _ & Hf)];
    [|rewrite Hopen in Hf; now destruct (Hf u1)].
  rewrite Hopen in Hopen'. injection Hopen' as _ Hgo.
  exists s, go, gk. split; [assumption|]. split; [assumption|].
  destruct u2. split; [assumption|].
  pose proof (eachChild_parts tagName children go tt gk Hkids)
    as ((Ho & _ & _ & Hi & _) & _).
  assert (Hmk : minifying gk = minifying g).
  { unfold minifying. rewrite Ho, Hgo. cbv zeta. now destruct (minifying g). }
  unfold closeBlock in Hclose. rewrite Hmk in Hclose.
  apply pushIndented_Done in Hclose as (s' & Hs' & ->).
  f_equal. f_equal.
  assert (Hsame : indent (if minifying g then gk
                          else setIndentLevel (indentLevel gk - 1) gk)
                  = indent g).
  { destruct (minifying g) eqn:Hm.
    - rewrite (indent_minifying g Hm). apply indent_minifying.
      now rewrite Hmk.
    - apply indent_same; cbn [setIndentLevel options indentLevel].
      + rewrite Ho, Hgo. reflexivity.
      + rewrite Hi, Hgo. cbn. lia. }
  congruence.
Qed.

(** C8, as stated, fails for a text of several lines under script or
    style: outside minify mode it is not emitted verbatim apart from
    trimming. The text of three lines [if (a < b)], a blank line and
    [go();] after four spaces, which trimming leaves as it is, comes out
    under [script] as two lines: the blank line is dropped, and the four
    spaces before [go();] are replaced by the indentation; the content
    stands nowhere in what is emitted. *)
Lemma C8_counterexample :
  trim scriptLines = scriptLines /\
  fst (generateNode (tag "script" [TextNode scriptLines])
         (newGenerator noOptions)) = Done tt /\
  render (tag "script" [TextNode scriptLines])
  = lit "<script>" ++ [NL] ++ lit "  if (a < b)" ++ [NL] ++ lit "  go();"
    ++ [NL] ++ lit "</script>" /\
  forall pre post,
    render (tag "script" [TextNode scriptLines])
    <> pre ++ scriptLines ++ post.
Proof.
  split; [reflexivity|]. split; [reflexivity|]. split; [reflexivity|].
  intros pre post H.
  pose proof (occursIn_app pre scriptLines post) as Hin.
  rewrite <- H in Hin. vm_compute in Hin. discriminate.
Qed.

(** C8, amended: for every Text node that is a child of a tag, the
    generator emits the text under the name of that tag: escaped,
    exactly the characters [&], [<], [>] and the double quote replaced by
    [&amp;], [&lt;], [&gt;] and [&quot;], unless the name is script or
    style in any letter case, and then unescaped. What is emitted is: for
    the only child of a tag rendered inline, the content (trimmed under
    script or style); in the block form, for each child in turn, when
    minifying the trimmed content, and otherwise, one level deeper than
    the tag, the trimmed content after the indentation when the content
    has no newline, and when it has one the lines of the content that
    are not blank, each trimmed and after the indentation, with a
    newline after each line but the last line of the content. This is
    what a tag that is not self-closing has pushed when [generateNode]
    returns. *)
Theorem C8_text_under_a_tag (g g' : Generator) (name : str)
  (classes : list str) (id : option str) (attributes : list Attribute)
  (children : list ASTNode) :
  generateNode (TagNode name classes id attributes children false) g
  = (Done tt, g') ->
  let attrs := generateAttributes attributes classes id in
  let inlineText content :=
    if spec_rawUnder name then trim content
    else flat_map spec_escapeChar content in
  indent g = Done (indentation g) /\
  (forall content,
     children = [TextNode content] ->
     jsLength (inlineText content) < 80 -> ~ In NL (inlineText content) ->
     concat (outputBuffer g')
     = concat (outputBuffer g) ++ indentation g ++ lit "<" ++ name ++ attrs
       ++ lit ">" ++ inlineText content ++ lit "</" ++ name ++ lit ">") /\
  (children <> [] ->
   (forall content,
      children = [TextNode content] ->
      jsLength (inlineText content) >= 80 \/ In NL (inlineText content)) ->
   exists parts : list str,
     concat (outputBuffer g')
     = concat (outputBuffer g) ++ indentation g ++ lit "<" ++ name ++ attrs
       ++ lit ">" ++ newLine g
       ++ concat (map (fun part => part ++ newLine g) parts)
       ++ indentation g ++ lit "</" ++ name ++ lit ">" /\
     Forall2 (fun child part =>
                forall content,
                  child = TextNode content ->
                  part = spec_text name (minifying g)
                                   (indentation (deeper g)) content)
             children parts).
Proof.
  intros Hrun attrs inlineText.
  assert (Hprocessed : forall content,
            processedText name content = inlineText content).
  { intros content. unfold processedText, inlineText.
    rewrite shouldEscape_spec. destruct (spec_rawUnder name); cbn [negb];
      [reflexivity | apply escapeHtml_charwise]. }
  assert (Hblock :
    andThen (openBlock name attrs)
      (fun _ =>
         andThen (eachChild name generateNode children)
           (fun _ => closeBlock name)) g = (Done tt, g') ->
    indent g = Done (indentation g) /\
    exists parts : list str,
      concat (outputBuffer g')
      = concat (outputBuffer g) ++ indentation g ++ lit "<" ++ name ++ attrs
        ++ lit ">" ++ newLine g
        ++ concat (map (fun part => part ++ newLine g) parts)
        ++ indentation g ++ lit "</" ++ name ++ lit ">" /\
      Forall2 (fun child part =>
                 forall content,
                   child = TextNode content ->
                   part = spec_text name (minifying g)
                                    (indentation (deeper g)) content)
              children parts).
  { intros Hb. apply block_returned in Hb
      as (s & go & gk & Hs & Hgo & Hkids & ->).
    rewrite (indentation_Done g s Hs). split; [assumption|].
    destruct (eachChild_parts name children go tt gk Hkids)
      as (_ & parts & Hbk & Hparts).
    assert (Hmo : minifying go = minifying g).
    { rewrite Hgo. cbv zeta. destruct (minifying g) eqn:Hm; exact Hm. }
    assert (Hio : minifying g = false ->
                  indentation go = indentation (deeper g)).
    { intros Hm. apply indentation_same; rewrite Hgo; cbv zeta; rewrite Hm;
        reflexivity. }
    exists parts. split.
    - assert (Hbuf : outputBuffer
                       (if minifying g then gk
                        else setIndentLevel (indentLevel gk - 1) gk)
                     = outputBuffer gk) by now destruct (minifying g).
      cbn [push outputBuffer]. rewrite Hbuf, concat_app, Hbk.
      unfold newLine. rewrite Hmo. rewrite Hgo. cbv zeta.
      destruct (minifying g); cbn [push setIndentLevel outputBuffer];
        rewrite ?concat_app; cbn [concat app]; rewrite ?app_nil_r;
        rewrite <- ?app_assoc; reflexivity.
    - rewrite Hmo in Hparts. destruct (minifying g) eqn:Hm.
      + eapply Forall2_impl; [|exact Hparts].
        intros child part Hc content Hchild. now rewrite (Hc content Hchild).
      + now rewrite (Hio eq_refl) in Hparts. }
  cbn [generateNode] in Hrun. fold attrs in Hrun.
  destruct children as [|[d|n c i a ch s|t] [|second more]];
    try (apply Hblock in Hrun as [Hind Hparts];
         split; [exact Hind|]; split;
         [intros content [=] | intros _ _; exact Hparts]).
  - apply pushIndented_Done in Hrun as (s & Hs & ->).
    rewrite (indentation_Done g s Hs). split; [assumption|]. split.
    + intros content [=].
    + intros Hne. now destruct Hne.
  - rewrite Hprocessed in Hrun.
    destruct (fitsInline (inlineText t)) eqn:Hfits.
    + apply fitsInline_true_iff in Hfits as [Hlen Hnl].
      apply pushIndented_Done in Hrun as (s & Hs & ->).
      rewrite (indentation_Done g s Hs). split; [assumption|]. split.
      * intros content [= <-] _ _. cbn [push outputBuffer].
        rewrite concat_app. cbn [concat app]. rewrite ?app_nil_r.
        rewrite <- ?app_assoc. reflexivity.
      * intros _ Hlong. destruct (Hlong t eq_refl) as [H|H];
          [lia | contradiction].
    + apply fitsInline_false_iff in Hfits.
      apply Hblock in Hrun as [Hind Hparts].
      split; [exact Hind|]. split; [|intros _ _; exact Hparts].
      intros content [= <-] Hlen Hnl. destruct Hfits; [lia | contradiction].
Qed.

Lemma C8_text_under_a_tag_witness :
  let g := newGenerator noOptions in
  let g' := snd (generateNode (tag "script" [TextNode scriptLines; text "a<b"])
                   g) in
  let inlineText content :=
    if spec_rawUnder (lit "script") then trim content
    else flat_map spec_escapeChar content in
  indent g = Done (indentation g) /\
  (forall content,
     [TextNode scriptLines; text "a<b"] = [TextNode content] ->
     jsLength (inlineText content) < 80 -> ~ In NL (inlineText content) ->
     concat (outputBuffer g')
     = concat (outputBuffer g) ++ indentation g ++ lit "<" ++ lit "script"
       ++ generateAttributes [] [] None
       ++ lit ">" ++ inlineText content ++ lit "</" ++ lit "script"
       ++ lit ">") /\
  ([TextNode scriptLines; text "a<b"] <> [] ->
   (forall content,
      [TextNode scriptLines; text "a<b"] = [TextNode content] ->
      jsLength (inlineText content) >= 80 \/ In NL (inlineText content)) ->
   exists parts : list str,
     concat (outputBuffer g')
     = concat (outputBuffer g) ++ indentation g ++ lit "<" ++ lit "script"
       ++ generateAttributes [] [] None
       ++ lit ">" ++ newLine g
       ++ concat (map (fun part => part ++ newLine g) parts)
       ++ indentation g ++ lit "</" ++ lit "script" ++ lit ">" /\
     Forall2 (fun child part =>
                forall content,
                  child = TextNode content ->
                  part = spec_text (lit "script") (minifying g)
                                   (indentation (deeper g)) content)
             [TextNode scriptLines; text "a<b"] parts).
Proof.
  exact (C8_text_under_a_tag (newGenerator noOptions)
           (snd (generateNode
                   (tag "script" [TextNode scriptLines; text "a<b"])
                   (newGenerator noOptions)))
           (lit "script") [] None [] [TextNode scriptLines; text "a<b"]
           eq_refl).
Defined.

(** The text [<b>] under [p] and under [script]; two text children, which
    force the block form, under [div] and under [Style]; a text whose
    parent is a [p] inside a [script]: the immediate parent decides; and
    the text of three lines under [p] and, minified, under [script]. *)
Example escaping_by_parent :
  render (tag "p" [text "<b>"]) = lit "<p>&lt;b&gt;</p>" /\
  render (tag "script" [text "<b>"]) = lit "<script><b></script>" /\
  render (tag "div" [text "a<b"; text "c&d"])
    = lit "<div>" ++ [NL] ++ lit "  a&lt;b" ++ [NL] ++ lit "  c&amp;d" ++ [NL]
      ++ lit "</div>" /\
  render (tag "Style" [text "a<b"; text "c&d"])
    = lit "<Style>" ++ [NL] ++ lit "  a<b" ++ [NL] ++ lit "  c&d" ++ [NL]
      ++ lit "</Style>" /\
  render (tag "script" [tag "p" [text "<"; text ">"]])
    = lit "<script>" ++ [NL] ++ lit "  <p>" ++ [NL] ++ lit "    &lt;" ++ [NL]
      ++ lit "    &gt;" ++ [NL] ++ lit "  </p>" ++ [NL] ++ lit "</script>" /\
  render (tag "p" [TextNode scriptLines])
    = lit "<p>" ++ [NL] ++ lit "  if (a &lt; b)" ++ [NL] ++ lit "  go();"
      ++ [NL] ++ lit "</p>" /\
  concat (outputBuffer
            (snd (generateNode (tag "script" [TextNode scriptLines])
                    (newGenerator onlyMinify))))
    = lit "<script>" ++ scriptLines ++ lit "</script>".
Proof. repeat split. Qed.

(** A throw leaves the parent tag behind. With a step of [-1] the
    indentation of the child of [script] cannot be built: [generate]
    throws, with [script] as the current parent tag and the level at 1.
    The next call, with a step of 2, emits the text [<b>], which has no
    parent, unescaped. *)
Example parent_tag_left_by_a_throw :
  let run := generate [tag "script" [tag "b" []]] (Some negativeStep)
               (newGenerator noOptions) in
  fst run = Raise RangeError_invalidCount /\
  currentParentTag (snd run) = lit "script" /\ indentLevel (snd run) = 1 /\
  outputBuffer (snd run) = [[]; lit "<"; lit "script"; []; lit ">"; [NL]] /\
  (exists r, fst (generate [text "<b>"] (Some stepOfTwo) (snd run)) = Done r /\
             joined r = lit "<b>" ++ [NL]) /\
  (exists r, fst (generate [text "<b>"] (Some stepOfTwo)
                    (newGenerator noOptions)) = Done r /\
             joined r = lit "&lt;b&gt;" ++ [NL]).
Proof.
  cbv zeta. repeat split; try reflexivity.
  - eexists. split; reflexivity.
  - eexists. split; reflexivity.
Qed.
(* ================================================================== *)
(** * C9: when a tag is rendered on one line *)
(* ================================================================== *)

(** C9, as stated, fails in both directions, because the generator
    measures the text after escaping or trimming, not the content. A [p]
    whose only child is a text of 16 ampersands (no newline, length 16) is
    rendered as a block of three lines: escaped, the text has 80
    characters. A [script] whose only child is a text of 81 characters, 80
    spaces and an [x], is rendered inline: trimmed, the text has one. *)
Lemma C9_counterexample :
  (jsLength sixteenAmpersands < 80 /\ ~ In NL sixteenAmpersands /\
   concat (outputBuffer
             (snd (generateTag (lit "p") [] None [] [TextNode sixteenAmpersands]
                               false (newGenerator noOptions))))
   = lit "<p>" ++ [NL] ++ lit "  " ++ escapeHtml sixteenAmpersands ++ [NL]
     ++ lit "</p>") /\
  (jsLength paddedX = 81 /\
   concat (outputBuffer
             (snd (generateTag (lit "script") [] None [] [TextNode paddedX]
                               false (newGenerator noOptions))))
   = lit "<script>x</script>").
Proof.
  split; [split; [reflexivity|split; [|reflexivity]]|split; reflexivity].
  intros Hin. apply includesChar_spec in Hin. discriminate.
Qed.

(** C9, amended: a tag that is not self-closing and has exactly one child,
    a text node, is rendered inline as [<name attrs>text</name>] exactly
    when the processed text (the escaped content, or the trimmed content
    when the tag name is script or style in any letter case) has fewer
    than 80 characters and no newline; otherwise, and for every other
    non-empty sequence of children, the tag is rendered as a block: the
    opening tag, a newline unless minifying, the children, and the closing
    tag at the indentation of the opening one. The inline form is pushed
    at once after the indentation, and nothing is pushed when the
    indentation cannot be built; the block form is what the generator
    has pushed when it returns, and it returns whenever the indentation
    can be built at the level of the tag and at every deeper one. *)
Theorem C9_inline_rule (g : Generator) (name : str) (classes : list str)
  (id : option str) (attributes : list Attribute) :
  let attrs := generateAttributes attributes classes id in
  let isBlock (g' : Generator) :=
    exists ind middle,
      indent g = Done ind /\
      outputBuffer g' =
        outputBuffer g ++ [ind; lit "<"; name; attrs; lit ">"]
        ++ (if minifying g then [] else [[NL]]) ++ middle
        ++ [ind; lit "</"; name; lit ">"] in
  (forall content,
     let processed :=
       if shouldEscape name then escapeHtml content else trim content in
     let run := generateTag name classes id attributes [TextNode content]
                            false g in
     (jsLength processed < 80 /\ ~ In NL processed ->
      (forall ind,
         indent g = Done ind ->
         run = (Done tt,
                push [ind; lit "<"; name; attrs; lit ">"; processed;
                      lit "</"; name; lit ">"] g)) /\
      ((forall ind, indent g <> Done ind) ->
       snd run = g /\ forall u, fst run <> Done u)) /\
     (jsLength processed >= 80 \/ In NL processed ->
      forall g', run = (Done tt, g') -> isBlock g')) /\
  (forall children,
     children <> [] -> (forall content, children <> [TextNode content]) ->
     forall g',
       generateTag name classes id attributes children false g = (Done tt, g') ->
       isBlock g') /\
  (calm g ->
   forall children selfClosing,
     exists g',
       generateTag name classes id attributes children selfClosing g
       = (Done tt, g')).
Proof.
  intros attrs isBlock.
  assert (Hshape : forall children g',
    andThen (openBlock name attrs)
      (fun _ =>
         andThen (eachChild name generateNode children)
           (fun _ => closeBlock name)) g = (Done tt, g') ->
    isBlock g').
  { intros children g' Hrun.
    destruct (block_shape name attrs children g
                (proj2 (Forall_forall _ _)
                       (fun child _ => generateNode_keeps child)))
      as [_ Hdone].
    rewrite Hrun in Hdone. destruct (Hdone tt eq_refl) as (s & middle & Hs & Hb).
    now exists s, middle. }
  split; [|split].
  - intros content processed run.
    subst run. unfold generateTag. cbn [generateNode].
    fold attrs. change (processedText name content) with processed.
    split.
    + intros H. apply fitsInline_true_iff in H. rewrite H.
      destruct (pushIndented_cases
                  [lit "<"; name; attrs; lit ">"; processed; lit "</"; name;
                   lit ">"] g) as [(s & Hs & Hrun)|(Hno & Hg & Hf)].
      * split; [intros ind Hind; congruence|].
        intros Hnone. now destruct (Hnone s).
      * split; [intros ind Hind; now destruct (Hno ind)|].
        intros _. now split.
    + intros H. apply fitsInline_false_iff in H. rewrite H. apply Hshape.
  - intros children Hne Hnot. unfold generateTag. cbn [generateNode].
    fold attrs.
    destruct children as [|[d|n c i a ch s|t] [|second more]];
      try apply Hshape.
    + contradiction.
    + exfalso. now apply (Hnot t).
  - intros Hcalm children selfClosing. unfold generateTag.
    destruct (generateNode_calm
                (TagNode name classes id attributes children selfClosing)
                g Hcalm) as ([] & g' & Hrun).
    now exists g'.
Qed.
(* ================================================================== *)
(** * C10: options passed to generate stay *)
(* ================================================================== *)

(** Whatever the outcome of [generate] on a generator that is not
    disposed, the options afterwards are the merged ones and the
    generator is not disposed. *)
Lemma generate_options ast given g :
  disposed g = false ->
  options (snd (generate ast given g))
  = match given with
    | Some o => mergeOptions (options g) o
    | None => options g
    end /\
  disposed (snd (generate ast given g)) = false.
Proof.
  intros Hd. destruct (generate_unfold ast given g Hd) as [Hdone Hfail].
  cbv zeta in Hdone, Hfail.
  set (start := mkGenerator 0 _ (currentParentTag g) false []) in *.
  destruct (generateAll_keeps ast start) as [(Ho & Hdis & _) _].
  destruct (generateAll ast start) as [[u|e|] g2] eqn:Hrun.
  - rewrite (Hdone u g2 eq_refl). now split.
  - destruct Hfail as [-> _]; [discriminate|]. now split.
  - destruct Hfail as [-> _]; [discriminate|]. now split.
Qed.

(** [generate] returns when the indentation can be built, and leaves the
    generator at level 0 with the merged options and an empty buffer. *)
Lemma generate_calm ast given g :
  disposed g = false ->
  let opts := match given with
              | Some o => mergeOptions (options g) o
              | None => options g
              end in
  let start := mkGenerator 0 opts (currentParentTag g) false [] in
  calm start ->
  exists g2,
    generateAll ast start = (Done tt, g2) /\
    generate ast given g
    = (Done (mkGenerated
               (concat (outputBuffer g2))
               (if truthy (usePrettier opts) && negb (truthy (minify opts))
                then ThroughPrettier
                else if negb (truthy (minify opts)) then ThroughFormatHTML
                else AsJoined)),
       start).
Proof.
  intros Hd opts start Hcalm.
  destruct (generateAll_calm ast start Hcalm) as ([] & g2 & Hrun).
  exists g2. split; [assumption|].
  now apply (proj1 (generate_unfold ast given g Hd) tt g2).
Qed.

(** When [generate] returns, the generator is left at level 0 with the
    merged options, the parent tag it had and an empty buffer. *)
Lemma generate_returned ast given g r :
  disposed g = false ->
  fst (generate ast given g) = Done r ->
  snd (generate ast given g)
  = mkGenerator 0 (match given with
                   | Some o => mergeOptions (options g) o
                   | None => options g
                   end) (currentParentTag g) false [] /\
  exists g2,
    generateAll ast (mkGenerator 0 (match given with
                                    | Some o => mergeOptions (options g) o
                                    | None => options g
                                    end) (currentParentTag g) false [])
    = (Done tt, g2) /\
    joined r = concat (outputBuffer g2).
Proof.
  intros Hd Hr. destruct (generate_unfold ast given g Hd) as [Hdone Hfail].
  cbv zeta in Hdone, Hfail.
  set (start := mkGenerator 0 _ (currentParentTag g) false []) in *.
  destruct (generateAll ast start) as [[[]|e|] g2] eqn:Hrun.
  - rewrite (Hdone tt g2 eq_refl) in *. cbn [fst snd] in *.
    injection Hr as <-. split; [reflexivity|]. now exists g2.
  - destruct Hfail as [_ Hno]; [discriminate|]. now destruct (Hno r).
  - destruct Hfail as [_ Hno]; [discriminate|]. now destruct (Hno r).
Qed.



(** On a fresh generator the two paragraphs come out on two lines and go
    to the pretty-printer; after one call with [{minify: true}] the same
    call without options gives them on one line, as joined. *)
Example generate_after_minify :
  (exists r, fst (generate twoParagraphs None (newGenerator noOptions))
             = Done r /\
             joined r = lit "<p>a</p>" ++ [NL] ++ lit "<p>b</p>" ++ [NL] /\
             formatting r = ThroughPrettier) /\
  (exists r r',
     fst (generate twoParagraphs (Some onlyMinify) (newGenerator noOptions))
     = Done r /\
     fst (generate twoParagraphs None
            (snd (generate twoParagraphs (Some onlyMinify)
                    (newGenerator noOptions)))) = Done r' /\
     joined r' = lit "<p>a</p><p>b</p>" /\ formatting r' = AsJoined).
Proof.
  split.
  - eexists. split; [reflexivity|]. split; reflexivity.
  - eexists. eexists. split; [reflexivity|]. split; [reflexivity|].
    split; reflexivity.
Qed.
(* ================================================================== *)
(** * The cache: the map and the access order *)
(* ================================================================== *)

Module LRUCacheFacts.
Import LRUCache.
Section Facts.
Variables K V : Type.
Variable keyEq : K -> K -> bool.
Variable isNaN : K -> bool.
Hypothesis keyEq_eq : forall a b, keyEq a b = true <-> a = b.

Abbreviation Cache := (LRUCache.t K V).
Abbreviation keys m := (map fst m).

Lemma keyEq_refl k : keyEq k k = true.
Proof. now apply keyEq_eq. Qed.

Lemma keyEq_neq a b : a <> b -> keyEq a b = false.
Proof.
  intros Hne. destruct (keyEq a b) eqn:H; [|reflexivity].
  apply keyEq_eq in H. contradiction.
Qed.

Lemma keyEq_cases a b : {a = b /\ keyEq a b = true} + {a <> b /\ keyEq a b = false}.
Proof.
  destruct (keyEq a b) eqn:H.
  - left. split; [now apply keyEq_eq | reflexivity].
  - right. split; [|reflexivity]. intros Heq. apply keyEq_eq in Heq. congruence.
Qed.

Lemma mapGet_None key (m : list (K * Entry V)) :
  mapGet keyEq key m = None <-> ~ In key (keys m).
Proof.
  induction m as [|[k e] m IH]; cbn [mapGet map fst In]; [tauto|].
  destruct (keyEq_cases key k) as [[-> ->]|[Hne ->]].
  - split; [discriminate|]. intros H. exfalso. apply H. now left.
  - rewrite IH. split; [intros H [Heq|Hin]; [congruence|contradiction]|tauto].
Qed.

Lemma mapGet_Some_In key (m : list (K * Entry V)) e :
  mapGet keyEq key m = Some e -> In key (keys m).
Proof.
  intros H. destruct (in_dec (fun a b => match keyEq_cases a b with
                                        | left (conj p _) => left p
                                        | right (conj p _) => right p
                                        end) key (keys m)) as [Hin|Hnot];
    [assumption|].
  apply mapGet_None in Hnot. congruence.
Qed.

Lemma mapHas_true key (m : list (K * Entry V)) :
  mapHas keyEq key m = true <-> In key (keys m).
Proof.
  unfold mapHas. destruct (mapGet keyEq key m) eqn:H.
  - split; [intros _; eapply mapGet_Some_In; eassumption | reflexivity].
  - apply mapGet_None in H. split; [discriminate | contradiction].
Qed.

(** [===] and SameValueZero agree on a key that is not NaN. *)
Lemma strictEq_keyEq k key :
  isNaN key = false -> strictEq keyEq isNaN k key = keyEq key k.
Proof.
  intros Hkey. unfold strictEq.
  destruct (keyEq_cases k key) as [[-> ->]|[Hne ->]].
  - now rewrite Hkey.
  - symmetry. apply keyEq_neq. congruence.
Qed.

(** Nothing is [===] to NaN. *)
Lemma strictEq_true k key :
  strictEq keyEq isNaN k key = true -> k = key /\ isNaN key = false.
Proof.
  unfold strictEq. intros H. apply andb_true_iff in H as [Heq Hnan].
  apply keyEq_eq in Heq. subst. split; [reflexivity|].
  now apply negb_true_iff in Hnan.
Qed.

Lemma inOrder_true key (order : list K) :
  isNaN key = false ->
  (inOrder keyEq isNaN key order = true <-> In key order).
Proof.
  intros Hkey. unfold inOrder. rewrite existsb_exists. split.
  - intros (x & Hin & Heq). apply strictEq_true in Heq as [-> _]. assumption.
  - intros Hin. exists key. split; [assumption|].
    rewrite strictEq_keyEq by assumption. apply keyEq_refl.
Qed.

Lemma inOrder_notNaN key (order : list K) :
  inOrder keyEq isNaN key order = true -> isNaN key = false.
Proof.
  unfold inOrder. rewrite existsb_exists. intros (x & _ & Heq).
  now apply strictEq_true in Heq.
Qed.

Lemma mapGet_mapSet_same key e (m : list (K * Entry V)) :
  mapGet keyEq key (mapSet keyEq key e m) = Some e.
Proof.
  induction m as [|[k e'] m IH]; cbn [mapSet mapGet].
  - now rewrite keyEq_refl.
  - destruct (keyEq_cases key k) as [[-> H]|[Hne H]]; rewrite H;
      cbn [mapGet]; rewrite H; [reflexivity | exact IH].
Qed.

Lemma mapGet_mapSet_other key key' e (m : list (K * Entry V)) :
  key' <> key ->
  mapGet keyEq key' (mapSet keyEq key e m) = mapGet keyEq key' m.
Proof.
  intros Hne. induction m as [|[k e'] m IH]; cbn [mapSet mapGet].
  - now rewrite keyEq_neq.
  - destruct (keyEq_cases key k) as [[-> H]|[Hk H]]; rewrite H; cbn [mapGet].
    + now rewrite (keyEq_neq key' k).
    + now rewrite IH.
Qed.

Lemma keys_mapSet key e (m : list (K * Entry V)) :
  keys (mapSet keyEq key e m)
  = if mapHas keyEq key m then keys m else keys m ++ [key].
Proof.
  unfold mapHas. induction m as [|[k e'] m IH]; cbn [mapSet mapGet map fst app];
    [reflexivity|].
  destruct (keyEq_cases key k) as [[-> H]|[Hk H]]; rewrite H; cbn [map fst];
    [reflexivity|].
  rewrite IH. now destruct (mapGet keyEq key m).
Qed.

Lemma keys_mapDelete key (m : list (K * Entry V)) :
  isNaN key = false ->
  keys (mapDelete keyEq key m) = removeKey keyEq isNaN key (keys m).
Proof.
  intros Hkey. induction m as [|[k e] m IH]; cbn [mapDelete removeKey map fst];
    [reflexivity|].
  rewrite strictEq_keyEq by assumption.
  destruct (keyEq key k); cbn [map fst]; [reflexivity | now rewrite IH].
Qed.

Lemma In_mapDelete key k (m : list (K * Entry V)) :
  In k (keys (mapDelete keyEq key m)) -> In k (keys m).
Proof.
  induction m as [|[x e] m IH]; cbn [mapDelete map fst]; [tauto|].
  destruct (keyEq key x); cbn [map fst In]; tauto.
Qed.

Lemma In_mapDelete_iff key k (m : list (K * Entry V)) :
  NoDup (keys m) ->
  (In k (keys (mapDelete keyEq key m)) <-> In k (keys m) /\ k <> key).
Proof.
  induction m as [|[x e] m IH]; cbn [mapDelete map fst In]; [tauto|].
  intros Hnd. inversion Hnd as [|? ? Hx Hnd']; subst.
  destruct (keyEq_cases key x) as [[-> ->]|[Hne ->]].
  - split.
    + intros Hin. split; [now right|]. intros ->. contradiction.
    + intros [[Heq|Hin] Hk]; [congruence | assumption].
  - cbn [map fst In]. rewrite IH by assumption. split.
    + intros [->|[Hin Hk]]; [split; [now left | congruence] | tauto].
    + intros [[->|Hin] Hk]; [now left | tauto].
Qed.

Lemma NoDup_mapDelete key (m : list (K * Entry V)) :
  NoDup (keys m) -> NoDup (keys (mapDelete keyEq key m)).
Proof.
  induction m as [|[x e] m IH]; cbn [mapDelete map fst]; [constructor|].
  intros Hnd. inversion Hnd as [|? ? Hx Hnd']; subst.
  destruct (keyEq key x); [assumption|]. cbn [map fst].
  constructor; [|now apply IH]. intros Hin. apply Hx.
  eapply In_mapDelete; eassumption.
Qed.

Lemma mapGet_mapDelete_same key (m : list (K * Entry V)) :
  NoDup (keys m) -> mapGet keyEq key (mapDelete keyEq key m) = None.
Proof.
  intros Hnd. apply mapGet_None. rewrite In_mapDelete_iff by assumption. tauto.
Qed.

Lemma mapGet_mapDelete_other key key' (m : list (K * Entry V)) :
  key' <> key ->
  mapGet keyEq key' (mapDelete keyEq key m) = mapGet keyEq key' m.
Proof.
  intros Hne. induction m as [|[k e] m IH]; cbn [mapDelete mapGet];
    [reflexivity|].
  destruct (keyEq_cases key k) as [[-> H]|[Hk H]]; rewrite H; cbn [mapGet].
  - now rewrite (keyEq_neq key' k).
  - now rewrite IH.
Qed.

Lemma In_removeKey key k (order : list K) :
  In k (removeKey keyEq isNaN key order) -> In k order.
Proof.
  induction order as [|x order IH]; cbn [removeKey]; [tauto|].
  destruct (strictEq keyEq isNaN x key); cbn [In]; tauto.
Qed.

Lemma In_removeKey_iff key k (order : list K) :
  isNaN key = false -> NoDup order ->
  (In k (removeKey keyEq isNaN key order) <-> In k order /\ k <> key).
Proof.
  intros Hkey.
  induction 1 as [|x order Hx Hnd IH]; cbn [removeKey In]; [tauto|].
  rewrite strictEq_keyEq by assumption.
  destruct (keyEq_cases key x) as [[-> ->]|[Hne ->]].
  - split.
    + intros Hin. split; [now right|]. intros ->. contradiction.
    + intros [[Heq|Hin] Hk]; [congruence | assumption].
  - cbn [In]. rewrite IH. split.
    + intros [->|[Hin Hk]]; [split; [now left | congruence] | tauto].
    + intros [[->|Hin] Hk]; [now left | tauto].
Qed.

Lemma NoDup_removeKey key (order : list K) :
  NoDup order -> NoDup (removeKey keyEq isNaN key order).
Proof.
  induction 1 as [|x order Hx Hnd IH]; cbn [removeKey]; [constructor|].
  destruct (strictEq keyEq isNaN x key); [assumption|].
  constructor; [|assumption]. intros Hin. apply Hx.
  eapply In_removeKey; eassumption.
Qed.

Lemma Forall_removeKey (P : K -> Prop) key (order : list K) :
  Forall P order -> Forall P (removeKey keyEq isNaN key order).
Proof.
  rewrite !Forall_forall. intros H k Hin. apply H.
  eapply In_removeKey; eassumption.
Qed.

Lemma length_removeKey key (order : list K) :
  isNaN key = false -> In key order ->
  S (length (removeKey keyEq isNaN key order)) = length order.
Proof.
  intros Hkey.
  induction order as [|x order IH]; cbn [removeKey In length]; [tauto|].
  rewrite strictEq_keyEq by assumption.
  destruct (keyEq_cases key x) as [[-> ->]|[Hne ->]]; [reflexivity|].
  intros [Heq|Hin]; [congruence|]. cbn [length]. now rewrite IH.
Qed.

Lemma NoDup_snoc (l : list K) k : NoDup l -> ~ In k l -> NoDup (l ++ [k]).
Proof.
  intros Hnd Hk. apply NoDup_app; [assumption | repeat constructor; intros []|].
  intros x Hx [<-|[]]. contradiction.
Qed.

Lemma length_keys (m : list (K * Entry V)) : length (keys m) = length m.
Proof. apply length_map. Qed.

Lemma key_eq_dec (a b : K) : a = b \/ a <> b.
Proof. destruct (keyEq_cases a b) as [[H _]|[H _]]; [now left | now right]. Qed.

Lemma length_mapSet key e (m : list (K * Entry V)) :
  length (mapSet keyEq key e m)
  = if mapHas keyEq key m then length m else S (length m).
Proof.
  rewrite <- !length_keys, keys_mapSet.
  destruct (mapHas keyEq key m); [reflexivity|].
  rewrite length_app. cbn [length]. lia.
Qed.

Lemma length_mapDelete key (m : list (K * Entry V)) :
  In key (keys m) -> S (length (mapDelete keyEq key m)) = length m.
Proof.
  induction m as [|[k e] m IH]; cbn [mapDelete map fst In length]; [tauto|].
  destruct (keyEq_cases key k) as [[-> ->]|[Hne ->]]; [reflexivity|].
  intros [Heq|Hin]; [congruence|]. cbn [length]. now rewrite IH.
Qed.

(** A key of a regular cache is not NaN. *)
Lemma regular_key key (c : Cache) :
  regular isNaN c -> In key (keys (cache c)) -> isNaN key = false.
Proof.
  intros ((_ & _ & Hiff) & Hnan) Hin. rewrite Forall_forall in Hnan.
  apply Hnan. now apply Hiff.
Qed.

Lemma regular_delete key (c : Cache) :
  regular isNaN c -> regular isNaN (snd (delete keyEq isNaN key c)).
Proof.
  intros Hreg. pose proof Hreg as ((Hm & Ho & Hiff) & Hnan). unfold delete.
  destruct (mapHas keyEq key (cache c)) eqn:Hhas; [|exact Hreg].
  assert (Hkey : isNaN key = false).
  { eapply regular_key; [eassumption|]. now apply mapHas_true. }
  unfold regular, wellFormed; cbn [snd cache accessOrder].
  rewrite keys_mapDelete by assumption.
  split; [|now apply Forall_removeKey].
  split; [now apply NoDup_removeKey|]. split; [now apply NoDup_removeKey|].
  intros k. rewrite !In_removeKey_iff by assumption. now rewrite Hiff.
Qed.

Lemma regular_moveToEnd key (c : Cache) :
  regular isNaN c -> regular isNaN (moveToEnd keyEq isNaN key c).
Proof.
  intros Hreg. pose proof Hreg as ((Hm & Ho & Hiff) & Hnan). unfold moveToEnd.
  destruct (inOrder keyEq isNaN key (accessOrder c)) eqn:Hin; [|exact Hreg].
  pose proof (inOrder_notNaN _ _ Hin) as Hkey.
  apply inOrder_true in Hin; [|assumption].
  unfold regular, wellFormed; cbn [cache accessOrder]. split.
  - split; [assumption|]. split.
    + apply NoDup_snoc; [now apply NoDup_removeKey|].
      rewrite In_removeKey_iff by assumption. tauto.
    + intros k. rewrite in_app_iff, In_removeKey_iff by assumption.
      cbn [In]. rewrite <- Hiff.
      destruct (key_eq_dec k key) as [->|Hne]; [tauto|].
      split; [intros [[H _]|[H|[]]]; [assumption | congruence] | tauto].
  - apply Forall_app. split; [now apply Forall_removeKey|].
    now repeat constructor.
Qed.

Lemma regular_evictLRU (c : Cache) :
  regular isNaN c -> regular isNaN (evictLRU keyEq c).
Proof.
  intros Hreg. pose proof Hreg as ((Hm & Ho & Hiff) & Hnan). unfold evictLRU.
  destruct (accessOrder c) as [|lru order] eqn:Horder; [exact Hreg|].
  unfold regular, wellFormed; cbn [cache accessOrder].
  inversion Ho as [|? ? Hlru Hnd]; subst.
  inversion Hnan as [|? ? Hkey Hnan']; subst.
  split; [|assumption].
  split; [now apply NoDup_mapDelete|]. split; [assumption|].
  intros k. rewrite In_mapDelete_iff by assumption. rewrite <- Hiff.
  cbn [In]. split.
  - intros Hin. split; [now right|]. intros ->. contradiction.
  - intros [[Heq|Hin] Hne]; [congruence | assumption].
Qed.

Lemma regular_same_keys (c : Cache) (m : list (K * Entry V)) :
  regular isNaN c -> keys m = keys (cache c) ->
  regular isNaN (mk (capacity c) (ttl c) m (accessOrder c)).
Proof.
  intros ((Hm & Ho & Hiff) & Hnan) Hk.
  unfold regular, wellFormed; cbn [cache accessOrder].
  rewrite Hk. now repeat split; try apply Hiff.
Qed.

Lemma keys_evictLRU k (c : Cache) :
  In k (keys (cache (evictLRU keyEq c))) -> In k (keys (cache c)).
Proof.
  unfold evictLRU. destruct (accessOrder c); [tauto|].
  cbn [cache]. apply In_mapDelete.
Qed.

Lemma NoDup_keys_evictLRU (c : Cache) :
  NoDup (keys (cache c)) -> NoDup (keys (cache (evictLRU keyEq c))).
Proof.
  unfold evictLRU. destruct (accessOrder c); [tauto|].
  cbn [cache]. apply NoDup_mapDelete.
Qed.

Lemma cache_moveToEnd key (c : Cache) :
  cache (moveToEnd keyEq isNaN key c) = cache c /\
  ttl (moveToEnd keyEq isNaN key c) = ttl c /\
  capacity (moveToEnd keyEq isNaN key c) = capacity c.
Proof.
  unfold moveToEnd. now destruct (inOrder keyEq isNaN key (accessOrder c)).
Qed.

(** [set] keeps the keys of the map distinct, whatever the key. *)
Lemma NoDup_keys_set now key v mt (c : Cache) :
  NoDup (keys (cache c)) ->
  NoDup (keys (cache (set keyEq isNaN now key v mt c))).
Proof.
  intros Hm. unfold set.
  destruct (mapHas keyEq key (cache c)) eqn:Hhas.
  - destruct (cache_moveToEnd key
                (mk (capacity c) (ttl c)
                    (mapSet keyEq key (mkEntry v now mt) (cache c))
                    (accessOrder c))) as (-> & _).
    cbn [cache]. now rewrite keys_mapSet, Hhas.
  - set (c1 := if geNumber _ _ then _ else _).
    assert (Hm1 : NoDup (keys (cache c1))).
    { subst c1. destruct (geNumber _ _);
        [now apply NoDup_keys_evictLRU | assumption]. }
    assert (Hnew : ~ In key (keys (cache c1))).
    { intros Hin. apply not_true_iff_false in Hhas. apply Hhas.
      apply mapHas_true. subst c1.
      destruct (geNumber _ _); [now apply keys_evictLRU | assumption]. }
    cbn [cache]. rewrite keys_mapSet.
    replace (mapHas keyEq key (cache c1)) with false
      by (symmetry; apply not_true_iff_false; now rewrite mapHas_true).
    now apply NoDup_snoc.
Qed.

Lemma regular_set now key v mt (c : Cache) :
  isNaN key = false ->
  regular isNaN c -> regular isNaN (set keyEq isNaN now key v mt c).
Proof.
  intros Hkey Hreg. unfold set.
  destruct (mapHas keyEq key (cache c)) eqn:Hhas.
  - apply regular_moveToEnd, regular_same_keys; [assumption|].
    now rewrite keys_mapSet, Hhas.
  - set (c1 := if geNumber _ _ then _ else _).
    assert (Hreg1 : regular isNaN c1).
    { subst c1. destruct (geNumber _ _);
        [now apply regular_evictLRU | assumption]. }
    assert (Hnew : ~ In key (keys (cache c1))).
    { intros Hin. apply not_true_iff_false in Hhas. apply Hhas.
      apply mapHas_true. subst c1.
      destruct (geNumber _ _); [now apply keys_evictLRU | assumption]. }
    destruct Hreg1 as ((Hm & Ho & Hiff) & Hnan).
    unfold regular, wellFormed; cbn [cache accessOrder].
    rewrite keys_mapSet.
    replace (mapHas keyEq key (cache c1)) with false
      by (symmetry; apply not_true_iff_false; now rewrite mapHas_true).
    split; [|apply Forall_app; split; [assumption | now repeat constructor]].
    split; [now apply NoDup_snoc|].
    split; [apply NoDup_snoc; [assumption | now rewrite Hiff]|].
    intros k. rewrite !in_app_iff, Hiff. tauto.
Qed.

Lemma regular_get now key (c : Cache) :
  regular isNaN c -> regular isNaN (snd (get keyEq isNaN now key c)).
Proof.
  intros Hreg. unfold get. destruct (mapGet keyEq key (cache c)); [|assumption].
  destruct (expired now c e); cbn [snd];
    [now apply regular_delete | now apply regular_moveToEnd].
Qed.

Lemma regular_has now key (c : Cache) :
  regular isNaN c -> regular isNaN (snd (has keyEq isNaN now key c)).
Proof.
  intros Hreg. unfold has. destruct (mapGet keyEq key (cache c)); [|assumption].
  destruct (expired now c e); cbn [snd];
    [now apply regular_delete | assumption].
Qed.

Lemma regular_isValid now key currentMtime (c : Cache) :
  regular isNaN c ->
  regular isNaN (snd (isValid keyEq isNaN now key currentMtime c)).
Proof.
  intros Hreg. unfold isValid.
  destruct (mapGet keyEq key (cache c)); [|assumption].
  destruct (expired now c e); cbn [snd]; [now apply regular_delete|].
  destruct (mtime e) as [m|]; [|assumption].
  destruct (m <? currentMtime); cbn [snd];
    [now apply regular_delete | assumption].
Qed.

Lemma regular_cleanupLoop now entries :
  forall cleaned (c : Cache),
    regular isNaN c ->
    regular isNaN (snd (cleanupLoop keyEq isNaN now entries cleaned c)).
Proof.
  induction entries as [|[k e] more IH]; intros cleaned c Hreg;
    cbn [cleanupLoop]; [assumption|].
  destruct (expired now c e); apply IH; [now apply regular_delete|assumption].
Qed.

Lemma mapGet_after_delete key (c : Cache) :
  NoDup (keys (cache c)) ->
  mapGet keyEq key (cache (snd (delete keyEq isNaN key c))) = None.
Proof.
  intros Hm. unfold delete.
  destruct (mapHas keyEq key (cache c)) eqn:Hhas; cbn [snd cache].
  - now apply mapGet_mapDelete_same.
  - unfold mapHas in Hhas. now destruct (mapGet keyEq key (cache c)).
Qed.

(** How the size of the map compares with a capacity that is a finite
    number: with the least integer that is not below it. *)
Lemma geNumber_Finite (size : Z) (q : Q) :
  geNumber size (Finite q) = true <-> Qceiling q <= size.
Proof.
  cbn [geNumber]. rewrite Qle_bool_iff. split.
  - intros H. apply Qceiling_resp_le in H. now rewrite Qceiling_Z in H.
  - intros H. apply Qle_trans with (inject_Z (Qceiling q)).
    + apply Qle_ceiling.
    + now rewrite <- Zle_Qle.
Qed.

(** X1: the cache keeps its shape as long as no key is NaN. Whatever the
    methods do to a regular cache - the map holds every key once, the
    access order lists exactly the keys of the map, each once, and no key
    is NaN -, the result is a regular cache again: [set] of a key that is
    not NaN, and [get], [delete], [has], [isValid] of any key, [cleanup]
    and [clear]; a new cache is regular. *)
Theorem invariant_kept (c : Cache) :
  regular isNaN c ->
  (forall now key v mt,
     isNaN key = false -> regular isNaN (set keyEq isNaN now key v mt c)) /\
  (forall now key, regular isNaN (snd (get keyEq isNaN now key c))) /\
  (forall key, regular isNaN (snd (delete keyEq isNaN key c))) /\
  (forall now key, regular isNaN (snd (has keyEq isNaN now key c))) /\
  (forall now key currentMtime,
     regular isNaN (snd (isValid keyEq isNaN now key currentMtime c))) /\
  (forall now, regular isNaN (snd (cleanup keyEq isNaN now c))) /\
  regular isNaN (clear c) /\
  (forall capacity ttl, regular isNaN (new capacity ttl : Cache)).
Proof.
  intros Hreg.
  split; [intros; now apply regular_set|].
  split; [intros; now apply regular_get|].
  split; [intros; now apply regular_delete|].
  split; [intros; now apply regular_has|].
  split; [intros; now apply regular_isValid|].
  split; [intros; now apply regular_cleanupLoop|].
  split; [|intros capacity0 ttl0];
    (split; [split; [constructor | split; [constructor | cbn; tauto]]
            | constructor]).
Qed.

(** X2: the size of the cache. On a cache whose map and access order are
    in step, [set] of any key leaves the capacity as it is, never adds
    more than one entry and leaves at least one. When the capacity is a
    finite number, the number of entries never goes above the largest of
    its earlier value, 1 and the capacity rounded up to an integer: a
    cache within a capacity of 1 or more, rounded up, stays within it.
    When the capacity is Infinity or NaN nothing is ever evicted, and a
    new key adds an entry. *)
Theorem size_after_set now key v mt (c : Cache) :
  wellFormed c ->
  let c1 := set keyEq isNaN now key v mt c in
  capacity c1 = capacity c /\
  1 <= size c1 <= size c + 1 /\
  (forall q, capacity c = Finite q ->
     size c1 <= Z.max 1 (Z.max (size c) (Qceiling q)) /\
     (1 <= Qceiling q -> size c <= Qceiling q -> size c1 <= Qceiling q)) /\
  (capacity c = PlusInfinity \/ capacity c = NotANumber ->
   mapGet keyEq key (cache c) = None -> size c1 = size c + 1).
Proof.
  intros (Hm & Ho & Hiff) c1. subst c1. unfold set, size.
  destruct (mapHas keyEq key (cache c)) eqn:Hhas.
  - destruct (cache_moveToEnd key
                (mk (capacity c) (ttl c)
                    (mapSet keyEq key (mkEntry v now mt) (cache c))
                    (accessOrder c))) as (-> & _ & ->).
    cbn [cache capacity]. rewrite length_mapSet, Hhas.
    pose proof Hhas as Hin. apply mapHas_true in Hin.
    assert (Hpos : (1 <= length (cache c))%nat).
    { rewrite <- (length_keys (cache c)).
      destruct (map fst (cache c)); [contradiction | cbn [length]; lia]. }
    split; [reflexivity|]. split; [lia|]. split.
    + intros q _. lia.
    + intros _ Hnone. unfold mapHas in Hhas. now rewrite Hnone in Hhas.
  - destruct (geNumber (Z.of_nat (length (cache c))) (capacity c)) eqn:Hge.
    + unfold evictLRU. destruct (accessOrder c) as [|lru order] eqn:Horder.
      * cbn [cache capacity]. rewrite length_mapSet, Hhas.
        assert (Hempty : length (cache c) = 0%nat).
        { rewrite <- (length_keys (cache c)).
          destruct (map fst (cache c)) as [|k ks]; [reflexivity|].
          destruct (proj2 (Hiff k)). now left. }
        rewrite Hempty in *.
        split; [reflexivity|]. split; [lia|]. split.
        -- intros q _. lia.
        -- intros _ _. reflexivity.
      * cbn [cache capacity].
        assert (Hlru : In lru (keys (cache c)))
          by (apply Hiff; now left).
        pose proof (length_mapDelete lru (cache c) Hlru) as Hlen.
        rewrite length_mapSet.
        replace (mapHas keyEq key (mapDelete keyEq lru (cache c))) with false.
        { split; [reflexivity|]. split; [lia|]. split.
          - intros q _. lia.
          - intros [Hcap|Hcap] _; rewrite Hcap in Hge; discriminate. }
        symmetry. apply not_true_iff_false. rewrite mapHas_true.
        intros Hin. apply not_true_iff_false in Hhas. apply Hhas.
        apply mapHas_true. eapply In_mapDelete; eassumption.
    + cbn [cache capacity]. rewrite length_mapSet, Hhas.
      split; [reflexivity|]. split; [lia|]. split.
      * intros q Hcap. rewrite Hcap in Hge.
        apply not_true_iff_false in Hge. rewrite geNumber_Finite in Hge. lia.
      * intros _ _. lia.
Qed.

(** X3: what was set is what is read, as long as it has not expired. On a
    well-formed cache, [get] after [set] of the same key returns the value
    set when no more than [ttl] has passed since the [set]; when more has
    passed it returns [undefined] and the entry is gone. *)
Theorem get_after_set now now' key v mt (c : Cache) :
  wellFormed c ->
  let c1 := set keyEq isNaN now key v mt c in
  (now' - now <= ttl c -> fst (get keyEq isNaN now' key c1) = Some v) /\
  (now' - now > ttl c ->
   fst (get keyEq isNaN now' key c1) = None /\
   mapGet keyEq key (cache (snd (get keyEq isNaN now' key c1))) = None).
Proof.
  intros Hwf c1.
  assert (Hm1 : NoDup (keys (cache c1))) by (apply NoDup_keys_set, Hwf).
  assert (Hget : mapGet keyEq key (cache c1) = Some (mkEntry v now mt)).
  { subst c1. unfold set. destruct (mapHas keyEq key (cache c)).
    - destruct (cache_moveToEnd key
                  (mk (capacity c) (ttl c)
                      (mapSet keyEq key (mkEntry v now mt) (cache c))
                      (accessOrder c))) as (-> & _).
      apply mapGet_mapSet_same.
    - apply mapGet_mapSet_same. }
  assert (Httl : ttl c1 = ttl c).
  { subst c1. unfold set. destruct (mapHas keyEq key (cache c)).
    - now destruct (cache_moveToEnd key
                  (mk (capacity c) (ttl c)
                      (mapSet keyEq key (mkEntry v now mt) (cache c))
                      (accessOrder c))) as (_ & -> & _).
    - destruct (geNumber _ _); [|reflexivity]. unfold evictLRU.
      now destruct (accessOrder c). }
  unfold get. rewrite Hget. unfold expired. cbn [timestamp value]. rewrite Httl.
  split; intros Hage.
  - replace (now' - now >? ttl c) with false
      by (symmetry; rewrite Z.gtb_ltb; apply Z.ltb_ge; lia).
    reflexivity.
  - replace (now' - now >? ttl c) with true
      by (symmetry; rewrite Z.gtb_ltb; apply Z.ltb_lt; lia).
    split; [reflexivity|]. cbn [snd]. now apply mapGet_after_delete.
Qed.

Lemma length_accessOrder (c : Cache) :
  wellFormed c -> length (accessOrder c) = length (cache c).
Proof.
  intros (Hm & Ho & Hiff). rewrite <- (length_keys (cache c)).
  apply Nat.le_antisymm; apply NoDup_incl_length; try assumption;
    intros k Hk; now apply Hiff.
Qed.

(** X4: [set] evicts the least recently used entry, and only when it must.
    On a cache whose map and access order are in step, setting a key
    other than NaN that is not in the map, when the size of the map is
    not below the capacity, removes the key at the head of the access
    order and nothing else; setting such a key when the size is below the
    capacity, or a key that is there, removes nothing. The key set is the
    most recent one afterwards. *)
Theorem set_evicts_least_recent now key v mt (c : Cache) :
  wellFormed c -> isNaN key = false ->
  let c1 := set keyEq isNaN now key v mt c in
  mapGet keyEq key (cache c1) = Some (mkEntry v now mt) /\
  (exists earlier, accessOrder c1 = earlier ++ [key]) /\
  (forall lru order,
     mapGet keyEq key (cache c) = None ->
     geNumber (size c) (capacity c) = true ->
     accessOrder c = lru :: order ->
     accessOrder c1 = order ++ [key] /\
     mapGet keyEq lru (cache c1) = None /\
     forall k, k <> lru -> k <> key ->
               mapGet keyEq k (cache c1) = mapGet keyEq k (cache c)) /\
  (mapGet keyEq key (cache c) <> None \/
   geNumber (size c) (capacity c) = false ->
   forall k, k <> key -> mapGet keyEq k (cache c1) = mapGet keyEq k (cache c)).
Proof.
  intros Hwf Hkey c1. pose proof Hwf as (Hm & Ho & Hiff).
  subst c1. unfold set, size.
  destruct (mapHas keyEq key (cache c)) eqn:Hhas.
  - (* the key is there *)
    set (c0 := mk (capacity c) (ttl c)
                  (mapSet keyEq key (mkEntry v now mt) (cache c))
                  (accessOrder c)).
    destruct (cache_moveToEnd key c0) as (Hcache & _). rewrite Hcache.
    assert (Hin : In key (accessOrder c))
      by (apply Hiff; now apply mapHas_true).
    unfold mapHas in Hhas.
    destruct (mapGet keyEq key (cache c)) as [e0|] eqn:Hget; [|discriminate].
    split; [apply mapGet_mapSet_same|]. split; [|split].
    + unfold moveToEnd. cbn [accessOrder c0].
      replace (inOrder keyEq isNaN key (accessOrder c)) with true
        by (symmetry; now apply inOrder_true).
      cbn [accessOrder]. now eexists.
    + intros lru order Hnone. discriminate.
    + intros _ k Hk. cbn [cache c0]. now apply mapGet_mapSet_other.
  - (* a new key *)
    assert (Hnone : mapGet keyEq key (cache c) = None).
    { unfold mapHas in Hhas. now destruct (mapGet keyEq key (cache c)). }
    assert (Hnew : ~ In key (keys (cache c))) by now apply mapGet_None.
    cbn [cache accessOrder].
    split; [apply mapGet_mapSet_same|]. split; [now eexists|]. split.
    + intros lru order _ Hfull Horder. rewrite Hfull.
      unfold evictLRU. rewrite Horder. cbn [cache accessOrder].
      assert (Hlru : In lru (keys (cache c)))
        by (apply Hiff; rewrite Horder; now left).
      assert (Hne : lru <> key) by (intros ->; contradiction).
      split; [reflexivity|]. split.
      * rewrite mapGet_mapSet_other by assumption.
        now apply mapGet_mapDelete_same.
      * intros k Hk1 Hk2.
        rewrite mapGet_mapSet_other, mapGet_mapDelete_other by assumption.
        reflexivity.
    + intros [Hthere|Hroom] k Hk; [congruence|]. rewrite Hroom.
      now apply mapGet_mapSet_other.
Qed.

(** X5: reading an entry protects it. On a cache with two or more entries
    whose map and access order are in step, after a [get] of a key other
    than NaN that returns a value, the next [set] of a new key does not
    evict the entry that was read. *)
Theorem read_entry_survives now now2 key key2 v v2 mt2 (c : Cache) :
  wellFormed c -> isNaN key = false ->
  fst (get keyEq isNaN now key c) = Some v ->
  (2 <= length (cache c))%nat ->
  mapGet keyEq key2 (cache c) = None ->
  mapGet keyEq key
    (cache (set keyEq isNaN now2 key2 v2 mt2 (snd (get keyEq isNaN now key c))))
  = mapGet keyEq key (cache c).
Proof.
  intros Hwf Hkey Hhit Hsize Hnew. pose proof Hwf as (Hm & Ho & Hiff).
  unfold get in *.
  destruct (mapGet keyEq key (cache c)) as [e|] eqn:Hget; [|discriminate].
  destruct (expired now c e); [discriminate|]. cbn [snd].
  assert (Hin : In key (accessOrder c))
    by (apply Hiff; eapply mapGet_Some_In; eassumption).
  assert (Hne : key <> key2) by (intros ->; congruence).
  unfold set, moveToEnd.
  replace (inOrder keyEq isNaN key (accessOrder c)) with true
    by (symmetry; now apply inOrder_true).
  cbn [cache accessOrder capacity ttl].
  replace (mapHas keyEq key2 (cache c)) with false
    by (unfold mapHas; now rewrite Hnew).
  destruct (geNumber _ _); cbn [cache];
    [|rewrite mapGet_mapSet_other by assumption; exact Hget].
  unfold evictLRU. cbn [accessOrder cache].
  pose proof (length_removeKey key (accessOrder c) Hkey Hin) as Hlen.
  rewrite (length_accessOrder c Hwf) in Hlen.
  destruct (removeKey keyEq isNaN key (accessOrder c)) as [|lru order] eqn:Hrest;
    [cbn [length] in Hlen; lia|].
  cbn [app cache].
  assert (Hlru : lru <> key).
  { assert (H : In lru (removeKey keyEq isNaN key (accessOrder c)))
      by (rewrite Hrest; now left).
    apply In_removeKey_iff in H; tauto. }
  rewrite mapGet_mapSet_other, mapGet_mapDelete_other by congruence.
  exact Hget.
Qed.

(** X6: an expired entry is never served. On a well-formed cache, when
    more than [ttl] has passed since an entry was set, [get] returns
    [undefined], [has] and [isValid] return false, and each of them
    removes the entry. *)
Theorem expired_never_served now key currentMtime e (c : Cache) :
  wellFormed c ->
  mapGet keyEq key (cache c) = Some e -> now - timestamp e > ttl c ->
  (fst (get keyEq isNaN now key c) = None /\
   mapGet keyEq key (cache (snd (get keyEq isNaN now key c))) = None) /\
  (fst (has keyEq isNaN now key c) = false /\
   mapGet keyEq key (cache (snd (has keyEq isNaN now key c))) = None) /\
  (fst (isValid keyEq isNaN now key currentMtime c) = false /\
   mapGet keyEq key
     (cache (snd (isValid keyEq isNaN now key currentMtime c)))
   = None).
Proof.
  intros (Hm & _) Hget Hold. unfold get, has, isValid. rewrite Hget.
  replace (expired now c e) with true
    by (symmetry; unfold expired; rewrite Z.gtb_ltb; apply Z.ltb_lt; lia).
  cbn [fst snd]. repeat split; now apply mapGet_after_delete.
Qed.

(** X7: [isValid] compares modification times. On a well-formed cache, for
    an entry that has not expired, [isValid(key, currentMtime)] is true
    exactly when the entry has no [mtime] or one that is not older than
    [currentMtime]; when it is true the cache is unchanged, and when it is
    false the entry is removed. *)
Theorem isValid_by_mtime now key currentMtime e (c : Cache) :
  wellFormed c ->
  mapGet keyEq key (cache c) = Some e -> now - timestamp e <= ttl c ->
  let r := isValid keyEq isNaN now key currentMtime c in
  (fst r = true <-> forall m, mtime e = Some m -> currentMtime <= m) /\
  (fst r = true -> snd r = c) /\
  (fst r = false -> mapGet keyEq key (cache (snd r)) = None).
Proof.
  intros (Hm & _) Hget Hfresh r. subst r. unfold isValid. rewrite Hget.
  replace (expired now c e) with false
    by (symmetry; unfold expired; rewrite Z.gtb_ltb; apply Z.ltb_ge; lia).
  destruct (mtime e) as [m|].
  - destruct (Z.ltb_spec m currentMtime); cbn [fst snd].
    + split; [split; [discriminate|]|split; [discriminate|]].
      * intros H0. specialize (H0 m eq_refl). lia.
      * intros _. now apply mapGet_after_delete.
    + split; [split; [|reflexivity]|split; [reflexivity|discriminate]].
      intros _ m' Hm'. injection Hm' as <-. lia.
  - cbn [fst snd]. split; [split; [|reflexivity]|split; [reflexivity|discriminate]].
    intros _ m' Hm'. discriminate.
Qed.

Lemma mapGet_app_head key e (pre more : list (K * Entry V)) :
  ~ In key (keys pre) ->
  mapGet keyEq key (pre ++ (key, e) :: more) = Some e /\
  mapDelete keyEq key (pre ++ (key, e) :: more) = pre ++ more.
Proof.
  induction pre as [|[k e'] pre IH]; cbn [app mapGet mapDelete map fst In].
  - intros _. now rewrite keyEq_refl.
  - intros Hnot. rewrite keyEq_neq by (intros ->; tauto).
    destruct IH as [-> ->]; [tauto|]. now split.
Qed.

Lemma cleanupLoop_spec now capacity0 ttl0 :
  forall (entries pre : list (K * Entry V)) cleaned (order : list K),
    NoDup (keys (pre ++ entries)) ->
    exists order',
      cleanupLoop keyEq isNaN now entries cleaned
        (mk capacity0 ttl0 (pre ++ entries) order)
      = (cleaned
         + Z.of_nat (length (filter (fun ke => now - timestamp (snd ke) >? ttl0)
                                    entries)),
         mk capacity0 ttl0
            (pre ++ filter (fun ke => negb (now - timestamp (snd ke) >? ttl0))
                           entries)
            order').
Proof.
  induction entries as [|[k e] more IH]; intros pre cleaned order Hnd.
  - exists order. cbn. now rewrite Z.add_0_r.
  - cbn [cleanupLoop filter snd]. unfold expired at 1. cbn [ttl].
    assert (Hk : ~ In k (keys pre)).
    { rewrite map_app in Hnd. cbn [map fst] in Hnd.
      apply NoDup_remove_2 in Hnd. rewrite in_app_iff in Hnd. tauto. }
    destruct (now - timestamp e >? ttl0); cbn [negb].
    + destruct (mapGet_app_head k e pre more Hk) as [Hget Hdel].
      unfold delete. cbn [cache]. unfold mapHas. rewrite Hget, Hdel.
      cbn [snd capacity ttl accessOrder].
      destruct (IH pre (cleaned + 1) (removeKey keyEq isNaN k order))
        as (order' & ->).
      { rewrite map_app in *. cbn [map fst] in Hnd.
        now apply NoDup_remove_1 in Hnd. }
      exists order'. cbn [length]. f_equal. lia.
    + replace (pre ++ (k, e) :: more) with ((pre ++ [(k, e)]) ++ more)
        by now rewrite <- app_assoc.
      destruct (IH (pre ++ [(k, e)]) cleaned order) as (order' & ->).
      { now rewrite <- app_assoc. }
      exists order'. now rewrite <- app_assoc.
Qed.

(** X8: [cleanup] removes the expired entries and counts them. On a cache
    whose map and access order are in step it leaves in the map exactly
    the entries that have not expired, in their order, and returns the
    number of those it removed; when moreover no key is NaN, the map and
    the access order are still in step afterwards, with no key NaN. *)
Theorem cleanup_drops_expired now (c : Cache) :
  wellFormed c ->
  let r := cleanup keyEq isNaN now c in
  cache (snd r) = filter (fun ke => negb (expired now c (snd ke))) (cache c) /\
  fst r = Z.of_nat (length (filter (fun ke => expired now c (snd ke)) (cache c))) /\
  size (snd r) = size c - fst r /\
  (regular isNaN c -> regular isNaN (snd r)).
Proof.
  intros Hwf r. subst r. unfold cleanup.
  pose proof (regular_cleanupLoop now (cache c) 0 c) as Hreg'.
  destruct c as [capacity0 ttl0 m order]. destruct Hwf as (Hm & _).
  cbn [cache] in *.
  destruct (cleanupLoop_spec now capacity0 ttl0 m [] 0 order Hm)
    as (order' & Hrun).
  cbn [app] in Hrun. rewrite Hrun in *. cbn [fst snd cache].
  unfold expired, size. cbn [ttl cache].
  split; [reflexivity|]. split; [reflexivity|]. split; [|exact Hreg'].
  pose proof (filter_length (fun ke : K * Entry V => now - timestamp (snd ke) >? ttl0) m).
  lia.
Qed.

End Facts.

Lemma sameValueZero_eq (a b : NumberKey) : sameValueZero a b = true <-> a = b.
Proof.
  destruct a as [|x], b as [|y]; cbn [sameValueZero];
    try (split; [discriminate | intros H; discriminate H]);
    [tauto|].
  rewrite N.eqb_eq. split; [now intros -> | now intros [= ->]].
Qed.

(** The cache of the examples is regular. *)
Lemma regular_cacheOfTwo : regular keyIsNaN cacheOfTwo.
Proof.
  split; [|repeat constructor].
  unfold wellFormed; cbn; split; [|split];
    [ repeat constructor; cbn; intuition discriminate
    | repeat constructor; cbn; intuition discriminate
    | intros k; tauto ].
Qed.

Lemma wellFormed_cacheOfTwo : wellFormed cacheOfTwo.
Proof. exact (proj1 regular_cacheOfTwo). Qed.

(** A key that is NaN: [delete] takes it out of the map and leaves it in
    the access order, where [indexOf] does not find it. The next [set] of
    a new key in a full cache then evicts NaN, which is not in the map:
    a cache of one place holds two entries. *)
Example NaN_stays_in_the_access_order :
  let c1 := set sameValueZero keyIsNaN 0 KeyNaN 0 None
              (new (Finite 1) 1000 : LRUCache.t NumberKey Z) in
  let c2 := snd (delete sameValueZero keyIsNaN KeyNaN c1) in
  regular keyIsNaN (new (Finite 1) 1000 : LRUCache.t NumberKey Z) /\
  wellFormed c1 /\
  cache c2 = [] /\ accessOrder c2 = [KeyNaN] /\
  size cacheAfterNaN = 2 /\ capacity cacheAfterNaN = Finite 1 /\
  accessOrder cacheAfterNaN = [KeyNum 1; KeyNum 2].
Proof.
  cbv zeta. split; [|split]; [| |repeat split].
  - split; [split; [constructor | split; [constructor | cbn; tauto]]
           | constructor].
  - unfold wellFormed; cbn; split; [|split];
      [ repeat constructor; cbn; intuition discriminate
      | repeat constructor; cbn; intuition discriminate
      | intros k; tauto ].
Qed.

(** A capacity that is not an integer: a cache of capacity 1.5 holds two
    entries. *)
Example fractional_capacity :
  size (set sameValueZero keyIsNaN 1 (KeyNum 2) 200 None
          (set sameValueZero keyIsNaN 0 (KeyNum 1) 100 None
             (new (Finite (3 # 2)) 1000 : LRUCache.t NumberKey Z))) = 2.
Proof. reflexivity. Qed.

Lemma invariant_kept_witness :
  (forall (now : Z) (key : NumberKey) (v : Z) (mt : option Z),
     keyIsNaN key = false ->
     regular keyIsNaN (set sameValueZero keyIsNaN now key v mt cacheOfTwo)) /\
  (forall (now : Z) (key : NumberKey),
     regular keyIsNaN (snd (get sameValueZero keyIsNaN now key cacheOfTwo))) /\
  (forall key : NumberKey,
     regular keyIsNaN (snd (delete sameValueZero keyIsNaN key cacheOfTwo))) /\
  (forall (now : Z) (key : NumberKey),
     regular keyIsNaN (snd (has sameValueZero keyIsNaN now key cacheOfTwo))) /\
  (forall (now : Z) (key : NumberKey) (currentMtime : Z),
     regular keyIsNaN
       (snd (isValid sameValueZero keyIsNaN now key currentMtime cacheOfTwo))) /\
  (forall now : Z,
     regular keyIsNaN (snd (cleanup sameValueZero keyIsNaN now cacheOfTwo))) /\
  regular keyIsNaN (clear cacheOfTwo) /\
  (forall (capacity : number) (ttl : Z),
     regular keyIsNaN (new capacity ttl : LRUCache.t NumberKey Z)).
Proof.
  exact (invariant_kept NumberKey Z sameValueZero keyIsNaN sameValueZero_eq
           cacheOfTwo regular_cacheOfTwo).
Defined.

Lemma size_after_set_witness :
  let c1 := set sameValueZero keyIsNaN 20 (KeyNum 3) 300 None cacheOfTwo in
  capacity c1 = capacity cacheOfTwo /\
  1 <= size c1 <= size cacheOfTwo + 1 /\
  (forall q, capacity cacheOfTwo = Finite q ->
     size c1 <= Z.max 1 (Z.max (size cacheOfTwo) (Qceiling q)) /\
     (1 <= Qceiling q -> size cacheOfTwo <= Qceiling q ->
      size c1 <= Qceiling q)) /\
  (capacity cacheOfTwo = PlusInfinity \/ capacity cacheOfTwo = NotANumber ->
   mapGet sameValueZero (KeyNum 3) (cache cacheOfTwo) = None ->
   size c1 = size cacheOfTwo + 1).
Proof.
  exact (size_after_set NumberKey Z sameValueZero keyIsNaN sameValueZero_eq
           20 (KeyNum 3) 300 None cacheOfTwo wellFormed_cacheOfTwo).
Defined.

Lemma get_after_set_witness :
  let c1 := set sameValueZero keyIsNaN 20 (KeyNum 3) 300 None cacheOfTwo in
  (30 - 20 <= ttl cacheOfTwo ->
   fst (get sameValueZero keyIsNaN 30 (KeyNum 3) c1) = Some 300) /\
  (30 - 20 > ttl cacheOfTwo ->
   fst (get sameValueZero keyIsNaN 30 (KeyNum 3) c1) = None /\
   mapGet sameValueZero (KeyNum 3)
     (cache (snd (get sameValueZero keyIsNaN 30 (KeyNum 3) c1))) = None).
Proof.
  exact (get_after_set NumberKey Z sameValueZero keyIsNaN sameValueZero_eq
           20 30 (KeyNum 3) 300 None cacheOfTwo wellFormed_cacheOfTwo).
Defined.

Lemma set_evicts_least_recent_witness :
  let c1 := set sameValueZero keyIsNaN 20 (KeyNum 3) 300 None cacheOfTwo in
  mapGet sameValueZero (KeyNum 3) (cache c1) = Some (mkEntry 300 20 None) /\
  (exists earlier : list NumberKey, accessOrder c1 = earlier ++ [KeyNum 3]) /\
  (forall (lru : NumberKey) (order : list NumberKey),
     mapGet sameValueZero (KeyNum 3) (cache cacheOfTwo) = None ->
     geNumber (size cacheOfTwo) (capacity cacheOfTwo) = true ->
     accessOrder cacheOfTwo = lru :: order ->
     accessOrder c1 = order ++ [KeyNum 3] /\
     mapGet sameValueZero lru (cache c1) = None /\
     (forall k : NumberKey,
        k <> lru -> k <> KeyNum 3 ->
        mapGet sameValueZero k (cache c1)
        = mapGet sameValueZero k (cache cacheOfTwo))) /\
  (mapGet sameValueZero (KeyNum 3) (cache cacheOfTwo) <> None \/
   geNumber (size cacheOfTwo) (capacity cacheOfTwo) = false ->
   forall k : NumberKey,
     k <> KeyNum 3 ->
     mapGet sameValueZero k (cache c1)
     = mapGet sameValueZero k (cache cacheOfTwo)).
Proof.
  exact (set_evicts_least_recent NumberKey Z sameValueZero keyIsNaN
           sameValueZero_eq 20 (KeyNum 3) 300 None cacheOfTwo
           wellFormed_cacheOfTwo eq_refl).
Defined.

Lemma read_entry_survives_witness :
  mapGet sameValueZero (KeyNum 1)
    (cache (set sameValueZero keyIsNaN 30 (KeyNum 3) 300 None
              (snd (get sameValueZero keyIsNaN 20 (KeyNum 1) cacheOfTwo))))
  = mapGet sameValueZero (KeyNum 1) (cache cacheOfTwo).
Proof.
  exact (read_entry_survives NumberKey Z sameValueZero keyIsNaN
           sameValueZero_eq 20 30 (KeyNum 1) (KeyNum 3) 100 300 None
           cacheOfTwo wellFormed_cacheOfTwo eq_refl eq_refl (le_n 2) eq_refl).
Defined.

Lemma expired_never_served_witness :
  (fst (get sameValueZero keyIsNaN 2000 (KeyNum 1) cacheOfTwo) = None /\
   mapGet sameValueZero (KeyNum 1)
     (cache (snd (get sameValueZero keyIsNaN 2000 (KeyNum 1) cacheOfTwo)))
   = None) /\
  (fst (has sameValueZero keyIsNaN 2000 (KeyNum 1) cacheOfTwo) = false /\
   mapGet sameValueZero (KeyNum 1)
     (cache (snd (has sameValueZero keyIsNaN 2000 (KeyNum 1) cacheOfTwo)))
   = None) /\
  (fst (isValid sameValueZero keyIsNaN 2000 (KeyNum 1) 0 cacheOfTwo) = false /\
   mapGet sameValueZero (KeyNum 1)
     (cache (snd (isValid sameValueZero keyIsNaN 2000 (KeyNum 1) 0
                    cacheOfTwo)))
   = None).
Proof.
  exact (expired_never_served NumberKey Z sameValueZero keyIsNaN
           sameValueZero_eq 2000 (KeyNum 1) 0
           (mkEntry 100 0 (Some 50)) cacheOfTwo wellFormed_cacheOfTwo
           eq_refl eq_refl).
Defined.

Lemma isValid_by_mtime_witness :
  let r := isValid sameValueZero keyIsNaN 20 (KeyNum 1) 40 cacheOfTwo in
  (fst r = true <->
   (forall m : Z, mtime (mkEntry 100 0 (Some 50)) = Some m -> 40 <= m)) /\
  (fst r = true -> snd r = cacheOfTwo) /\
  (fst r = false -> mapGet sameValueZero (KeyNum 1) (cache (snd r)) = None).
Proof.
  exact (isValid_by_mtime NumberKey Z sameValueZero keyIsNaN sameValueZero_eq
           20 (KeyNum 1) 40
           (mkEntry 100 0 (Some 50)) cacheOfTwo wellFormed_cacheOfTwo
           eq_refl ltac:(vm_compute; discriminate)).
Defined.

Lemma cleanup_drops_expired_witness :
  let r := cleanup sameValueZero keyIsNaN 1005 cacheOfTwo in
  cache (snd r)
  = filter (fun ke : NumberKey * Entry Z =>
              negb (expired 1005 cacheOfTwo (snd ke)))
           (cache cacheOfTwo) /\
  fst r
  = Z.of_nat
      (length (filter (fun ke : NumberKey * Entry Z =>
                         expired 1005 cacheOfTwo (snd ke))
                      (cache cacheOfTwo))) /\
  size (snd r) = size cacheOfTwo - fst r /\
  (regular keyIsNaN cacheOfTwo -> regular keyIsNaN (snd r)).
Proof.
  exact (cleanup_drops_expired NumberKey Z sameValueZero keyIsNaN
           sameValueZero_eq 1005 cacheOfTwo wellFormed_cacheOfTwo).
Defined.

End LRUCacheFacts.
(* ================================================================== *)
(** * The escaped text holds no markup, and can be read back *)
(* ================================================================== *)

Lemma spec_escapeChar_cases c :
  (c = AMP /\ spec_escapeChar c = [38; 97; 109; 112; 59]%N) \/
  (c = LT /\ spec_escapeChar c = [38; 108; 116; 59]%N) \/
  (c = GT /\ spec_escapeChar c = [38; 103; 116; 59]%N) \/
  (c = DQUOTE /\ spec_escapeChar c = [38; 113; 117; 111; 116; 59]%N) \/
  (c <> AMP /\ c <> LT /\ c <> GT /\ c <> DQUOTE /\ spec_escapeChar c = [c]).
Proof.
  unfold spec_escapeChar.
  destruct (N.eqb_spec c AMP) as [->|Ha]; [now left|].
  destruct (N.eqb_spec c LT) as [->|Hl]; [now right; left|].
  destruct (N.eqb_spec c GT) as [->|Hg]; [now right; right; left|].
  destruct (N.eqb_spec c DQUOTE) as [->|Hq]; [now right; right; right; left|].
  now right; right; right; right.
Qed.

Lemma includesChar_app c a b :
  includesChar c (a ++ b) = includesChar c a || includesChar c b.
Proof. apply existsb_app. Qed.

Lemma spec_escapeChar_clean c :
  includesChar LT (spec_escapeChar c) = false /\
  includesChar GT (spec_escapeChar c) = false /\
  includesChar DQUOTE (spec_escapeChar c) = false.
Proof.
  destruct (spec_escapeChar_cases c)
    as [[_ ->]|[[_ ->]|[[_ ->]|[[_ ->]|(Ha & Hl & Hg & Hq & ->)]]]];
    try (repeat split; reflexivity).
  unfold includesChar; cbn [existsb]. rewrite !orb_false_r.
  repeat split; apply N.eqb_neq; congruence.
Qed.

Lemma flat_map_escape_clean s :
  includesChar LT (flat_map spec_escapeChar s) = false /\
  includesChar GT (flat_map spec_escapeChar s) = false /\
  includesChar DQUOTE (flat_map spec_escapeChar s) = false.
Proof.
  induction s as [|c s (IH1 & IH2 & IH3)]; [repeat split; reflexivity|].
  cbn [flat_map]. rewrite !includesChar_app, IH1, IH2, IH3.
  destruct (spec_escapeChar_clean c) as (-> & -> & ->). repeat split; reflexivity.
Qed.

Lemma length_spec_escapeChar c : (1 <= length (spec_escapeChar c))%nat.
Proof.
  destruct (spec_escapeChar_cases c)
    as [[_ ->]|[[_ ->]|[[_ ->]|[[_ ->]|(_ & _ & _ & _ & ->)]]]]; cbn; lia.
Qed.

Lemma flat_map_escape_injective :
  forall s t, flat_map spec_escapeChar s = flat_map spec_escapeChar t -> s = t.
Proof.
  induction s as [|a s IH]; intros [|b t] H; cbn [flat_map] in H.
  - reflexivity.
  - pose proof (length_spec_escapeChar b) as Hb.
    apply (f_equal (@length N)) in H. rewrite length_app in H. cbn in H. lia.
  - pose proof (length_spec_escapeChar a) as Ha.
    apply (f_equal (@length N)) in H. rewrite length_app in H. cbn in H. lia.
  - assert (Hab : a = b /\ flat_map spec_escapeChar s = flat_map spec_escapeChar t).
    { destruct (spec_escapeChar_cases a)
        as [[Ha Ea]|[[Ha Ea]|[[Ha Ea]|[[Ha Ea]|(A1 & A2 & A3 & A4 & Ea)]]]];
      destruct (spec_escapeChar_cases b)
        as [[Hb Eb]|[[Hb Eb]|[[Hb Eb]|[[Hb Eb]|(B1 & B2 & B3 & B4 & Eb)]]]];
      rewrite Ea, Eb in H; cbn [app] in H;
      try discriminate H;
      injection H; intros; subst;
      try (split; [reflexivity | assumption]);
      try (exfalso; unfold AMP in *; congruence). }
    destruct Hab as [-> Hrest]. f_equal. now apply IH.
Qed.

(** X9: escaped text holds no markup character. Whatever the text, the
    results of [escapeHtml] and of [escapeAttributeValue] contain no [<],
    no [>] and no double quote, and are never shorter than the text. *)
Theorem escaped_text_has_no_markup (s : str) :
  (includesChar LT (escapeHtml s) = false /\
   includesChar GT (escapeHtml s) = false /\
   includesChar DQUOTE (escapeHtml s) = false) /\
  (includesChar LT (escapeAttributeValue s) = false /\
   includesChar GT (escapeAttributeValue s) = false /\
   includesChar DQUOTE (escapeAttributeValue s) = false) /\
  jsLength s <= jsLength (escapeHtml s).
Proof.
  change (escapeAttributeValue s) with (escapeHtml s).
  rewrite escapeHtml_charwise.
  split; [apply flat_map_escape_clean|]. split; [apply flat_map_escape_clean|].
  unfold jsLength. apply inj_le.
  induction s as [|c s IH]; cbn [flat_map length]; [lia|].
  rewrite length_app. pose proof (length_spec_escapeChar c). lia.
Qed.

(** X10: escaping loses nothing. Two texts with the same escaped form are
    the same text. *)
Theorem escapeHtml_injective (s t : str) :
  escapeHtml s = escapeHtml t -> s = t.
Proof.
  rewrite !escapeHtml_charwise. apply flat_map_escape_injective.
Qed.

Lemma escapeHtml_injective_witness : markupText = markupText.
Proof. exact (escapeHtml_injective markupText markupText eq_refl). Defined.

(* ================================================================== *)
(** * The output of a forest is the output of its parts *)
(* ================================================================== *)

Lemma push_rebase base pieces g :
  push pieces (rebase base g) = rebase base (push pieces g).
Proof. unfold push, rebase; cbn. now rewrite app_assoc. Qed.

Lemma pushIndented_rebase base pieces g :
  pushIndented pieces (rebase base g) = rebased base (pushIndented pieces g).
Proof.
  unfold pushIndented. change (indent (rebase base g)) with (indent g).
  destruct (indent g) as [s|e|]; try reflexivity.
  unfold rebased; cbn [fst snd]. now rewrite push_rebase.
Qed.

Lemma andThen_rebase base (m : Method unit) (k : unit -> Method unit) g :
  m (rebase base g) = rebased base (m g) ->
  (forall u g1, k u (rebase base g1) = rebased base (k u g1)) ->
  andThen m k (rebase base g) = rebased base (andThen m k g).
Proof.
  intros Hm Hk. unfold andThen. rewrite Hm. unfold rebased at 1.
  destruct (m g) as [[u|e|] g1]; cbn [fst snd]; [apply Hk | |]; reflexivity.
Qed.

Lemma generateTextLines_rebase base escape count lines :
  forall i g,
    generateTextLines escape count i lines (rebase base g)
    = rebased base (generateTextLines escape count i lines g).
Proof.
  induction lines as [|l more IH]; intros i g; cbn [generateTextLines];
    [reflexivity|].
  destruct (trim l) as [|c t]; [apply IH|].
  change (indentLevel (rebase base g)) with (indentLevel g).
  apply andThen_rebase.
  - destruct ((i =? 0) && (indentLevel g =? 0));
      [unfold rebased; cbn [fst snd]; now rewrite push_rebase
      | apply pushIndented_rebase].
  - intros _ g1. change (newLine (rebase base g1)) with (newLine g1).
    destruct (i <? count - 1); rewrite ?push_rebase; apply IH.
Qed.

Lemma generateText_rebase base content g :
  generateText content (rebase base g)
  = rebased base (generateText content g).
Proof.
  unfold generateText.
  change (currentParentTag (rebase base g)) with (currentParentTag g).
  change (minifying (rebase base g)) with (minifying g).
  destruct (minifying g);
    [unfold rebased; cbn [fst snd]; now rewrite push_rebase|].
  destruct (splitLines content) as [|l [|l' ls]];
    try apply generateTextLines_rebase.
  apply pushIndented_rebase.
Qed.

Lemma aroundChild_rebase base tagName (f : Method unit) g :
  (forall g0, f (rebase base g0) = rebased base (f g0)) ->
  aroundChild tagName f (rebase base g)
  = rebased base (aroundChild tagName f g).
Proof.
  intros Hf. unfold aroundChild.
  change (setCurrentParentTag tagName (rebase base g))
    with (rebase base (setCurrentParentTag tagName g)).
  change (currentParentTag (rebase base g)) with (currentParentTag g).
  apply andThen_rebase; [apply Hf|].
  intros _ g1.
  change (setCurrentParentTag (currentParentTag g) (rebase base g1))
    with (rebase base (setCurrentParentTag (currentParentTag g) g1)).
  set (g2 := setCurrentParentTag (currentParentTag g) g1).
  change (minifying (rebase base g2)) with (minifying g2).
  change (newLine (rebase base g2)) with (newLine g2).
  unfold rebased; cbn [fst snd].
  destruct (minifying g2); [reflexivity | now rewrite push_rebase].
Qed.

Lemma eachChild_rebase base tagName children :
  Forall (fun child =>
            forall g, generateNode child (rebase base g)
                      = rebased base (generateNode child g)) children ->
  forall g,
    eachChild tagName generateNode children (rebase base g)
    = rebased base (eachChild tagName generateNode children g).
Proof.
  induction 1 as [|child more Hchild _ IH]; intros g; cbn [eachChild];
    [reflexivity|].
  apply andThen_rebase; [now apply aroundChild_rebase|].
  intros _ g1. apply IH.
Qed.

Lemma openBlock_rebase base tagName attrs g :
  openBlock tagName attrs (rebase base g)
  = rebased base (openBlock tagName attrs g).
Proof.
  unfold openBlock. apply andThen_rebase; [apply pushIndented_rebase|].
  intros _ g1.
  change (minifying (rebase base g1)) with (minifying g1).
  change (newLine (rebase base g1)) with (newLine g1).
  change (indentLevel (rebase base g1)) with (indentLevel g1).
  unfold rebased; cbn [fst snd].
  destruct (minifying g1); [reflexivity|].
  rewrite push_rebase. reflexivity.
Qed.

Lemma closeBlock_rebase base tagName g :
  closeBlock tagName (rebase base g) = rebased base (closeBlock tagName g).
Proof.
  unfold closeBlock.
  change (minifying (rebase base g)) with (minifying g).
  destruct (minifying g); [apply pushIndented_rebase|].
  change (setIndentLevel (indentLevel (rebase base g) - 1) (rebase base g))
    with (rebase base (setIndentLevel (indentLevel g - 1) g)).
  apply pushIndented_rebase.
Qed.

Lemma generateNode_rebase base node :
  forall g, generateNode node (rebase base g)
            = rebased base (generateNode node g).
Proof.
  induction node as [doctype|content|name classes id attributes children sc IH]
    using ASTNode_nested_ind; intros g.
  - cbn [generateNode]. unfold rebased, generateDoctype; cbn [fst snd].
    now rewrite push_rebase.
  - apply generateText_rebase.
  - assert (Hblock :
      andThen (openBlock name (generateAttributes attributes classes id))
        (fun _ =>
           andThen (eachChild name generateNode children)
             (fun _ => closeBlock name)) (rebase base g)
      = rebased base
          (andThen (openBlock name (generateAttributes attributes classes id))
             (fun _ =>
                andThen (eachChild name generateNode children)
                  (fun _ => closeBlock name)) g)).
    { apply andThen_rebase; [apply openBlock_rebase|].
      intros _ g1. apply andThen_rebase; [now apply eachChild_rebase|].
      intros _ g2. apply closeBlock_rebase. }
    cbn [generateNode].
    destruct sc; [apply pushIndented_rebase|].
    destruct children as [|[d|n c i a ch s|t] [|second more]];
      try exact Hblock; try apply pushIndented_rebase.
    destruct (fitsInline _); [apply pushIndented_rebase | exact Hblock].
Qed.

Lemma generateAll_rebase base ast :
  forall g, generateAll ast (rebase base g) = rebased base (generateAll ast g).
Proof.
  induction ast as [|node more IH]; intros g; cbn [generateAll]; [reflexivity|].
  apply andThen_rebase; [apply generateNode_rebase|].
  intros _ g1.
  change (minifying (rebase base g1)) with (minifying g1).
  change (newLine (rebase base g1)) with (newLine g1).
  destruct (minifying g1); [apply IH|]. rewrite push_rebase. apply IH.
Qed.

Lemma generateAll_app ast1 ast2 :
  forall g, generateAll (ast1 ++ ast2) g
            = andThen (generateAll ast1) (fun _ => generateAll ast2) g.
Proof.
  induction ast1 as [|node more IH]; intros g; cbn [app generateAll];
    [reflexivity|].
  unfold andThen.
  destruct (generateNode node g) as [[u|e|] g1]; try reflexivity.
  rewrite IH. reflexivity.
Qed.

Lemma grows_rebase g g' :
  grows g g' -> outputBuffer g = [] -> g' = rebase (outputBuffer g') g.
Proof.
  intros (Ho & Hp & Hd & Hi & out & Hb) Hnil.
  destruct g as [i o p d b], g' as [i' o' p' d' b']; cbn in *. subst.
  unfold rebase; cbn. now rewrite app_nil_r.
Qed.

(** X11: the generator only appends, and restores what it changes when
    it returns. When generating a node, or a list of nodes, returns, the
    options, the current parent tag and the indentation level are as
    they were, and pieces have been added at the end of the output
    buffer. When it throws, the options are as they were and the buffer
    has only grown, but the parent tag and the level may be left changed.
    It returns whenever the indentation can be built at the level of the
    generator and at every deeper one. *)
Theorem generation_only_appends (node : ASTNode) (ast : list ASTNode)
  (g : Generator) :
  (forall g', generateNode node g = (Done tt, g') -> grows g g') /\
  (forall g', generateAll ast g = (Done tt, g') -> grows g g') /\
  extends g (snd (generateNode node g)) /\
  extends g (snd (generateAll ast g)) /\
  (calm g ->
   (exists g', generateNode node g = (Done tt, g')) /\
   (exists g', generateAll ast g = (Done tt, g'))).
Proof.
  split; [intros g'; apply generateNode_grows|].
  split; [intros g'; apply generateAll_grows|].
  split; [apply generateNode_keeps|].
  split; [apply generateAll_keeps|].
  intros Hcalm. split.
  - destruct (generateNode_calm node g Hcalm) as ([] & g' & H). now exists g'.
  - destruct (generateAll_calm ast g Hcalm) as ([] & g' & H). now exists g'.
Qed.

Lemma generate_app ast1 ast2 given g r1 r2 :
  disposed g = false ->
  fst (generate ast1 given g) = Done r1 ->
  fst (generate ast2 given g) = Done r2 ->
  exists r,
    fst (generate (ast1 ++ ast2) given g) = Done r /\
    joined r = joined r1 ++ joined r2 /\
    formatting r = formatting r1 /\
    snd (generate (ast1 ++ ast2) given g) = snd (generate ast1 given g).
Proof.
  intros Hlive H1 H2.
  destruct (generate_returned ast1 given g r1 Hlive H1)
    as (Hs1 & g1 & Hrun1 & Hj1).
  destruct (generate_returned ast2 given g r2 Hlive H2)
    as (_ & g2 & Hrun2 & Hj2).
  set (opts := match given with
               | Some o => mergeOptions (options g) o
               | None => options g
               end) in *.
  set (start := mkGenerator 0 opts (currentParentTag g) false []) in *.
  assert (Hrun : generateAll (ast1 ++ ast2) start
                 = (Done tt, rebase (outputBuffer g1) g2)).
  { rewrite generateAll_app, (andThen_returned _ _ _ _ _ Hrun1).
    rewrite (grows_rebase start g1 (generateAll_grows _ _ _ _ Hrun1) eq_refl)
      at 1.
    rewrite generateAll_rebase, Hrun2. reflexivity. }
  pose proof (proj1 (generate_unfold ast1 given g Hlive) tt g1 Hrun1) as E1.
  pose proof (proj1 (generate_unfold (ast1 ++ ast2) given g Hlive) tt _ Hrun)
    as E.
  fold opts in E1, E. fold start in E1, E.
  rewrite E1 in H1, Hs1 |- *. rewrite E. cbn [fst snd] in *.
  injection H1 as <-.
  eexists. split; [reflexivity|]. cbn [joined formatting].
  split; [|split; reflexivity].
  cbn [rebase outputBuffer]. now rewrite concat_app, Hj2.
Qed.

(** X12: the output for a list of nodes is the output for its parts. With
    the same generator and options, when [generate] returns for [ast1]
    and for [ast2] it returns for [ast1] followed by [ast2], and the
    joined text it builds is the text for [ast1] followed by the text
    for [ast2]; it returns for both whenever the indentation can be
    built with the options of the call. *)
Theorem generate_forest (ast1 ast2 : list ASTNode)
  (given : option PartialOptions) (g : Generator) :
  disposed g = false ->
  (forall r1 r2,
     fst (generate ast1 given g) = Done r1 ->
     fst (generate ast2 given g) = Done r2 ->
     exists r,
       fst (generate (ast1 ++ ast2) given g) = Done r /\
       joined r = joined r1 ++ joined r2 /\
       formatting r = formatting r1 /\
       snd (generate (ast1 ++ ast2) given g) = snd (generate ast1 given g)) /\
  (calm (mkGenerator 0
           (match given with
            | Some o => mergeOptions (options g) o
            | None => options g
            end) (currentParentTag g) false []) ->
   exists r1 r2,
     fst (generate ast1 given g) = Done r1 /\
     fst (generate ast2 given g) = Done r2).
Proof.
  intros Hlive. split.
  - intros r1 r2. now apply generate_app.
  - intros Hcalm.
    destruct (generate_calm ast1 given g Hlive Hcalm) as (g1 & _ & E1).
    destruct (generate_calm ast2 given g Hlive Hcalm) as (g2 & _ & E2).
    rewrite E1, E2. now eexists; eexists.
Qed.

Lemma generate_forest_witness :
  (forall r1 r2,
     fst (generate twoParagraphs None (newGenerator noOptions)) = Done r1 ->
     fst (generate [text "c"] None (newGenerator noOptions)) = Done r2 ->
     exists r,
       fst (generate (twoParagraphs ++ [text "c"]) None
              (newGenerator noOptions)) = Done r /\
       joined r = joined r1 ++ joined r2 /\
       formatting r = formatting r1 /\
       snd (generate (twoParagraphs ++ [text "c"]) None
              (newGenerator noOptions))
       = snd (generate twoParagraphs None (newGenerator noOptions))) /\
  (calm (mkGenerator 0 (options (newGenerator noOptions))
                     (currentParentTag (newGenerator noOptions)) false []) ->
   exists r1 r2,
     fst (generate twoParagraphs None (newGenerator noOptions)) = Done r1 /\
     fst (generate [text "c"] None (newGenerator noOptions)) = Done r2).
Proof.
  exact (generate_forest twoParagraphs [text "c"] None
           (newGenerator noOptions) eq_refl).
Defined.

(** With the options of a new generator, and when minifying, the
    indentation can be built at every level; with a step of [-1] it
    cannot at level 1. *)
Example where_the_indentation_can_be_built :
  calm (newGenerator noOptions) /\ calm (newGenerator onlyMinify) /\
  ~ calm (newGenerator negativeStep).
Proof.
  split; [now apply calm_newGenerator|].
  split; [now apply calm_newGenerator|].
  intros H. destruct (H 1) as (s & Hs); [cbn; lia | discriminate Hs].
Qed.
(* ================================================================== *)
(** * parseTagLine reads back a tag line written out *)
(* ================================================================== *)

Lemma identChars_Forall s :
  identChars s = true <-> Forall (fun c => isIdentChar c = true) s.
Proof. unfold identChars. now rewrite forallb_forall, Forall_forall. Qed.

Lemma localReadIdentifier_app s r :
  identChars s = true ->
  match r with [] => True | c :: _ => isIdentChar c = false end ->
  localReadIdentifier (s ++ r) = (s, r).
Proof.
  intros Hs Hr. unfold localReadIdentifier.
  destruct (span_app isIdentChar s r) as [-> ->];
    [now apply identChars_Forall | exact Hr | reflexivity].
Qed.

Lemma writeClasses_cons cl more r :
  writeClasses (cl :: more) ++ r = DOT :: cl ++ writeClasses more ++ r.
Proof. unfold writeClasses. cbn [flat_map app]. now rewrite <- app_assoc. Qed.

Lemma readClasses_written :
  forall classes fuel acc r,
    forallb identChars classes = true ->
    match r with
    | [] => True
    | c :: _ => isIdentChar c = false /\ c <> DOT
    end ->
    (length (writeClasses classes ++ r) < fuel)%nat ->
    readClasses fuel acc (writeClasses classes ++ r) = Done (acc ++ classes, r).
Proof.
  induction classes as [|cl more IH]; intros fuel acc r Hcl Hr Hfuel;
    (destruct fuel as [|fuel]; [lia|]).
  - cbn [writeClasses flat_map app readClasses]. rewrite app_nil_r.
    destruct r as [|c r]; [reflexivity|]. destruct Hr as [_ Hdot].
    apply N.eqb_neq in Hdot. now rewrite Hdot.
  - cbn [forallb] in Hcl. apply andb_true_iff in Hcl as [Hc Hmore].
    rewrite writeClasses_cons in *. cbn [readClasses]. rewrite N.eqb_refl.
    rewrite localReadIdentifier_app; [|exact Hc|].
    + rewrite IH; [now rewrite <- app_assoc | exact Hmore | exact Hr |].
      cbn [length] in Hfuel. rewrite length_app in Hfuel. lia.
    + destruct more; [|reflexivity].
      cbn [writeClasses flat_map app]. destruct r; [exact I | apply Hr].
Qed.

Lemma readQuotedValue_written v after :
  readQuotedValue DQUOTE (escapeQuoted v ++ DQUOTE :: after)
  = (v, DQUOTE :: after).
Proof.
  induction v as [|c v IH]; [reflexivity|].
  unfold escapeQuoted in *. cbn [flat_map].
  destruct (N.eqb_spec c DQUOTE) as [->|Hq].
  - cbn [orb app readQuotedValue].
    change (N.eqb BACKSLASH DQUOTE) with false. cbv iota.
    rewrite N.eqb_refl. now rewrite IH.
  - destruct (N.eqb_spec c BACKSLASH) as [->|Hb].
    + cbn [orb app readQuotedValue].
      change (N.eqb BACKSLASH DQUOTE) with false. cbv iota.
      rewrite N.eqb_refl. now rewrite IH.
    + cbn [orb app readQuotedValue].
      apply N.eqb_neq in Hq, Hb. rewrite Hq, Hb. now rewrite IH.
Qed.

Lemma readAttrValue_written v after :
  readAttrValue (EQUALS :: DQUOTE :: escapeQuoted v ++ DQUOTE :: after)
  = (StringValue v, after).
Proof.
  cbn [readAttrValue]. rewrite N.eqb_refl.
  change (skipWhitespace (DQUOTE :: escapeQuoted v ++ DQUOTE :: after))
    with (DQUOTE :: escapeQuoted v ++ DQUOTE :: after).
  cbv iota. rewrite N.eqb_refl. cbn [orb]. rewrite readQuotedValue_written.
  cbn [skipChar]. now rewrite N.eqb_refl.
Qed.

(** What follows a written attribute in its block. *)
Lemma writeAttributes_cons a more tail :
  writeAttributes (a :: more) ++ RBRACKET :: tail
  = fst a ++ EQUALS :: DQUOTE :: escapeQuoted (snd a)
    ++ DQUOTE :: match more with
                 | [] => RBRACKET :: tail
                 | _ :: _ => SPACE :: writeAttributes more ++ RBRACKET :: tail
                 end.
Proof.
  unfold writeAttributes, writeAttribute. cbn [map join].
  destruct more as [|b more]; cbn [map]; rewrite <- !app_assoc; reflexivity.
Qed.

Lemma writeAttributes_head a more tail :
  isIdentifier (fst a) ->
  exists c t, writeAttributes (a :: more) ++ RBRACKET :: tail = c :: t /\
              isIdentChar c = true.
Proof.
  intros Ha. rewrite writeAttributes_cons. now apply isIdentifier_head.
Qed.

Lemma readAttributes_written :
  forall written fuel acc tail,
    Forall (fun a => isIdentifier (fst a)) written ->
    (length (writeAttributes written ++ RBRACKET :: tail) < fuel)%nat ->
    readAttributes fuel acc (writeAttributes written ++ RBRACKET :: tail)
    = Done (acc ++ map writtenAttribute written, RBRACKET :: tail).
Proof.
  induction written as [|a more IH]; intros fuel acc tail Hall Hfuel;
    (destruct fuel as [|fuel]; [lia|]).
  - cbn. now rewrite app_nil_r.
  - inversion Hall as [|? ? Ha Hmore]; subst.
    destruct (writeAttributes_head a more tail Ha) as (c & t & Hhead & Hc).
    pose proof (isIdentChar_facts c Hc) as (Hblank & _ & Hrb & _).
    cbn [readAttributes]. rewrite Hhead.
    apply N.eqb_neq in Hrb. rewrite Hrb.
    unfold skipWhitespace at 1. cbn [dropWhile]. rewrite Hblank.
    rewrite <- Hhead. rewrite writeAttributes_cons in *.
    set (R := match more with
              | [] => RBRACKET :: tail
              | _ :: _ => SPACE :: writeAttributes more ++ RBRACKET :: tail
              end) in *.
    rewrite localReadIdentifier_app;
      [|apply identChars_Forall, Ha | reflexivity].
    destruct (fst a) as [|n0 n] eqn:Hname; [now destruct Ha|].
    change (skipWhitespace (EQUALS :: DQUOTE :: escapeQuoted (snd a)
                            ++ DQUOTE :: R))
      with (EQUALS :: DQUOTE :: escapeQuoted (snd a) ++ DQUOTE :: R).
    rewrite readAttrValue_written.
    assert (HR : skipWhitespace R = writeAttributes more ++ RBRACKET :: tail).
    { subst R. destruct more as [|b more']; [reflexivity|].
      inversion Hmore as [|? ? Hb _]; subst.
      unfold skipWhitespace. cbn [dropWhile].
      change (isBlank SPACE) with true. cbv iota.
      destruct (writeAttributes_head b more' tail Hb) as (c' & t' & -> & Hc').
      apply isIdentChar_facts in Hc' as (Hb' & _).
      cbn [dropWhile]. now rewrite Hb'. }
    rewrite HR. rewrite IH; [|exact Hmore|].
    + rewrite <- app_assoc. cbn [map app]. unfold writtenAttribute at 2.
      now rewrite Hname.
    + assert (length (writeAttributes more ++ RBRACKET :: tail) <= length R)%nat.
      { subst R. destruct more; [reflexivity | cbn [length]; lia]. }
      rewrite !length_app in Hfuel. cbn [length] in Hfuel.
      rewrite !length_app in Hfuel. cbn [length] in Hfuel. lia.
Qed.

Lemma readAttributeBlocks_written written content fuel :
  Forall (fun a => isIdentifier (fst a)) written ->
  (2 <= fuel)%nat ->
  readAttributeBlocks fuel []
    (LBRACKET :: writeAttributes written ++ RBRACKET :: writeContent content)
  = Done (map writtenAttribute written, writeContent content).
Proof.
  intros Hall Hfuel. destruct fuel as [|[|fuel]]; try lia.
  cbn [readAttributeBlocks]. rewrite N.eqb_refl.
  rewrite readAttributes_written; [|exact Hall | lia].
  cbn [bind app skipChar]. rewrite N.eqb_refl.
  destruct content; reflexivity.
Qed.

Lemma plainContent_head x :
  plainContent x ->
  exists d r, x = d :: r /\ isBlank d = false /\ d <> PIPE /\ d <> DQUOTE.
Proof.
  intros [Htrim Hhead]. destruct x as [|d r]; [contradiction|].
  exists d, r. destruct Hhead as [Hp Hq]. repeat split; try assumption.
  destruct (isBlank d) eqn:Hb; [exfalso|reflexivity].
  assert (Hsp : isTrimSpace d = true).
  { unfold isBlank in Hb. apply orb_true_iff in Hb as [H|H];
      apply N.eqb_eq in H; subst; reflexivity. }
  apply (f_equal (@length N)) in Htrim.
  unfold trim, trimEnd, trimStart in Htrim. cbn [dropWhile] in Htrim.
  rewrite Hsp in Htrim. rewrite length_rev in Htrim.
  pose proof (length_dropWhile isTrimSpace (rev (dropWhile isTrimSpace r))).
  pose proof (length_dropWhile isTrimSpace r).
  rewrite length_rev in *. cbn [length] in Htrim. lia.
Qed.

Lemma readContent_written content :
  (forall x, content = Some x -> plainContent x) ->
  readContent (skipWhitespace (writeContent content)) = content.
Proof.
  intros Hplain. destruct content as [x|]; [|reflexivity].
  destruct (plainContent_head x (Hplain x eq_refl))
    as (d & r & -> & Hb & Hp & Hq).
  destruct (Hplain _ eq_refl) as [Htrim _].
  cbn [writeContent]. unfold skipWhitespace. cbn [dropWhile].
  change (isBlank COLON) with false. cbv iota.
  cbn [readContent]. rewrite N.eqb_refl.
  unfold skipWhitespace. cbn [dropWhile].
  change (isBlank SPACE) with true. cbv iota. rewrite Hb.
  apply N.eqb_neq in Hp, Hq. rewrite Hp, Hq. now rewrite Htrim.
Qed.

Lemma parseTagLine_written (p : Parser) (name : str) (classes : list str)
  (id : option str) (attributes : list (str * str)) (content : option str) :
  properName name = true ->
  forallb identChars classes = true ->
  (forall i, id = Some i -> identChars i = true) ->
  Forall (fun a => isIdentifier (fst a)) attributes ->
  (forall x, content = Some x -> plainContent x) ->
  parseTagLine p (writeTagLine name classes id attributes content)
  = Done (Parsed.mk name classes id (map writtenAttribute attributes) content).
Proof.
  intros Hname Hclasses Hid Hattrs Hcontent.
  destruct name as [|c t]; [discriminate|].
  cbn [properName] in Hname. apply andb_true_iff in Hname as [Hc Ht].
  assert (Hidents : identChars (c :: t) = true).
  { unfold identChars in *. cbn [forallb]. rewrite Ht, andb_true_r.
    unfold isIdentChar. now rewrite Hc. }
  unfold parseTagLine, writeTagLine.
  destruct (trim_first_letter c
              (t ++ writeClasses classes ++ writeId id ++ [LBRACKET]
               ++ writeAttributes attributes ++ [RBRACKET]
               ++ writeContent content) Hc) as (t' & Htrim).
  change ((c :: t) ++ ?r) with (c :: t ++ r). rewrite Htrim.
  change (c :: t ++ ?r) with ((c :: t) ++ r).
  set (Rattrs := [LBRACKET] ++ writeAttributes attributes ++ [RBRACKET]
                 ++ writeContent content).
  assert (Hhead : match writeId id ++ Rattrs with
                  | [] => True
                  | x :: _ => isIdentChar x = false /\ x <> DOT
                  end).
  { destruct id; cbn; split; [reflexivity | discriminate
                              | reflexivity | discriminate]. }
  rewrite localReadIdentifier_app; [|exact Hidents|].
  2:{ destruct classes; [|reflexivity].
      cbn [writeClasses flat_map app].
      destruct (writeId id ++ Rattrs); [exact I | apply Hhead]. }
  rewrite readClasses_written; [|exact Hclasses | exact Hhead | lia].
  cbn [bind app].
  assert (Hreadid : readId (writeId id ++ Rattrs) = (id, Rattrs)).
  { destruct id as [i|]; [|reflexivity].
    cbn [writeId app readId]. rewrite N.eqb_refl.
    rewrite localReadIdentifier_app; [reflexivity | now apply Hid | reflexivity]. }
  rewrite Hreadid. subst Rattrs. cbn [app].
  rewrite readAttributeBlocks_written; [|exact Hattrs | cbn [length]; lia].
  cbn [bind].
  now rewrite readContent_written.
Qed.

(** X13: a tag line written out reads back. For a name that starts with a
    letter, classes and an id of identifier characters, attributes with
    identifier names and any values at all (written between double
    quotes, with a backslash before each quote and backslash), and a
    plain inline text, [parseTagLine] returns exactly the name, the
    classes, the id, the attributes with their values, and the text. *)
Theorem tag_line_round_trip (p : Parser) (name : str) (classes : list str)
  (id : option str) (attributes : list (str * str)) (content : option str) :
  properName name = true ->
  forallb identChars classes = true ->
  (forall i, id = Some i -> identChars i = true) ->
  Forall (fun a => isIdentifier (fst a)) attributes ->
  (forall x, content = Some x -> plainContent x) ->
  parseTagLine p (writeTagLine name classes id attributes content)
  = Done (Parsed.mk name classes id (map writtenAttribute attributes) content).
Proof.
  intros Hname Hclasses Hid Hattrs Hcontent.
  now apply parseTagLine_written.
Qed.

Lemma tag_line_round_trip_witness :
  parseTagLine (mkParser [] 1 1) linkLine
  = Done (Parsed.mk (lit "a") [lit "btn"; lit "big"] (Some (lit "go"))
            [(lit "href", StringValue (lit "x" ++ [DQUOTE] ++ lit "y"));
             (lit "title", StringValue (lit "a b]"))]
            (Some (lit "Go on"))).
Proof.
  exact (tag_line_round_trip (mkParser [] 1 1) (lit "a") [lit "btn"; lit "big"]
           (Some (lit "go"))
           [(lit "href", lit "x" ++ [DQUOTE] ++ lit "y");
            (lit "title", lit "a b]")]
           (Some (lit "Go on"))
           eq_refl eq_refl
           ltac:(intros i Hi; injection Hi as <-; reflexivity)
           ltac:(repeat constructor; discriminate)
           ltac:(intros x Hx; injection Hx as <-;
                 split; [reflexivity | split; discriminate])).
Defined.

(* ================================================================== *)
(** * A document of tag lines, none indented *)
(* ================================================================== *)

Lemma isLetter_not_NL_SPACE c :
  isLetter c = true -> N.eqb c NL = false /\ N.eqb c SPACE = false.
Proof.
  intros Hc. split; apply N.eqb_neq; intros ->; discriminate.
Qed.

Lemma isTagLine_facts l :
  isTagLine l = true ->
  exists c t, l = c :: t /\ isLetter c = true /\ ~ In NL l /\ trim l = l.
Proof.
  unfold isTagLine. intros H.
  apply andb_true_iff in H as [H Htrim]. apply andb_true_iff in H as [Hc Hnl].
  destruct l as [|c t]; [discriminate|]. exists c, t.
  split; [reflexivity|]. split; [exact Hc|]. split.
  - apply negb_true_iff in Hnl. intros Hin. apply includesChar_spec in Hin.
    congruence.
  - now apply str_eqb_eq.
Qed.

Lemma trimEnd_app a b :
  b <> [] -> trimEnd b = b -> trimEnd (a ++ b) = a ++ b.
Proof.
  unfold trimEnd. intros Hb Hfix.
  apply (f_equal (@rev N)) in Hfix. rewrite rev_involutive in Hfix.
  rewrite rev_app_distr.
  destruct (rev b) as [|x r] eqn:Hrev.
  { apply (f_equal (@rev N)) in Hrev. rewrite rev_involutive in Hrev.
    now subst. }
  cbn [dropWhile app] in *.
  destruct (isTrimSpace x).
  - pose proof (length_dropWhile isTrimSpace r) as Hlen.
    rewrite Hfix in Hlen. cbn [length] in Hlen. lia.
  - change (x :: r ++ rev a) with ((x :: r) ++ rev a). rewrite <- Hrev.
    now rewrite <- rev_app_distr, rev_involutive.
Qed.

Lemma trimEnd_tagLine l : isTagLine l = true -> l <> [] /\ trimEnd l = l.
Proof.
  intros H. destruct (isTagLine_facts l H) as (c & t & -> & Hc & _ & Htrim).
  split; [discriminate|].
  unfold trim, trimStart in Htrim. cbn [dropWhile] in Htrim.
  now rewrite (isLetter_not_trimSpace c Hc) in Htrim.
Qed.

Lemma trim_flat_document :
  forall ls l,
    forallb isTagLine (l :: ls) = true ->
    trim (unlines (l :: ls)) = unlines (l :: ls).
Proof.
  assert (Hend : forall ls l, forallb isTagLine (l :: ls) = true ->
            unlines (l :: ls) <> [] /\
            trimEnd (unlines (l :: ls)) = unlines (l :: ls)).
  { induction ls as [|l' ls IH]; intros l Hall; cbn [forallb] in Hall;
      apply andb_true_iff in Hall as [Hl Hrest].
    - now apply trimEnd_tagLine.
    - destruct (IH l' Hrest) as [Hne Hfix].
      rewrite unlines_cons, unlines_empty_head.
      change (l ++ NL :: unlines (l' :: ls))
        with (l ++ [NL] ++ unlines (l' :: ls)).
      rewrite app_assoc. split.
      + intros Hnil. apply app_eq_nil in Hnil as [_ Hnil]. contradiction.
      + now apply trimEnd_app. }
  intros ls l Hall. destruct (Hend ls l Hall) as [_ Hfix].
  cbn [forallb] in Hall. apply andb_true_iff in Hall as [Hl _].
  destruct (isTagLine_facts l Hl) as (c & t & -> & Hc & _).
  unfold trim, trimStart. rewrite unlines_char_cons in *.
  cbn [dropWhile]. now rewrite (isLetter_not_trimSpace c Hc).
Qed.

Lemma parseTagLine_any_parser p q c t :
  isLetter c = true -> parseTagLine p (c :: t) = parseTagLine q (c :: t).
Proof.
  intros Hc. unfold parseTagLine.
  destruct (trim_first_letter c t Hc) as (t' & ->). reflexivity.
Qed.

(** A tag line that ends the input. *)
Lemma tagLine_at_end fuel parseDeeper currentIndent c0 t p :
  isLetter c0 = true -> 0 <= currentIndent -> rest p = [] ->
  exists parsed,
    parseTagLine p (c0 :: t) = Done parsed /\
    parseLine fuel parseDeeper currentIndent (c0 :: t) p
    = Done (tagOf parsed, p).
Proof.
  intros Hletter Hindent Hrest.
  destruct (parseTagLine_total p c0 t Hletter) as (parsed & Hparsed).
  assert (Hskip : skipNewline p = Done p)
    by (unfold skipNewline, peekIs, peek; now rewrite Hrest).
  assert (Hend : atEnd p = true) by (unfold atEnd; now rewrite Hrest).
  assert (Hind : (getIndentLevel p >? currentIndent) = false).
  { unfold getIndentLevel. rewrite Hrest. cbn [countSpaces].
    rewrite Z.gtb_ltb. apply Z.ltb_ge. lia. }
  assert (Hstart : startsWith (lit "!DOCTYPE ") (c0 :: t) = false).
  { cbn [startsWith lit map list_ascii_of_string].
    destruct (N.eqb_spec (N_of_ascii "!") c0) as [<-|]; [discriminate|].
    reflexivity. }
  assert (Hpipe : startsWith [PIPE] (c0 :: t) = false).
  { cbn [startsWith]. destruct (N.eqb_spec PIPE c0) as [<-|]; [discriminate|].
    reflexivity. }
  exists parsed. split; [exact Hparsed|].
  unfold parseLine, tagOf. rewrite Hstart, Hpipe, Hletter, Hparsed. cbn [bind].
  unfold parseInlineContent, ownLineChildren.
  destruct (Parsed.content parsed) as [c|].
  - destruct (str_eqb c [PIPE]).
    + rewrite Hskip. cbn [bind]. rewrite Hind. cbv iota. cbn [bind].
      rewrite Hskip. cbn [bind]. rewrite Hend. reflexivity.
    + destruct c; cbv iota; cbn [bind]; rewrite Hskip; cbn [bind];
        rewrite Hend; reflexivity.
  - cbn [bind]. rewrite Hskip. cbn [bind]. rewrite Hend. reflexivity.
Qed.

Lemma NLfree_tagLines X : forallb isTagLine X = true -> NLfree X.
Proof.
  induction X as [|x X IHX]; intros H; [constructor|].
  cbn [forallb] in H. apply andb_true_iff in H as [Hx HX].
  destruct (isTagLine_facts x Hx) as (? & ? & _ & _ & Hxnl & _).
  constructor; [exact Hxnl | now apply IHX].
Qed.

Lemma childrenLoop_flat :
  forall ls l fuel acc p,
    forallb isTagLine (l :: ls) = true ->
    rest p = unlines (l :: ls) ->
    (length (unlines (l :: ls)) < fuel)%nat ->
    exists heads p',
      Forall2 (fun ln h => forall q, parseTagLine q ln = Done h) (l :: ls) heads /\
      childrenLoop fuel (-1) acc p = Done (acc ++ map tagOf heads, p').
Proof.
  induction ls as [|next more IH]; intros l fuel acc p Hall Hrest Hfuel;
    cbn [forallb] in Hall; apply andb_true_iff in Hall as [Hl Hothers];
    destruct (isTagLine_facts l Hl) as (c & t & -> & Hc & Hnl & Htrim);
    destruct (isLetter_not_NL_SPACE c Hc) as [HcNL HcSP];
    (destruct fuel as [|fuel]; [lia|]).
  - (* the last line *)
    destruct (readLine_skipIndentation p (c :: t) [] Hnl Hrest) as [Hraw Hp2].
    cbn [childrenLoop]. unfold atEnd, peekIs, peek, getIndentLevel.
    rewrite Hrest. cbn [unlines join countSpaces]. rewrite HcNL, HcSP.
    change (0 <=? -1) with false. cbv iota.
    destruct (readLine (skipIndentation p)) as [raw p2].
    cbn [fst snd] in Hraw, Hp2. cbn [dropWhile] in Hraw. rewrite HcSP in Hraw.
    subst raw. rewrite Htrim.
    destruct (tagLine_at_end fuel (fun indent q => childrenLoop fuel indent [] q)
                0 c t p2 Hc ltac:(lia) Hp2) as (parsed & Hparsed & Hline).
    rewrite Hline. cbn [bind].
    assert (Hskip : skipNewline p2 = Done p2)
      by (unfold skipNewline, peekIs, peek; now rewrite Hp2).
    rewrite Hskip. cbn [bind].
    destruct fuel as [|fuel]; [cbn [unlines join length] in Hfuel; lia|].
    cbn [childrenLoop]. unfold atEnd. rewrite Hp2.
    exists [parsed], p2. split; [|reflexivity].
    constructor; [|constructor]. intros q.
    now rewrite (parseTagLine_any_parser q p2 c t Hc).
  - (* a line with lines after it *)
    pose proof Hothers as Hothers'.
    cbn [forallb] in Hothers'. apply andb_true_iff in Hothers' as [Hnext _].
    destruct (isTagLine_facts next Hnext)
      as (n0 & nt & Hnext_eq & Hn0 & Hnext_nl & _).
    destruct (isLetter_not_NL_SPACE n0 Hn0) as [Hn0NL Hn0SP].
    pose proof (NLfree_tagLines (next :: more) Hothers) as Hfree.
    destruct (readLine_skipIndentation p (c :: t) (next :: more) Hnl Hrest)
      as [Hraw Hp2].
    cbn [childrenLoop]. unfold atEnd, peekIs, peek, getIndentLevel.
    rewrite Hrest, unlines_char_cons. cbn [countSpaces]. rewrite HcNL, HcSP.
    change (0 <=? -1) with false. cbv iota.
    destruct (readLine (skipIndentation p)) as [raw p2].
    cbn [fst snd] in Hraw, Hp2. cbn [dropWhile] in Hraw. rewrite HcSP in Hraw.
    subst raw. rewrite Htrim.
    destruct (tagLine_before_dedent fuel
                (fun indent q => childrenLoop fuel indent [] q)
                0 c t p2 next more Hc Hfree)
      as (parsed & p3 & Hparsed & Hline & Hp3).
    { subst next. discriminate. }
    { subst next. cbn [countSpaces]. rewrite Hn0SP. lia. }
    { exact Hp2. }
    rewrite Hline. cbn [bind]. fold (tagOf parsed).
    assert (Hskip : skipNewline p3 = Done p3).
    { unfold skipNewline, peekIs, peek. rewrite Hp3. subst next.
      rewrite unlines_char_cons. now rewrite Hn0NL. }
    rewrite Hskip. cbn [bind].
    destruct (IH next fuel (acc ++ [tagOf parsed]) p3 Hothers Hp3)
      as (heads & p' & Hheads & Hrun).
    { pose proof (length_unlines_nonempty_line c t (next :: more)) as H1.
      pose proof (length_unlines_tail [] (next :: more)) as H2. lia. }
    exists (parsed :: heads), p'. split.
    + constructor; [|exact Hheads]. intros q.
      now rewrite (parseTagLine_any_parser q p2 c t Hc).
    + rewrite Hrun. cbn [map]. now rewrite <- app_assoc.
Qed.

Lemma constructor_rest input p :
  constructor input = Done p -> rest p = trim input.
Proof.
  unfold constructor. destruct input as [|c s]; [discriminate|].
  destruct (_ >? _); [discriminate|]. destruct (_ || _); [discriminate|].
  now intros [= <-].
Qed.

(** X14: a document of tag lines, none indented. When every line of the
    input starts with a letter and has no white space at its end, and the
    constructor accepts the input, [parse] returns one tag node for each
    line, in the order of the lines: the node of what [parseTagLine] reads
    on that line, with the inline text of the line as its only child. *)
Theorem flat_document (lines : list str) (p : Parser) :
  lines <> [] ->
  forallb isTagLine lines = true ->
  constructor (unlines lines) = Done p ->
  exists heads,
    Forall2 (fun ln h => forall q, parseTagLine q ln = Done h) lines heads /\
    parseSource (unlines lines) = Done (map tagOf heads).
Proof.
  intros Hne Hall Hctor. destruct lines as [|l ls]; [contradiction|].
  pose proof (constructor_rest _ _ Hctor) as Hrest.
  rewrite trim_flat_document in Hrest by exact Hall.
  destruct (childrenLoop_flat ls l (S (length (rest p))) [] p Hall Hrest)
    as (heads & p' & Hheads & Hrun).
  { rewrite Hrest. lia. }
  exists heads. split; [exact Hheads|].
  unfold parseSource. rewrite Hctor. cbn [bind].
  unfold parse, parseChildren. rewrite Hrun. reflexivity.
Qed.

Lemma flat_document_witness :
  exists heads,
    Forall2 (fun ln h => forall q, parseTagLine q ln = Done h) threeLines heads /\
    parseSource (unlines threeLines) = Done (map tagOf heads).
Proof.
  exact (flat_document threeLines (mkParser (unlines threeLines) 1 1)
           ltac:(discriminate) ltac:(vm_compute; reflexivity)
           ltac:(vm_compute; reflexivity)).
Defined.

(* ================================================================== *)
(** * The names in a parsed tree *)
(* ================================================================== *)

Lemma identChars_takeWhile r : identChars (takeWhile isIdentChar r) = true.
Proof.
  unfold identChars. induction r as [|c r IH]; [reflexivity|].
  cbn [takeWhile]. destruct (isIdentChar c) eqn:Hc; [|reflexivity].
  cbn [forallb]. now rewrite Hc, IH.
Qed.

Lemma forallb_snoc {A : Type} (f : A -> bool) (l : list A) (x : A) :
  forallb f l = true -> f x = true -> forallb f (l ++ [x]) = true.
Proof.
  intros Hl Hx. rewrite forallb_app, Hl. cbn [forallb]. now rewrite Hx.
Qed.

Lemma readClasses_proper :
  forall fuel classes r cs r',
    forallb identChars classes = true ->
    readClasses fuel classes r = Done (cs, r') ->
    forallb identChars cs = true.
Proof.
  induction fuel as [|fuel IH]; intros classes r cs r' Hacc H; [discriminate|].
  cbn [readClasses] in H.
  destruct r as [|c r1]; [now injection H as <- _|].
  destruct (N.eqb c DOT); [|now injection H as <- _].
  unfold localReadIdentifier in H. eapply IH; [|exact H].
  apply forallb_snoc; [exact Hacc | apply identChars_takeWhile].
Qed.

Lemma readAttrValue_never_false r :
  match fst (readAttrValue r) with BoolValue false => false | _ => true end
  = true.
Proof.
  unfold readAttrValue. destruct r as [|c r1]; [reflexivity|].
  destruct (N.eqb c EQUALS); [|reflexivity].
  destruct (skipWhitespace r1) as [|q r3]; [reflexivity|].
  destruct (N.eqb q DQUOTE || N.eqb q SQUOTE); [|reflexivity].
  now destruct (readQuotedValue q r3).
Qed.

Lemma readAttributes_proper :
  forall fuel attributes r found r',
    forallb properAttribute attributes = true ->
    readAttributes fuel attributes r = Done (found, r') ->
    forallb properAttribute found = true.
Proof.
  induction fuel as [|fuel IH]; intros attributes r found r' Hacc H;
    [discriminate|].
  cbn [readAttributes] in H.
  destruct r as [|c r0]; [now injection H as <- _|].
  destruct (N.eqb c RBRACKET); [now injection H as <- _|].
  unfold localReadIdentifier in H.
  pose proof (identChars_takeWhile (skipWhitespace (c :: r0))) as Hname.
  destruct (takeWhile isIdentChar (skipWhitespace (c :: r0))) as [|n0 n];
    [now injection H as <- _|].
  pose proof (readAttrValue_never_false
                (skipWhitespace (dropWhile isIdentChar
                                   (skipWhitespace (c :: r0))))) as Hvalue.
  destruct (readAttrValue _) as [value r4]. cbn [fst] in Hvalue.
  eapply IH; [|exact H].
  apply forallb_snoc; [exact Hacc|].
  unfold properAttribute. cbn [fst snd nonEmpty]. now rewrite Hname, Hvalue.
Qed.

Lemma readAttributeBlocks_proper :
  forall fuel attributes r found r',
    forallb properAttribute attributes = true ->
    readAttributeBlocks fuel attributes r = Done (found, r') ->
    forallb properAttribute found = true.
Proof.
  induction fuel as [|fuel IH]; intros attributes r found r' Hacc H;
    [discriminate|].
  cbn [readAttributeBlocks] in H.
  destruct r as [|c r1]; [now injection H as <- _|].
  destruct (N.eqb c LBRACKET); [|now injection H as <- _].
  apply bind_Done in H as ([attributes' r2] & Hblock & H).
  eapply IH; [|exact H].
  eapply readAttributes_proper; eassumption.
Qed.

Lemma parseTagLine_proper p c t parsed :
  isLetter c = true ->
  parseTagLine p (c :: t) = Done parsed ->
  properName (Parsed.name parsed) = true /\
  forallb identChars (Parsed.classes parsed) = true /\
  match Parsed.id parsed with Some i => identChars i | None => true end = true /\
  forallb properAttribute (Parsed.attributes parsed) = true.
Proof.
  intros Hc H. unfold parseTagLine in H.
  destruct (trim (c :: t)); [discriminate|].
  unfold localReadIdentifier at 1 in H.
  apply bind_Done in H as ([classes r2] & Hclasses & H).
  destruct (readId r2) as [id r3] eqn:Hid.
  apply bind_Done in H as ([attributes r4] & Hattrs & H).
  injection H as <-. cbn [Parsed.name Parsed.classes Parsed.id Parsed.attributes].
  split; [|split; [|split]].
  - cbn [takeWhile]. unfold isIdentChar at 1. rewrite Hc. cbn [orb properName].
    rewrite Hc. apply identChars_takeWhile.
  - eapply readClasses_proper; [|exact Hclasses]. reflexivity.
  - unfold readId in Hid. destruct r2 as [|x r]; [now injection Hid as <- _|].
    destruct (N.eqb x HASH); [|now injection Hid as <- _].
    unfold localReadIdentifier in Hid. injection Hid as <- _.
    apply identChars_takeWhile.
  - eapply readAttributeBlocks_proper; [|exact Hattrs]. reflexivity.
Qed.

Lemma parseInlineContent_proper fuel currentIndent content p kids p' :
  parseInlineContent fuel currentIndent content p = Done (kids, p') ->
  forallb properNames kids = true.
Proof.
  unfold parseInlineContent. intros H.
  destruct content as [c|]; [|now injection H as <- _].
  destruct (str_eqb c [PIPE]).
  - apply bind_Done in H as (p1 & _ & H).
    destruct (getIndentLevel p1 >? currentIndent);
      [|now injection H as <- _].
    apply bind_Done in H as ([t p2] & _ & H). now injection H as <- _.
  - destruct c; now injection H as <- _.
Qed.

Lemma parseLine_proper fuel parseDeeper currentIndent ln p node p' :
  (forall indent q nodes q',
     parseDeeper indent q = Done (nodes, q') ->
     forallb properNames nodes = true) ->
  parseLine fuel parseDeeper currentIndent ln p = Done (node, p') ->
  properNames node = true.
Proof.
  intros Hdeeper. unfold parseLine. intros H.
  destruct (startsWith (lit "!DOCTYPE ") ln); [now injection H as <- _|].
  destruct (startsWith [PIPE] ln).
  { apply bind_Done in H as ([t p1] & _ & H). now injection H as <- _. }
  destruct ln as [|c t]; [now injection H as <- _|].
  destruct (isLetter c) eqn:Hc; [|now injection H as <- _].
  apply bind_Done in H as (parsed & Hparsed & H).
  apply bind_Done in H as ([kids p1] & Hkids & H).
  apply bind_Done in H as (p2 & _ & H).
  apply bind_Done in H as ([deeper p3] & Hdeep & H).
  injection H as <- _.
  destruct (parseTagLine_proper p c t parsed Hc Hparsed)
    as (Hname & Hclasses & Hid & Hattrs).
  cbn [properNames]. rewrite Hname, Hclasses, Hid, Hattrs. cbn [andb].
  rewrite forallb_app.
  rewrite (parseInlineContent_proper _ _ _ _ _ _ Hkids). cbn [andb].
  destruct (atEnd p2); [now injection Hdeep as <- _|].
  destruct (getIndentLevel p2 >? currentIndent);
    [|now injection Hdeep as <- _].
  eapply Hdeeper; eassumption.
Qed.

Lemma childrenLoop_proper :
  forall fuel parentIndent children p nodes p',
    forallb properNames children = true ->
    childrenLoop fuel parentIndent children p = Done (nodes, p') ->
    forallb properNames nodes = true.
Proof.
  induction fuel as [|fuel IH]; intros parentIndent children p nodes p' Hacc H;
    [discriminate|].
  cbn [childrenLoop] in H.
  destruct (atEnd p); [now injection H as <- _|].
  destruct (peekIs NL p).
  { apply bind_Done in H as ([c p1] & _ & H). eapply IH; eassumption. }
  destruct (getIndentLevel p <=? parentIndent); [now injection H as <- _|].
  destruct (readLine (skipIndentation p)) as [raw p2].
  destruct (trim raw) as [|c0 t].
  { apply bind_Done in H as (p3 & _ & H). eapply IH; eassumption. }
  apply bind_Done in H as ([node p3] & Hnode & H).
  apply bind_Done in H as (p4 & _ & H).
  eapply IH; [|exact H].
  apply forallb_snoc; [exact Hacc|].
  eapply parseLine_proper; [|exact Hnode].
  intros indent q nodes' q' Hq.
  exact (IH indent [] q nodes' q' eq_refl Hq).
Qed.

(** X15: the names in a parsed tree. Whatever the input, in every tag node
    that [parse] returns, at any depth, the tag name starts with a letter
    and holds only letters, digits, [_] and [-]; so do the classes, the id
    and the attribute names (an attribute name is never empty), and an
    attribute value is a string or [true]. *)
Theorem parsed_names_are_proper (input : str) (nodes : list ASTNode) :
  parseSource input = Done nodes -> forallb properNames nodes = true.
Proof.
  unfold parseSource, parse, parseChildren. intros H.
  apply bind_Done in H as (p & _ & H).
  apply bind_Done in H as ([found p'] & Hrun & H). injection H as <-.
  exact (childrenLoop_proper _ _ [] _ _ _ eq_refl Hrun).
Qed.

Lemma parsed_names_are_proper_witness :
  exists nodes,
    parseSource hostileDocument = Done nodes /\
    forallb properNames nodes = true.
Proof.
  eexists. split; [vm_compute; reflexivity|].
  apply (parsed_names_are_proper hostileDocument). vm_compute. reflexivity.
Defined.

(* ================================================================== *)
(** * A tree of tags written out reads back *)
(* ================================================================== *)

Lemma identChars_no_NL s : identChars s = true -> ~ In NL s.
Proof.
  intros Hs Hin. apply identChars_Forall in Hs.
  rewrite Forall_forall in Hs. specialize (Hs NL Hin). discriminate.
Qed.

Lemma escapeQuoted_no_NL v : ~ In NL v -> ~ In NL (escapeQuoted v).
Proof.
  unfold escapeQuoted. intros Hv Hin. apply in_flat_map in Hin as (c & Hc & Hin).
  destruct (N.eqb c DQUOTE || N.eqb c BACKSLASH); cbn [In] in Hin.
  - destruct Hin as [H|[H|[]]]; [discriminate | subst; contradiction].
  - destruct Hin as [H|[]]. subst. contradiction.
Qed.

Lemma writableAttribute_facts a :
  writableAttribute a = true ->
  isIdentifier (fst a) /\ writtenAttribute (attributeText a) = a /\
  ~ In NL (writeAttribute (attributeText a)).
Proof.
  unfold writableAttribute. intros H.
  apply andb_true_iff in H as [H Hvalue]. apply andb_true_iff in H as [Hne Hid].
  destruct a as [n [v|b]]; cbn [fst snd] in *; [|discriminate].
  split; [|split].
  - split; [now destruct n | now apply identChars_Forall].
  - reflexivity.
  - unfold writeAttribute, attributeText. cbn [fst snd valueToString].
    rewrite !in_app_iff. intros [H|[H|[H|H]]].
    + now apply (identChars_no_NL n).
    + cbn in H. destruct H as [H|[H|[]]]; discriminate.
    + apply escapeQuoted_no_NL in H; [exact H|].
      apply negb_true_iff in Hvalue. intros Hin.
      apply includesChar_spec in Hin. congruence.
    + cbn in H. destruct H as [H|[]]. discriminate.
Qed.

Lemma writableAttributes_facts attributes :
  forallb writableAttribute attributes = true ->
  Forall (fun a => isIdentifier (fst a)) (map attributeText attributes) /\
  map writtenAttribute (map attributeText attributes) = attributes /\
  ~ In NL (writeAttributes (map attributeText attributes)).
Proof.
  unfold writeAttributes.
  induction attributes as [|a more IH]; intros H.
  - split; [constructor|]. split; [reflexivity|]. intros [].
  - cbn [forallb] in H. apply andb_true_iff in H as [Ha Hmore].
    destruct (writableAttribute_facts a Ha) as (Hname & Hback & Hnl).
    destruct (IH Hmore) as (Hnames & Hbacks & Hnls).
    cbn [map]. split; [now constructor|]. split; [now rewrite Hback, Hbacks|].
    cbn [join]. destruct (map writeAttribute (map attributeText more)) eqn:Hm.
    + exact Hnl.
    + rewrite !in_app_iff. intros [H|[H|H]]; [contradiction| |contradiction].
      cbn in H. destruct H as [H|[]]. discriminate.
Qed.

Lemma writeClasses_no_NL classes :
  forallb identChars classes = true -> ~ In NL (writeClasses classes).
Proof.
  unfold writeClasses. intros Hall Hin.
  apply in_flat_map in Hin as (c & Hc & Hin).
  rewrite forallb_forall in Hall. specialize (Hall c Hc).
  destruct Hin as [H|H]; [discriminate|]. now apply (identChars_no_NL c).
Qed.

(** The line of a writable tag. *)
Lemma tagLine_facts name classes id attributes :
  properName name = true ->
  forallb identChars classes = true ->
  match id with Some i => identChars i | None => true end = true ->
  forallb writableAttribute attributes = true ->
  let ln := writeTagLine name classes id (map attributeText attributes) None in
  (exists c t, ln = c :: t /\ isLetter c = true) /\
  ~ In NL ln /\ trim ln = ln /\
  forall p, parseTagLine p ln = Done (Parsed.mk name classes id attributes None).
Proof.
  intros Hname Hclasses Hid Hattrs ln.
  destruct (writableAttributes_facts attributes Hattrs)
    as (Hnames & Hback & Hnl).
  assert (Hidents : identChars name = true /\
                    exists c t, name = c :: t /\ isLetter c = true).
  { destruct name as [|c t]; [discriminate|]. cbn [properName] in Hname.
    apply andb_true_iff in Hname as [Hc Ht]. split; [|now exists c, t].
    unfold identChars in *. cbn [forallb]. rewrite Ht, andb_true_r.
    unfold isIdentChar. now rewrite Hc. }
  destruct Hidents as (Hident & c & t & -> & Hc).
  assert (Hfree : ~ In NL ln).
  { subst ln. unfold writeTagLine. rewrite !in_app_iff.
    intros [H|[H|[H|[H|[H|[H|H]]]]]].
    - now apply (identChars_no_NL (c :: t)).
    - now apply (writeClasses_no_NL classes).
    - destruct id as [i|]; [|destruct H]. destruct H as [H|H]; [discriminate|].
      now apply (identChars_no_NL i).
    - destruct H as [H|[]]. discriminate.
    - contradiction.
    - destruct H as [H|[]]. discriminate.
    - destruct H. }
  assert (Hend : trimEnd ln = ln).
  { subst ln. unfold writeTagLine. cbn [writeContent]. rewrite app_nil_r.
    rewrite !app_assoc. apply trimEnd_app; [discriminate | reflexivity]. }
  split; [now exists c, (t ++ writeClasses classes ++ writeId id ++ [LBRACKET]
                          ++ writeAttributes (map attributeText attributes)
                          ++ [RBRACKET] ++ writeContent None)|].
  split; [exact Hfree|]. split.
  - unfold trim, trimStart. subst ln. unfold writeTagLine in *.
    change ((c :: t) ++ ?r) with (c :: t ++ r) in *. cbn [dropWhile].
    now rewrite (isLetter_not_trimSpace c Hc).
  - intros p. subst ln. rewrite parseTagLine_written; try assumption.
    + now rewrite Hback.
    + intros i ->. exact Hid.
    + discriminate.
Qed.

Lemma countSpaces_indented k c t :
  N.eqb c SPACE = false ->
  countSpaces (repeat SPACE k ++ c :: t) = Z.of_nat k /\
  dropWhile (fun x => N.eqb x SPACE) (repeat SPACE k ++ c :: t) = c :: t.
Proof.
  intros Hc. induction k as [|k [IH1 IH2]].
  - cbn [repeat app countSpaces dropWhile]. now rewrite Hc.
  - cbn [repeat app countSpaces dropWhile].
    change (N.eqb SPACE SPACE) with true. cbv iota.
    rewrite IH1, IH2. split; [lia | reflexivity].
Qed.

Lemma indented_no_NL k s : ~ In NL s -> ~ In NL (repeat SPACE k ++ s).
Proof.
  intros Hs Hin. apply in_app_iff in Hin as [Hin|Hin]; [|contradiction].
  apply repeat_spec in Hin. discriminate.
Qed.

Lemma length_unlines_suffix X Y :
  (length (unlines Y) <= length (unlines (X ++ Y)))%nat.
Proof.
  induction X as [|x X IH]; [cbn [app]; lia|].
  cbn [app]. pose proof (length_unlines_tail x (X ++ Y)). lia.
Qed.

(** The first line of what follows a tag line: the first child, the next
    sibling, or the first of the lines after the collector. *)
Lemma writeForest_first k nodes following :
  forallb writable nodes = true -> nodes <> [] ->
  exists l ls,
    writeForest k nodes ++ following = l :: ls /\
    l <> [] /\ ~ In NL l /\ countSpaces l = Z.of_nat k.
Proof.
  intros Hall Hne. destruct nodes as [|node more]; [contradiction|].
  cbn [forallb] in Hall. apply andb_true_iff in Hall as [Hnode _].
  destruct node as [d|name classes id attributes children sc|t];
    try discriminate.
  cbn [writable] in Hnode.
  repeat (apply andb_true_iff in Hnode as [Hnode ?]).
  destruct (tagLine_facts name classes id attributes)
    as ((c & t & Hline & Hc) & Hfree & _); try assumption.
  destruct (isLetter_not_NL_SPACE c Hc) as [_ Hsp].
  unfold writeForest. cbn [flat_map writeNode app].
  do 2 eexists. split; [reflexivity|]. rewrite Hline. split; [|split].
  - destruct k; discriminate.
  - rewrite <- Hline. now apply indented_no_NL.
  - now apply countSpaces_indented.
Qed.

Lemma dedents_next k parentIndent nodes following :
  forallb writable nodes = true -> parentIndent < Z.of_nat k ->
  dedents parentIndent following ->
  dedents (Z.of_nat k) (writeForest k nodes ++ following).
Proof.
  intros Hall Hk Hfollowing. destruct nodes as [|node more].
  - cbn [writeForest flat_map app]. destruct following as [|l ls]; [exact I|].
    destruct Hfollowing as (H1 & H2 & H3). repeat split; try assumption. lia.
  - destruct (writeForest_first k (node :: more) following Hall)
      as (l & ls & -> & H1 & H2 & H3); [discriminate|].
    repeat split; try assumption. lia.
Qed.

(** A collector in front of lines it does not take. *)
Lemma childrenLoop_dedent fuel parentIndent acc p following :
  dedents parentIndent following -> rest p = unlines following ->
  (0 < fuel)%nat ->
  childrenLoop fuel parentIndent acc p = Done (acc, p).
Proof.
  intros Hfollowing Hrest Hfuel. destruct fuel as [|fuel]; [lia|].
  cbn [childrenLoop]. unfold atEnd, peekIs, peek, getIndentLevel.
  destruct following as [|l ls]; [now rewrite Hrest|].
  destruct Hfollowing as (Hne & Hnl & Hindent).
  destruct l as [|x l]; [contradiction|].
  rewrite Hrest. rewrite unlines_char_cons.
  assert (Hx : N.eqb x NL = false)
    by (apply N.eqb_neq; intros ->; apply Hnl; now left).
  rewrite Hx. rewrite <- unlines_char_cons, countSpaces_line by exact Hnl.
  apply Z.leb_le in Hindent. now rewrite Hindent.
Qed.

Lemma skipNewline_at_line p l ls :
  l <> [] -> ~ In NL l -> rest p = unlines (l :: ls) -> skipNewline p = Done p.
Proof.
  intros Hne Hnl Hrest. destruct l as [|x l]; [contradiction|].
  unfold skipNewline, peekIs, peek. rewrite Hrest, unlines_char_cons.
  assert (Hx : N.eqb x NL = false)
    by (apply N.eqb_neq; intros ->; apply Hnl; now left).
  now rewrite Hx.
Qed.

Lemma skipNewline_at_dedent p parentIndent following :
  dedents parentIndent following -> rest p = unlines following ->
  skipNewline p = Done p.
Proof.
  intros Hfollowing Hrest. destruct following as [|l ls].
  - unfold skipNewline, peekIs, peek. now rewrite Hrest.
  - destruct Hfollowing as (Hne & Hnl & _).
    now apply (skipNewline_at_line p l ls).
Qed.

Lemma readsBack_nil : readsBack [].
Proof.
  intros k parentIndent fuel acc p following _ Hk Hfollowing Hrest Hfuel.
  cbn [writeForest flat_map app] in Hrest.
  exists p. rewrite app_nil_r. split; [|exact Hrest].
  apply (childrenLoop_dedent fuel parentIndent acc p following);
    [assumption | assumption | lia].
Qed.

Lemma readsBack_cons name classes id attributes children sc more :
  readsBack children -> readsBack more ->
  readsBack (TagNode name classes id attributes children sc :: more).
Proof.
  intros Hchildren Hmore k parentIndent fuel acc p following
         Hall Hk Hfollowing Hrest Hfuel.
  cbn [forallb] in Hall. apply andb_true_iff in Hall as [Hnode Hmore_ok].
  cbn [writable] in Hnode.
  apply andb_true_iff in Hnode as [Hnode Hkids].
  apply andb_true_iff in Hnode as [Hnode Hsc].
  apply andb_true_iff in Hnode as [Hnode Hattrs].
  apply andb_true_iff in Hnode as [Hnode Hid].
  apply andb_true_iff in Hnode as [Hname Hclasses].
  apply Bool.eqb_prop in Hsc.
  destruct (tagLine_facts name classes id attributes Hname Hclasses Hid Hattrs)
    as ((c & t & Hline & Hc) & Hfree & Htrim & Hparse).
  set (ln := writeTagLine name classes id (map attributeText attributes) None)
    in *.
  destruct (isLetter_not_NL_SPACE c Hc) as [HcNL HcSP].
  destruct (countSpaces_indented k c t HcSP) as [Hcount Hdrop].
  rewrite <- Hline in Hcount, Hdrop.
  (* the lines after the line of the tag *)
  set (after := writeForest k more ++ following).
  assert (Hafter : dedents (Z.of_nat k) after)
    by now apply (dedents_next k parentIndent more following).
  set (L := writeForest (k + 2) children ++ after).
  assert (Hlines : writeForest k (TagNode name classes id attributes children sc
                                  :: more) ++ following
                   = (repeat SPACE k ++ ln) :: L).
  { unfold writeForest, L, after, writeForest. cbn [flat_map writeNode].
    fold ln. cbn [app]. now rewrite <- app_assoc. }
  rewrite Hlines in Hrest.
  assert (Hindented : ~ In NL (repeat SPACE k ++ ln))
    by now apply indented_no_NL.
  destruct (readLine_skipIndentation p (repeat SPACE k ++ ln) L Hindented Hrest)
    as [Hraw Hp2].
  rewrite Hdrop in Hraw.
  (* one round of the loop *)
  destruct fuel as [|fuel]; [lia|].
  assert (Hhead : exists x r, rest p = x :: r /\ N.eqb x NL = false).
  { rewrite Hrest. destruct k as [|k].
    - cbn [repeat app]. rewrite Hline, unlines_char_cons. now do 2 eexists.
    - cbn [repeat app]. rewrite unlines_char_cons. now do 2 eexists. }
  destruct Hhead as (x & r & Hxr & Hx).
  cbn [childrenLoop]. unfold atEnd, peekIs, peek, getIndentLevel.
  rewrite Hxr, Hx. rewrite <- Hxr, Hrest.
  rewrite countSpaces_line, Hcount by exact Hindented.
  replace (Z.of_nat k <=? parentIndent) with false
    by (symmetry; apply Z.leb_gt; lia).
  destruct (readLine (skipIndentation p)) as [raw p2].
  cbn [fst snd] in Hraw, Hp2. subst raw. rewrite Htrim, Hline.
  rewrite <- Hline.
  (* the line *)
  assert (Hstart : startsWith (lit "!DOCTYPE ") ln = false).
  { rewrite Hline. cbn [startsWith lit map list_ascii_of_string].
    destruct (N.eqb_spec (N_of_ascii "!") c) as [<-|]; [discriminate|].
    reflexivity. }
  assert (Hpipe : startsWith [PIPE] ln = false).
  { rewrite Hline. cbn [startsWith].
    destruct (N.eqb_spec PIPE c) as [<-|]; [discriminate|]. reflexivity. }
  assert (Hlen_p2 : (length (rest p2) < fuel)%nat).
  { rewrite Hp2. rewrite Hrest in Hfuel.
    assert (Hne : exists y s, repeat SPACE k ++ ln = y :: s).
    { destruct k; cbn [repeat app]; [rewrite Hline|]; now do 2 eexists. }
    destruct Hne as (y & s & Hys). rewrite Hys in Hfuel.
    pose proof (length_unlines_nonempty_line y s L). lia. }
  assert (Hline_run :
    exists p3,
      parseLine fuel (fun indent q => childrenLoop fuel indent [] q)
                (Z.of_nat k) ln p2
      = Done (TagNode name classes id attributes children sc, p3) /\
      rest p3 = unlines after /\ (length (rest p3) < fuel)%nat).
  { unfold parseLine. rewrite Hstart, Hpipe, Hline, Hc. rewrite <- Hline.
    rewrite Hparse. cbn [bind Parsed.content Parsed.name Parsed.classes
                         Parsed.id Parsed.attributes parseInlineContent].
    rewrite <- Hsc.
    destruct (skipNewline_end_of_line p2 L Hp2) as (q & Hskip & Hq).
    rewrite Hskip. cbn [bind].
    assert (Hlen_q : (length (rest q) < fuel)%nat).
    { rewrite Hq. rewrite Hp2 in Hlen_p2.
      pose proof (length_unlines_tail [] L). lia. }
    destruct children as [|child kids].
    - (* no children: the next line is not deeper *)
      subst L. cbn [writeForest flat_map app] in Hq.
      exists q. split; [|split; [exact Hq | exact Hlen_q]].
      unfold atEnd, getIndentLevel.
      destruct after as [|l ls]; [now rewrite Hq|].
      destruct Hafter as (Hne & Hnl & Hindent).
      destruct l as [|y l]; [contradiction|].
      rewrite Hq, unlines_char_cons.
      rewrite <- unlines_char_cons, countSpaces_line by exact Hnl.
      replace (countSpaces (y :: l) >? Z.of_nat k) with false
        by (symmetry; rewrite Z.gtb_ltb; apply Z.ltb_ge; lia).
      reflexivity.
    - (* children: the collector two spaces deeper *)
      destruct (writeForest_first (k + 2) (child :: kids) after Hkids)
        as (l & ls & Hfirst & Hne & Hnl & Hindent); [discriminate|].
      fold L in Hfirst.
      destruct (Hchildren (k + 2)%nat (Z.of_nat k) fuel [] q after Hkids)
        as (p3 & Hdeep & Hp3); try assumption; try lia.
      assert (Hend : atEnd q = false).
      { unfold atEnd. destruct l as [|y l]; [contradiction|].
        now rewrite Hq, Hfirst, unlines_char_cons. }
      assert (Hind : getIndentLevel q = Z.of_nat (k + 2)).
      { unfold getIndentLevel.
        now rewrite Hq, Hfirst, countSpaces_line by exact Hnl. }
      rewrite Hend, Hind.
      replace (Z.of_nat (k + 2) >? Z.of_nat k) with true
        by (symmetry; rewrite Z.gtb_ltb; apply Z.ltb_lt; lia).
      rewrite Hdeep. cbn [bind app].
      exists p3. split; [reflexivity|]. split; [exact Hp3|].
      rewrite Hp3. rewrite Hq in Hlen_q.
      pose proof (length_unlines_suffix (writeForest (k + 2) (child :: kids))
                    after). fold L in H. lia. }
  destruct Hline_run as (p3 & Hrun & Hp3 & Hlen_p3).
  rewrite Hrun. cbn [bind].
  rewrite (skipNewline_at_dedent p3 (Z.of_nat k) after Hafter Hp3). cbn [bind].
  destruct (Hmore k parentIndent fuel
              (acc ++ [TagNode name classes id attributes children sc])
              p3 following Hmore_ok Hk Hfollowing Hp3 Hlen_p3)
    as (p' & Hloop & Hp').
  exists p'. split; [|exact Hp']. rewrite Hloop. now rewrite <- app_assoc.
Qed.

Lemma writable_readsBack :
  forall nodes, forallb writable nodes = true -> readsBack nodes.
Proof.
  assert (Hnode : forall node,
            writable node = true ->
            forall more, readsBack more -> readsBack (node :: more)).
  { induction node as [d|t|name classes id attributes children sc IH]
      using ASTNode_nested_ind; intros Hw more Hmore; try discriminate.
    apply readsBack_cons; [|exact Hmore].
    cbn [writable] in Hw. apply andb_true_iff in Hw as [_ Hkids].
    clear - IH Hkids. induction children as [|child kids IHkids].
    - apply readsBack_nil.
    - inversion IH as [|? ? Hchild Hrest]; subst.
      cbn [forallb] in Hkids. apply andb_true_iff in Hkids as [Hc Hk].
      apply Hchild; [exact Hc | now apply IHkids]. }
  induction nodes as [|node more IH]; intros Hall.
  - apply readsBack_nil.
  - cbn [forallb] in Hall. apply andb_true_iff in Hall as [Hn Hm].
    apply Hnode; [exact Hn | now apply IH].
Qed.

Lemma writeForest_lines k nodes :
  forallb writable nodes = true ->
  Forall (fun l => l <> [] /\ trimEnd l = l) (writeForest k nodes).
Proof.
  revert k.
  assert (Hnode : forall node, writable node = true ->
            forall k, Forall (fun l => l <> [] /\ trimEnd l = l)
                             (writeNode k node)).
  { induction node as [d|t|name classes id attributes children sc IH]
      using ASTNode_nested_ind; intros Hw k; try discriminate.
    cbn [writable] in Hw.
    apply andb_true_iff in Hw as [Hw Hkids].
    apply andb_true_iff in Hw as [Hw Hsc].
    apply andb_true_iff in Hw as [Hw Hattrs].
    apply andb_true_iff in Hw as [Hw Hid].
    apply andb_true_iff in Hw as [Hname Hclasses].
    destruct (tagLine_facts name classes id attributes Hname Hclasses Hid Hattrs)
      as ((c & t & Hline & Hc) & _ & Htrim & _).
    cbn [writeNode]. constructor.
    - rewrite Hline. split; [destruct k; discriminate|].
      apply trimEnd_app; [discriminate|]. rewrite <- Hline.
      unfold trim, trimStart in Htrim. rewrite Hline in Htrim.
      cbn [dropWhile] in Htrim.
      rewrite (isLetter_not_trimSpace c Hc) in Htrim. now rewrite Hline.
    - clear - IH Hkids. induction children as [|child kids IHkids];
        [constructor|].
      inversion IH as [|? ? Hchild Hrest]; subst.
      cbn [forallb] in Hkids. apply andb_true_iff in Hkids as [Hc Hk].
      cbn [flat_map]. apply Forall_app. split; [now apply Hchild|].
      now apply IHkids. }
  intros k. induction nodes as [|node more IH]; intros Hall; [constructor|].
  cbn [forallb] in Hall. apply andb_true_iff in Hall as [Hn Hm].
  unfold writeForest. cbn [flat_map]. apply Forall_app.
  split; [now apply Hnode | now apply IH].
Qed.

Lemma trimEnd_unlines :
  forall ls l,
    Forall (fun l => l <> [] /\ trimEnd l = l) (l :: ls) ->
    unlines (l :: ls) <> [] /\ trimEnd (unlines (l :: ls)) = unlines (l :: ls).
Proof.
  induction ls as [|l' ls IH]; intros l Hall;
    inversion Hall as [|? ? Hl Hrest]; subst.
  - exact Hl.
  - destruct (IH l' Hrest) as [Hne Hfix].
    rewrite unlines_cons, unlines_empty_head.
    change (l ++ NL :: unlines (l' :: ls))
      with (l ++ [NL] ++ unlines (l' :: ls)).
    rewrite app_assoc. split.
    + intros Hnil. apply app_eq_nil in Hnil as [_ Hnil]. contradiction.
    + now apply trimEnd_app.
Qed.

Lemma parseSource_written (nodes : list ASTNode) (p : Parser) :
  nodes <> [] ->
  forallb writable nodes = true ->
  constructor (unlines (writeForest 0 nodes)) = Done p ->
  parseSource (unlines (writeForest 0 nodes)) = Done nodes.
Proof.
  intros Hne Hall Hctor.
  pose proof (constructor_rest _ _ Hctor) as Hrest.
  destruct (writeForest_first 0 nodes [] Hall Hne)
    as (l & ls & Hlines & Hl & Hnl & Hindent).
  rewrite app_nil_r in Hlines.
  assert (Htrim : trim (unlines (writeForest 0 nodes))
                  = unlines (writeForest 0 nodes)).
  { pose proof (writeForest_lines 0 nodes Hall) as Hok.
    rewrite Hlines in *.
    destruct (trimEnd_unlines ls l Hok) as [_ Hend].
    destruct l as [|x l]; [contradiction|].
    assert (Hx : isTrimSpace x = false).
    { destruct nodes as [|node more]; [contradiction|].
      cbn [forallb] in Hall. apply andb_true_iff in Hall as [Hnode _].
      destruct node as [d|name classes id attributes children sc|t];
        try discriminate.
      cbn [writable] in Hnode.
      repeat (apply andb_true_iff in Hnode as [Hnode ?]).
      destruct (tagLine_facts name classes id attributes)
        as ((c & t & Hline & Hc) & _); try assumption.
      unfold writeForest in Hlines. cbn [flat_map writeNode repeat app] in Hlines.
      rewrite Hline in Hlines. injection Hlines as <- _ _.
      now apply isLetter_not_trimSpace. }
    unfold trim, trimStart. rewrite unlines_char_cons in *.
    cbn [dropWhile]. now rewrite Hx. }
  rewrite Htrim in Hrest.
  destruct (writable_readsBack nodes Hall 0%nat (-1) (S (length (rest p))) [] p [])
    as (p' & Hrun & _); try assumption; try lia.
  { exact I. }
  { now rewrite app_nil_r. }
  unfold parseSource. rewrite Hctor. cbn [bind].
  unfold parse, parseChildren. rewrite Hrun. reflexivity.
Qed.

(** X16: a tree of tags written out reads back. Write each tag on a line
    of its own (name, classes, id, one block of attributes with quoted
    values) and its children two spaces deeper; when the names are
    proper, the values hold no newline, [selfClosing] is set by the name
    and the constructor accepts the text, [parse] returns the very
    trees that were written. *)
Theorem tree_round_trip (nodes : list ASTNode) (p : Parser) :
  nodes <> [] ->
  forallb writable nodes = true ->
  constructor (unlines (writeForest 0 nodes)) = Done p ->
  parseSource (unlines (writeForest 0 nodes)) = Done nodes.
Proof.
  intros Hne Hall Hctor. now apply (parseSource_written nodes p).
Qed.

Lemma tree_round_trip_witness :
  parseSource (unlines (writeForest 0 pageTree)) = Done pageTree.
Proof.
  exact (tree_round_trip pageTree
           (mkParser (unlines (writeForest 0 pageTree)) 1 1)
           ltac:(discriminate) ltac:(vm_compute; reflexivity)
           ltac:(vm_compute; reflexivity)).
Defined.

(* ================================================================== *)
(** * The minified HTML of a tree of tags *)
(* ================================================================== *)

Lemma pushIndented_minifying pieces g :
  minifying g = true ->
  pushIndented pieces g = (Done tt, push ([] :: pieces) g).
Proof.
  intros Hmin. unfold pushIndented. now rewrite (indent_minifying g Hmin).
Qed.

Lemma children_minified tagName children :
  Forall pushesSerialized children ->
  forall g, minifying g = true ->
    exists gk pieces,
      eachChild tagName generateNode children g = (Done tt, gk) /\
      outputBuffer gk = outputBuffer g ++ pieces /\
      concat pieces = flat_map serialize children /\
      minifying gk = true.
Proof.
  induction 1 as [|child more Hchild _ IH]; intros g Hmin; cbn [eachChild].
  - exists g, []. rewrite app_nil_r. now repeat split.
  - destruct (Hchild (setCurrentParentTag tagName g) Hmin)
      as (g1 & pieces1 & Hrun1 & Hb1 & Hc1).
    assert (Hg1 : minifying g1 = true).
    { rewrite (grows_minifying _ _ (generateNode_grows _ _ _ _ Hrun1)).
      exact Hmin. }
    assert (Hround : aroundChild tagName (generateNode child) g
                     = (Done tt, setCurrentParentTag (currentParentTag g) g1)).
    { unfold aroundChild. rewrite (andThen_returned _ _ _ _ _ Hrun1).
      change (minifying (setCurrentParentTag (currentParentTag g) g1))
        with (minifying g1). now rewrite Hg1. }
    rewrite (andThen_returned _ _ _ _ _ Hround).
    destruct (IH (setCurrentParentTag (currentParentTag g) g1) Hg1)
      as (gk & pieces2 & Hrun2 & Hb2 & Hc2 & Hm2).
    exists gk, (pieces1 ++ pieces2).
    split; [exact Hrun2|]. split; [|split; [|exact Hm2]].
    + rewrite Hb2. cbn [setCurrentParentTag outputBuffer]. rewrite Hb1.
      cbn [setCurrentParentTag outputBuffer]. now rewrite app_assoc.
    + cbn [flat_map]. now rewrite concat_app, Hc1, Hc2.
Qed.

Lemma generateNode_minified node :
  tagsOnly node = true -> pushesSerialized node.
Proof.
  induction node as [doctype|content|name classes id attributes children sc IH]
    using ASTNode_nested_ind; intros Htags g Hmin; [| discriminate |].
  - eexists; eexists. split; [reflexivity|]. split; [reflexivity|].
    cbn [concat serialize]. now rewrite app_nil_r.
  - cbn [tagsOnly] in Htags.
    assert (Hkids : Forall pushesSerialized children).
    { clear - IH Htags. induction children as [|child kids IHkids];
        [constructor|].
      inversion IH as [|? ? Hchild Hrest]; subst.
      cbn [forallb] in Htags. apply andb_true_iff in Htags as [Hc Hk].
      constructor; [now apply Hchild | now apply IHkids]. }
    set (attrs := generateAttributes attributes classes id).
    assert (Hblock :
      exists g' pieces,
        andThen (openBlock name attrs)
          (fun _ =>
             andThen (eachChild name generateNode children)
               (fun _ => closeBlock name)) g = (Done tt, g') /\
        outputBuffer g' = outputBuffer g ++ pieces /\
        concat pieces
        = lit "<" ++ name ++ attrs ++ lit ">"
          ++ flat_map serialize children ++ lit "</" ++ name ++ lit ">").
    { assert (Hopen : openBlock name attrs g
                      = (Done tt, push [[]; lit "<"; name; attrs; lit ">"] g)).
      { unfold openBlock.
        rewrite (andThen_returned _ _ _ _ _
                   (pushIndented_minifying _ g Hmin)).
        change (minifying (push [[]; lit "<"; name; attrs; lit ">"] g))
          with (minifying g). now rewrite Hmin. }
      rewrite (andThen_returned _ _ _ _ _ Hopen).
      destruct (children_minified name children Hkids
                  (push [[]; lit "<"; name; attrs; lit ">"] g) Hmin)
        as (gk & middle & Hrun & Hb & Hc & Hm).
      rewrite (andThen_returned _ _ _ _ _ Hrun).
      unfold closeBlock. rewrite Hm. rewrite (pushIndented_minifying _ gk Hm).
      eexists. exists ([[]; lit "<"; name; attrs; lit ">"] ++ middle
                       ++ [[]; lit "</"; name; lit ">"]).
      split; [reflexivity|]. split.
      - cbn [push outputBuffer]. rewrite Hb. cbn [push outputBuffer].
        now rewrite <- !app_assoc.
      - rewrite !concat_app, Hc. cbn [concat app].
        rewrite !app_nil_r. now rewrite <- !app_assoc. }
    cbn [generateNode serialize]. fold attrs.
    destruct sc.
    + rewrite (pushIndented_minifying _ g Hmin).
      eexists; eexists. split; [reflexivity|]. split; [reflexivity|].
      cbn [concat app]. now rewrite !app_nil_r.
    + destruct children as [|[d|n c i a ch s|t] [|second more]];
        try exact Hblock; try discriminate Htags.
      rewrite (pushIndented_minifying _ g Hmin).
      eexists; eexists. split; [reflexivity|]. split; [reflexivity|].
      cbn [concat app flat_map]. rewrite !app_nil_r. reflexivity.
Qed.

Lemma generateAll_minified ast :
  forallb tagsOnly ast = true ->
  forall g, minifying g = true ->
    exists g' pieces,
      generateAll ast g = (Done tt, g') /\
      outputBuffer g' = outputBuffer g ++ pieces /\
      concat pieces = flat_map serialize ast.
Proof.
  induction ast as [|node more IH]; intros Htags g Hmin; cbn [generateAll].
  - exists g, []. now rewrite app_nil_r.
  - cbn [forallb] in Htags. apply andb_true_iff in Htags as [Hn Hm].
    destruct (generateNode_minified node Hn g Hmin)
      as (g1 & pieces1 & Hrun1 & Hb1 & Hc1).
    assert (Hg1 : minifying g1 = true).
    { rewrite (grows_minifying _ _ (generateNode_grows _ _ _ _ Hrun1)).
      exact Hmin. }
    rewrite (andThen_returned _ _ _ _ _ Hrun1), Hg1.
    destruct (IH Hm g1 Hg1) as (g2 & pieces2 & Hrun2 & Hb2 & Hc2).
    exists g2, (pieces1 ++ pieces2). split; [exact Hrun2|]. split.
    + now rewrite Hb2, Hb1, app_assoc.
    + cbn [flat_map]. now rewrite concat_app, Hc1, Hc2.
Qed.

Lemma generate_minified ast given g :
  disposed g = false ->
  truthy (minify (match given with
                  | Some o => mergeOptions (options g) o
                  | None => options g
                  end)) = true ->
  forallb tagsOnly ast = true ->
  exists r,
    fst (generate ast given g) = Done r /\
    joined r = flat_map serialize ast /\ formatting r = AsJoined.
Proof.
  intros Hlive Hmin Htags.
  set (opts := match given with
               | Some o => mergeOptions (options g) o
               | None => options g
               end) in *.
  destruct (generateAll_minified ast Htags
              (mkGenerator 0 opts (currentParentTag g) false []) Hmin)
    as (g2 & pieces & Hrun & Hb & Hc).
  rewrite (proj1 (generate_unfold ast given g Hlive) tt g2 Hrun).
  eexists. split; [reflexivity|]. cbn [joined formatting].
  rewrite Hb. cbn [outputBuffer app]. split; [exact Hc|].
  fold opts. rewrite Hmin. cbn [negb andb]. now rewrite andb_false_r.
Qed.

Lemma writable_tagsOnly node : writable node = true -> tagsOnly node = true.
Proof.
  induction node as [d|t|name classes id attributes children sc IH]
    using ASTNode_nested_ind; intros Hw; try discriminate.
  cbn [writable] in Hw. apply andb_true_iff in Hw as [_ Hkids].
  cbn [tagsOnly]. induction children as [|child kids IHkids]; [reflexivity|].
  inversion IH as [|? ? Hchild Hrest]; subst.
  cbn [forallb] in *. apply andb_true_iff in Hkids as [Hc Hk].
  rewrite (Hchild Hc). now apply IHkids.
Qed.

(** X17: the minified HTML of tags. For a list of trees without text
    nodes, a generator that minifies returns the plain serialization:
    for each tag the opening tag with its attributes, its children and
    the closing tag, a self-closing tag alone, with nothing between
    them; and the text is returned as it was joined. *)
Theorem minified_tags (ast : list ASTNode) (given : option PartialOptions)
  (g : Generator) :
  disposed g = false ->
  truthy (minify (match given with
                  | Some o => mergeOptions (options g) o
                  | None => options g
                  end)) = true ->
  forallb tagsOnly ast = true ->
  exists r,
    fst (generate ast given g) = Done r /\
    joined r = flat_map serialize ast /\ formatting r = AsJoined.
Proof. apply generate_minified. Qed.

Lemma minified_tags_witness :
  exists r,
    fst (generate pageTree (Some onlyMinify) (newGenerator noOptions))
    = Done r /\
    joined r = flat_map serialize pageTree /\ formatting r = AsJoined.
Proof.
  exact (minified_tags pageTree (Some onlyMinify) (newGenerator noOptions)
           eq_refl eq_refl eq_refl).
Defined.

(** X18: from the text to the HTML. For trees of tags written out as
    text (each tag on its line, the children two spaces deeper) that the
    constructor accepts, parsing the text and generating with a
    generator that minifies gives the serialization of the trees that
    were written. *)
Theorem written_tree_to_html (nodes : list ASTNode) (p : Parser)
  (given : option PartialOptions) (g : Generator) :
  nodes <> [] ->
  forallb writable nodes = true ->
  constructor (unlines (writeForest 0 nodes)) = Done p ->
  disposed g = false ->
  truthy (minify (match given with
                  | Some o => mergeOptions (options g) o
                  | None => options g
                  end)) = true ->
  exists r,
    (ast <- parseSource (unlines (writeForest 0 nodes)) ;;
     fst (generate ast given g))
    = Done r /\
    joined r = flat_map serialize nodes /\ formatting r = AsJoined.
Proof.
  intros Hne Hall Hctor Hlive Hmin.
  rewrite (parseSource_written nodes p Hne Hall Hctor). cbn [bind].
  apply generate_minified; try assumption.
  clear - Hall. induction nodes as [|node more IH]; [reflexivity|].
  cbn [forallb] in *. apply andb_true_iff in Hall as [Hn Hm].
  rewrite (writable_tagsOnly node Hn). now apply IH.
Qed.

Lemma written_tree_to_html_witness :
  exists r,
    (ast <- parseSource (unlines (writeForest 0 pageTree)) ;;
     fst (generate ast (Some onlyMinify) (newGenerator noOptions)))
    = Done r /\
    joined r = flat_map serialize pageTree /\ formatting r = AsJoined.
Proof.
  exact (written_tree_to_html pageTree
           (mkParser (unlines (writeForest 0 pageTree)) 1 1)
           (Some onlyMinify) (newGenerator noOptions)
           ltac:(discriminate) ltac:(vm_compute; reflexivity)
           ltac:(vm_compute; reflexivity) eq_refl eq_refl).
Defined.

(* ================================================================== *)
(** * The strict readers of the class *)
(* ================================================================== *)

Lemma readIdentifierFrom_spec :
  forall r l col result,
    jsLength result <= maxIdentifierLength ->
    (jsLength result + jsLength (takeWhile isIdentChar r)
     <= maxIdentifierLength ->
     readIdentifierFrom r l col result
     = Done (result ++ takeWhile isIdentChar r,
             mkParser (dropWhile isIdentChar r) l
                      (col + jsLength (takeWhile isIdentChar r)))) /\
    (jsLength result + jsLength (takeWhile isIdentChar r)
     > maxIdentifierLength ->
     readIdentifierFrom r l col result
     = Raise (ParseError l (col + (maxIdentifierLength - jsLength result))
                         (IdentifierTooLong maxIdentifierLength))).
Proof.
  unfold jsLength.
  induction r as [|c r IH]; intros l col result Hres;
    cbn [readIdentifierFrom takeWhile dropWhile].
  - cbn [length]. change (Z.of_nat 0) with 0.
      rewrite app_nil_r, !Z.add_0_r. split; [reflexivity | lia].
  - destruct (isIdentChar c).
    + cbn [length]. rewrite Nat2Z.inj_succ. unfold jsLength.
      destruct (Z.geb_spec (Z.of_nat (length result)) maxIdentifierLength)
        as [Hfull|Hroom].
      * split; [lia|]. intros _. do 2 f_equal. lia.
      * destruct (IH l (col + 1) (result ++ [c])) as [Hdone Hraise].
        { rewrite length_app. cbn [length]. lia. }
        rewrite length_app in Hdone, Hraise. cbn [length] in Hdone, Hraise.
        split; intros Hsum.
        -- rewrite Hdone by lia. rewrite <- app_assoc. cbn [app].
           do 3 f_equal. lia.
        -- rewrite Hraise by lia. do 2 f_equal. lia.
    + cbn [length]. change (Z.of_nat 0) with 0.
      rewrite app_nil_r, !Z.add_0_r. split; [reflexivity | lia].
Qed.

(** X19: the bounds of the class method [readIdentifier]. With [n] the
    number of identifier characters at the position: for [n = 0] it
    raises [Expected identifier but found none] at the position; for [n]
    from 1 to 100 it returns these characters and stands after them, [n]
    columns further; for more than 100 it raises [Identifier too long],
    100 columns further. *)
Theorem readIdentifier_bounds (p : Parser) :
  let run := takeWhile isIdentChar (rest p) in
  (run = [] ->
   readIdentifier p
   = Raise (ParseError (line p) (column p) ExpectedIdentifier)) /\
  (1 <= jsLength run <= maxIdentifierLength ->
   readIdentifier p
   = Done (run, mkParser (dropWhile isIdentChar (rest p)) (line p)
                         (column p + jsLength run))) /\
  (jsLength run > maxIdentifierLength ->
   readIdentifier p
   = Raise (ParseError (line p) (column p + maxIdentifierLength)
                       (IdentifierTooLong maxIdentifierLength))).
Proof.
  intros run. subst run. unfold readIdentifier.
  destruct (readIdentifierFrom_spec (rest p) (line p) (column p) [])
    as [Hdone Hraise]; [cbn; unfold maxIdentifierLength; lia|].
  change (jsLength []) with 0 in Hdone, Hraise.
  split; [|split].
  - intros Hrun. rewrite Hdone by (rewrite Hrun; cbn; unfold maxIdentifierLength; lia).
    cbn [bind app]. rewrite Hrun. cbn. now rewrite Z.add_0_r.
  - intros [Hlo Hhi]. rewrite Hdone by lia. cbn [bind app].
    destruct (takeWhile isIdentChar (rest p)) as [|c run]; [cbn in Hlo; lia|].
    reflexivity.
  - intros Hlong. rewrite Hraise by lia. cbn [bind].
    now rewrite Z.sub_0_r.
Qed.

Lemma readStringFrom_written after :
  forall v l col result,
    (jsLength result + jsLength v <= maxStringLength ->
     exists l' col',
       readStringFrom DQUOTE (escapeQuoted v ++ DQUOTE :: after) l col result
       = Done (result ++ v, mkParser (DQUOTE :: after) l' col')) /\
    (jsLength result <= maxStringLength ->
     jsLength result + jsLength v > maxStringLength ->
     exists l' col',
       readStringFrom DQUOTE (escapeQuoted v ++ DQUOTE :: after) l col result
       = Raise (ParseError l' col' (StringTooLong maxStringLength))).
Proof.
  unfold jsLength.
  induction v as [|c v IH]; intros l col result.
  - cbn [escapeQuoted flat_map app readStringFrom length].
    rewrite N.eqb_refl, app_nil_r. split; [now do 2 eexists | lia].
  - assert (Hlen : Z.of_nat (length (result ++ [c]))
                   = Z.of_nat (length result) + 1)
      by (rewrite length_app; cbn [length]; lia).
    assert (Hstep : forall l1 col1,
      (Z.of_nat (length result) + Z.of_nat (length (c :: v))
       <= maxStringLength ->
       exists l' col',
         (if jsLength result >=? maxStringLength
          then Raise (ParseError l col (StringTooLong maxStringLength))
          else readStringFrom DQUOTE (escapeQuoted v ++ DQUOTE :: after)
                              l1 col1 (result ++ [c]))
         = Done (result ++ c :: v, mkParser (DQUOTE :: after) l' col')) /\
      (Z.of_nat (length result) <= maxStringLength ->
       Z.of_nat (length result) + Z.of_nat (length (c :: v))
       > maxStringLength ->
       exists l' col',
         (if jsLength result >=? maxStringLength
          then Raise (ParseError l col (StringTooLong maxStringLength))
          else readStringFrom DQUOTE (escapeQuoted v ++ DQUOTE :: after)
                              l1 col1 (result ++ [c]))
         = Raise (ParseError l' col' (StringTooLong maxStringLength)))).
    { intros l1 col1. cbn [length]. rewrite Nat2Z.inj_succ. unfold jsLength.
      destruct (Z.geb_spec (Z.of_nat (length result)) maxStringLength)
        as [Hfull|Hroom].
      - split; [lia | now do 2 eexists].
      - destruct (IH l1 col1 (result ++ [c])) as [Hdone Hraise].
        rewrite Hlen in Hdone, Hraise. split; intros.
        + destruct Hdone as (l' & col' & ->); [lia|].
          rewrite <- app_assoc. now do 2 eexists.
        + destruct Hraise as (l' & col' & ->); [lia | lia |].
          now do 2 eexists. }
    unfold escapeQuoted. cbn [flat_map].
    fold (escapeQuoted v).
    destruct (N.eqb_spec c DQUOTE) as [->|Hq].
    + cbn [orb app readStringFrom].
      change (N.eqb BACKSLASH DQUOTE) with false. cbv iota.
      rewrite N.eqb_refl. cbv zeta. apply Hstep.
    + destruct (N.eqb_spec c BACKSLASH) as [->|Hb].
      * cbn [orb app readStringFrom].
        change (N.eqb BACKSLASH DQUOTE) with false. cbv iota.
        rewrite N.eqb_refl. cbv zeta. apply Hstep.
      * cbn [orb app readStringFrom].
        apply N.eqb_neq in Hq, Hb. rewrite Hq, Hb. cbv zeta. apply Hstep.
Qed.

(** X20: the class method [readString] reads back a quoted value. A value
    of at most 10000 characters, written between double quotes with a
    backslash before each double quote and backslash, is returned as it
    was, and the parser stands after the closing quote; for a longer
    value the method raises [String too long]. *)
Theorem readString_round_trip (v after : str) (l col : Z) :
  let p := mkParser ([DQUOTE] ++ escapeQuoted v ++ [DQUOTE] ++ after) l col in
  (jsLength v <= maxStringLength ->
   exists p', readString DQUOTE p = Done (v, p') /\ rest p' = after) /\
  (jsLength v > maxStringLength ->
   exists l' col',
     readString DQUOTE p
     = Raise (ParseError l' col' (StringTooLong maxStringLength))).
Proof.
  intros p. subst p. unfold readString, advance.
  cbn [rest app line column bind].
  change (moved DQUOTE (escapeQuoted v ++ DQUOTE :: after) l col)
    with (mkParser (escapeQuoted v ++ DQUOTE :: after) l (col + 1)).
  cbn [rest line column].
  destruct (readStringFrom_written after v l (col + 1) []) as [Hdone Hraise].
  change (jsLength []) with 0 in Hdone, Hraise. split.
  - intros Hlen. destruct Hdone as (l' & col' & ->); [lia|].
    cbn [bind app]. unfold peekIs, peek. cbn [rest]. rewrite N.eqb_refl.
    cbn [bind]. eexists. split; [reflexivity|].
    unfold moved. change (N.eqb DQUOTE NL) with false. reflexivity.
  - intros Hlen.
    destruct Hraise as (l' & col' & ->); [unfold maxStringLength; lia | lia |].
    cbn [bind]. now do 2 eexists.
Qed.

(* ================================================================== *)
(** * The logger: what passes the threshold *)
(* ================================================================== *)

Module LoggerFacts.
Import Logger.



End LoggerFacts.

